(** * Treap containers of the Basics repository

    A shallow embedding of the treap code under [src/trees]:

    - [treap_base.hpp]: the augmented node ([treap_node_base]) and the
      order-statistic descent of [treap_base];
    - [treap.hpp]: the key-ordered treap with a user comparator, whose
      [merge] and [split] are loops over explicit stacks;
    - [implicit_treap.hpp]: the positional treap with recursive [merge] and
      [split];
    - [treap.h]: the earlier [TreapNode]/[Treap] pair over integer keys.

    A node pointer is a value of [treap_node]: [nullptr] or a node with its
    priority, its two owned children, its cached [_size] field and its
    payload.  The tree is a strict ownership tree (no sharing, no parent
    links), so a mutation of a child pointer is the construction of a new
    node value.

    [size_type] values are modelled in [N].  The [_size] field counts nodes
    that are alive in memory, so sums of sizes never reach the word bound and
    are written without reduction; where the source subtracts from a value a
    caller controls ([size() - 1] in [pop_back]) the wrap-around is written
    out.  Priorities are only ever compared. *)

From Stdlib Require Import List NArith ZArith Lia Bool Permutation Sorted.
From Stdlib Require String.
From Equations Require Import Equations.
Import ListNotations.
Import String.StringSyntax.
Delimit Scope string_scope with string.

Set Implicit Arguments.

(** ** Exceptions *)

Inductive exn : Type :=
| out_of_range
| runtime_error (what : String.string).

(** Outcome of a call: a value, a thrown exception, or undefined behaviour
    (a member access through a null pointer, a read of released storage). *)
Inductive result (A : Type) : Type :=
| Ok (a : A)
| Throw (e : exn)
| Undefined.

Arguments Ok {A} a.
Arguments Throw {A} e.
Arguments Undefined {A}.

(** Sequencing of calls: an exception or undefined behaviour of the first
    ends the evaluation. *)
Definition result_bind {A B : Type} (r : result A) (f : A -> result B)
  : result B :=
  match r with
  | Ok a => f a
  | Throw e => Throw e
  | Undefined => Undefined
  end.

(** ** treap_base.hpp *)

Module treap_base.

Inductive treap_node (V : Type) : Type :=
| nullptr
| Node (_priority : N) (_left _right : treap_node V) (_size : N) (_value : V).

Arguments nullptr {V}.

Section NodeBase.

Variable V : Type.
Abbreviation node := (treap_node V).

(** [node->size()], guarded by the null test every caller performs. *)
Definition size (n : node) : N :=
  match n with
  | nullptr => 0
  | Node _ _ _ s _ => s
  end.

Definition get_left (n : node) : node :=
  match n with
  | nullptr => nullptr
  | Node _ l _ _ _ => l
  end.

Definition get_right (n : node) : node :=
  match n with
  | nullptr => nullptr
  | Node _ _ r _ _ => r
  end.

Definition left_size (n : node) : N := size (get_left n).

Definition right_size (n : node) : N := size (get_right n).

Definition get_priority (n : node) : N :=
  match n with
  | nullptr => 0
  | Node p _ _ _ _ => p
  end.

(** [update] recomputes the cached size from the children's cached sizes. *)
Definition update (n : node) : node :=
  match n with
  | nullptr => nullptr
  | Node p l r _ v => Node p l r (left_size n + right_size n + 1) v
  end.

Definition set_left (n child : node) : node :=
  match n with
  | nullptr => nullptr
  | Node p _ r s v => update (Node p child r s v)
  end.

Definition set_right (n child : node) : node :=
  match n with
  | nullptr => nullptr
  | Node p l _ s v => update (Node p l child s v)
  end.

(** [construct_node] followed by [set_members(random_generator(), nullptr,
    nullptr)]: the drawn priority is an argument. *)
Definition construct_node (priority : N) (value : V) : node :=
  update (Node priority nullptr nullptr 0 value).

(** The descent loop of [node_of_order]; [index] is already incremented. *)
Fixpoint node_of_order_loop (root : node) (index : N) : result node :=
  match root with
  | nullptr => Throw (runtime_error "Unreachable code"%string)
  | Node _ l r _ _ =>
      let left_count := left_size root in
      if index =? left_count + 1 then Ok root
      else if index <=? left_count then node_of_order_loop l index
      else node_of_order_loop r (index - (left_count + 1))
  end%N.

Definition node_of_order (_root : node) (index : N) : result node :=
  if (index =? size _root)%N then Ok nullptr
  else if (size _root <? index)%N then Throw out_of_range
  else node_of_order_loop _root (index + 1).

Definition empty (_root : node) : bool := (size _root =? 0)%N.

(** *** common_iterator

    The iterator holds a pointer to the payload (none for the null pointer),
    the container pointer and the rank; the container is the root the
    operations below are given.  The operators of treap.h's iterator have the
    same bodies. *)

(** Word bound of [size_type]: [++_index], [--_index] and [_index += n] are
    computed modulo it. *)
Definition size_type_bound : N := 2 ^ 64.

Definition get_value_address (n : node) : option V :=
  match n with
  | nullptr => None
  | Node _ _ _ _ v => Some v
  end.

Record common_iterator : Type := make_iterator_at
  { _value : option V;
    _index : N }.

(** [cend()] and [end()]. *)
Definition cend (_root : node) : common_iterator :=
  {| _value := None; _index := size _root |}.

(** [cbegin()] and [begin()]: [node_of_order(0)->get_value_address()]. *)
Definition cbegin (_root : node) : result common_iterator :=
  if empty _root then Ok (cend _root)
  else
    result_bind (node_of_order _root 0)
      (fun n =>
         match n with
         | nullptr => Undefined
         | Node _ _ _ _ v => Ok {| _value := Some v; _index := 0 |}
         end).

(** The common tail of the stepping operators: the rank has been updated to
    [index], then [node = _treap->node_of_order(index)] and
    [_value = (node == nullptr ? nullptr : node->get_value_address())].  When
    the rank query throws, the exception leaves the operator. *)
Definition reposition (_treap : node) (index : N) : result common_iterator :=
  result_bind (node_of_order _treap index)
    (fun n => Ok {| _value := get_value_address n; _index := index |}).

(** [operator++]. *)
Definition increment (_treap : node) (it : common_iterator)
  : result common_iterator :=
  reposition _treap ((_index it + 1) mod size_type_bound).

(** [operator--]. *)
Definition decrement (_treap : node) (it : common_iterator)
  : result common_iterator :=
  reposition _treap ((_index it + size_type_bound - 1) mod size_type_bound).

(** [operator+=(ptrdiff_t n)] and [operator+]. *)
Definition advance (_treap : node) (it : common_iterator) (n : Z)
  : result common_iterator :=
  reposition _treap
    (Z.to_N ((Z.of_N (_index it) + n) mod Z.of_N size_type_bound)).

(** [operator-=(ptrdiff_t n)] and [operator-(ptrdiff_t)]. *)
Definition retreat (_treap : node) (it : common_iterator) (n : Z)
  : result common_iterator :=
  reposition _treap
    (Z.to_N ((Z.of_N (_index it) - n) mod Z.of_N size_type_bound)).

(** [operator*]: reading through a null payload pointer is undefined. *)
Definition dereference (it : common_iterator) : result V :=
  match _value it with
  | Some v => Ok v
  | None => Undefined
  end.

(** [for (auto it = begin(); it != end(); ++it)] collecting [*it].  The test
    [it != end()] compares the payload pointers, and that of [end()] is null.
    [fuel] bounds the number of steps; [None] is an exhausted bound. *)
Fixpoint for_each_from (fuel : nat) (_treap : node) (it : common_iterator)
  : option (result (list V)) :=
  match _value it with
  | None => Some (Ok [])
  | Some v =>
      match fuel with
      | O => None
      | S fuel' =>
          match increment _treap it with
          | Ok it' =>
              match for_each_from fuel' _treap it' with
              | Some (Ok values) => Some (Ok (v :: values))
              | other => other
              end
          | Throw e => Some (Throw e)
          | Undefined => Some Undefined
          end
      end
  end.

Definition for_each (fuel : nat) (_treap : node) : option (result (list V)) :=
  match cbegin _treap with
  | Ok it => for_each_from fuel _treap it
  | Throw e => Some (Throw e)
  | Undefined => Some Undefined
  end.

(** *** Specification-level views of a tree *)

(** Number of nodes, counted structurally. *)
Fixpoint count (t : node) : nat :=
  match t with
  | nullptr => 0
  | Node _ l r _ _ => count l + 1 + count r
  end.

(** In-order traversal of the payloads. *)
Fixpoint inorder (t : node) : list V :=
  match t with
  | nullptr => []
  | Node _ l r _ v => inorder l ++ v :: inorder r
  end.

(** In-order traversal of the nodes as (priority, payload) pairs. *)
Fixpoint nodes (t : node) : list (N * V) :=
  match t with
  | nullptr => []
  | Node p l r _ v => nodes l ++ (p, v) :: nodes r
  end.

(** Invariant C: the cached size of every node is one plus the cached sizes
    of its children. *)
Fixpoint size_inv (t : node) : Prop :=
  match t with
  | nullptr => True
  | Node _ l r s _ => s = (1 + size l + size r)%N /\ size_inv l /\ size_inv r
  end.

(** A child, when it exists, has a priority no larger than [p]. *)
Definition prio_le (child : node) (p : N) : Prop :=
  match child with
  | nullptr => True
  | Node q _ _ _ _ => (q <= p)%N
  end.

(** Invariant A: the heap property on priorities. *)
Fixpoint heap_inv (t : node) : Prop :=
  match t with
  | nullptr => True
  | Node p l r _ _ => prio_le l p /\ prio_le r p /\ heap_inv l /\ heap_inv r
  end.

(** [at_rank t i n]: the node [n] of [t] has exactly [i] nodes before it in
    the in-order traversal of [t]. *)
Inductive at_rank : node -> nat -> node -> Prop :=
| at_rank_here p l r s v :
    at_rank (Node p l r s v) (count l) (Node p l r s v)
| at_rank_left p l r s v i n :
    at_rank l i n -> at_rank (Node p l r s v) i n
| at_rank_right p l r s v i n :
    at_rank r i n -> at_rank (Node p l r s v) (count l + 1 + i) n.

End NodeBase.

End treap_base.

(** ** implicit_treap.hpp *)

Module implicit_treap.

Import treap_base.

Section ImplicitTreap.

Variable T : Type.
Abbreviation node := (treap_node T).

(** An iterator exposes the payload of the node it designates; [end()] has
    none. *)
Definition iterator : Type := option T.

(** Word bound of [size_type]. *)
Definition size_type_modulus : N := 2 ^ 64.

(** Recursive [merge]: the root with the larger priority stays on top. *)
Fixpoint merge (node1 : node) : node -> node :=
  fix merge_into (node2 : node) : node :=
    match node1, node2 with
    | nullptr, _ => node2
    | _, nullptr => node1
    | Node p1 _ r1 _ _, Node p2 l2 _ _ _ =>
        if (p2 <? p1)%N then set_right node1 (merge r1 node2)
        else set_left node2 (merge_into l2)
    end.

(** Recursive [split] by a count of leading elements. *)
Fixpoint split (n : node) (index : N) : node * node :=
  match n with
  | nullptr => (nullptr, n)
  | Node _ l r _ _ =>
      if (index <=? 0)%N then (nullptr, n)
      else if (size n <=? index)%N then (n, nullptr)
      else if (left_size n <? index)%N then
        let right_pair := split r (index - left_size n - 1) in
        (set_right n (fst right_pair), snd right_pair)
      else
        let left_pair := split l index in
        (fst left_pair, set_left n (snd left_pair))
  end.

(** Modelled from the spec: the container "owns exactly one root node
    pointer"; [root()] reads it and [_end.set_left(root)] stores it (the
    accessor and the [_end] member are declared in a base class that is not
    part of the sources).  The container state is that root. *)
Definition insert_node (n : node) (index : N) (root : node) : node :=
  let (left, right) := split root index in
  merge (merge left n) right.

(** Returns the new root and the detached node. *)
Definition detach_node_with_index (index : N) (root : node) : node * node :=
  let (left, included_index) := split root index in
  let (index_node, right) := split included_index 1 in
  (merge left right, index_node).

(** [emplace(index, args...)]; [priority] is the value drawn by
    [construct_node].  Returns the iterator to the new element and the new
    root. *)
Definition emplace (index : N) (priority : N) (value : T) (root : node)
  : iterator * node :=
  let index := if (size root <? index)%N then size root else index in
  let holder := construct_node priority value in
  (Some value, insert_node holder index root).

Definition insert (value : T) (index : N) (priority : N) (root : node)
  : iterator * node :=
  emplace index priority value root.

Definition emplace_back (priority : N) (value : T) (root : node)
  : iterator * node :=
  emplace (size root) priority value root.

Definition push_back (value : T) (priority : N) (root : node)
  : iterator * node :=
  emplace_back priority value root.

Definition emplace_front (priority : N) (value : T) (root : node)
  : iterator * node :=
  emplace 0 priority value root.

Definition push_front (value : T) (priority : N) (root : node)
  : iterator * node :=
  emplace_front priority value root.

(** [destroy_tree] releases the detached node and does not touch the tree. *)
Definition erase (index : N) (root : node) : node :=
  if (size root <=? index)%N then root
  else fst (detach_node_with_index index root).

(** [size() - 1] in [size_type]: wraps to the largest value on an empty
    container. *)
Definition pop_back (root : node) : node :=
  erase ((size root + size_type_modulus - 1) mod size_type_modulus) root.

Definition pop_front (root : node) : node :=
  erase 0 root.

(** The copy constructor walks [other] from [begin()] to [end()], that is
    in in-order, and appends each element with [emplace_back]; [priorities]
    are the successive draws of the generator. *)
Fixpoint emplace_back_all (values : list T) (priorities : list N) (root : node)
  : node :=
  match values, priorities with
  | value :: values', priority :: priorities' =>
      emplace_back_all values' priorities' (snd (emplace_back priority value root))
  | _, _ => root
  end.

Definition copy_construct (other : node) (priorities : list N) : node :=
  emplace_back_all (inorder other) priorities nullptr.

(** [operator[](index)]: [*(begin() + index)]; the sum converts [index] to
    [ptrdiff_t] and back, which leaves it unchanged modulo the word bound. *)
Definition subscript (index : N) (root : node) : result T :=
  result_bind (cbegin root)
    (fun it => result_bind (advance root it (Z.of_N index)) (@dereference T)).

(** The copy constructor as written: the loop over [other] feeds
    [emplace_back]; [this] starts empty.  [None] is an exhausted step
    bound. *)
Definition copy_constructor (fuel : nat) (other : node) (priorities : list N)
  : option (result node) :=
  match for_each fuel other with
  | Some (Ok values) => Some (Ok (emplace_back_all values priorities nullptr))
  | Some (Throw e) => Some (Throw e)
  | Some Undefined => Some Undefined
  | None => None
  end.

End ImplicitTreap.

End implicit_treap.

(** ** treap.hpp *)

Module treap.

Import treap_base.

Section KeyedTreap.

(** [value_type], [key_type], the node's static [get_key(value)] and the
    comparator object [_comparator]. *)
Variable V : Type.
Variable K : Type.
Variable get_key : V -> K.
Variable _comparator : K -> K -> bool.

Abbreviation node := (treap_node V).

(** An iterator exposes the payload of the node it designates; [end()] has
    none. *)
Definition iterator : Type := option V.

Definition make_iterator (n : node) : iterator :=
  match n with
  | nullptr => None
  | Node _ _ _ _ v => Some v
  end.

(** Modelled from the spec: [end_node()] is the "past-the-end sentinel
    (null)"; its declaration is in a base class that is not part of the
    sources. *)
Definition end_node : node := nullptr.

(** First loop of [merge]: walks down both trees, pushing the node that
    stays on top and the outcome of the priority comparison. *)
Equations? merge_descend (node1 node2 : node)
    (nodes : list node) (compares : list bool)
  : node * node * list node * list bool
  by wf (count node1 + count node2) lt :=
  merge_descend nullptr node2 nodes compares :=
    (nullptr, node2, nodes, compares);
  merge_descend node1 nullptr nodes compares :=
    (node1, nullptr, nodes, compares);
  merge_descend (Node p1 l1 r1 s1 v1) (Node p2 l2 r2 s2 v2) nodes compares
    with _comparator (get_key v2) (get_key v1) => {
    | true with (p1 <? p2)%N => {
      | true :=
          merge_descend r2 (Node p1 l1 r1 s1 v1)
            (Node p2 l2 r2 s2 v2 :: nodes) (true :: compares);
      | false :=
          merge_descend (Node p2 l2 r2 s2 v2) l1
            (Node p1 l1 r1 s1 v1 :: nodes) (false :: compares) };
    | false with (p2 <? p1)%N => {
      | true :=
          merge_descend r1 (Node p2 l2 r2 s2 v2)
            (Node p1 l1 r1 s1 v1 :: nodes) (true :: compares);
      | false :=
          merge_descend (Node p1 l1 r1 s1 v1) l2
            (Node p2 l2 r2 s2 v2 :: nodes) (false :: compares) } }.
Proof. all: simpl; lia. Qed.

(** Second loop of [merge]: pops the saved nodes and reattaches the merged
    child on the recorded side. *)
Fixpoint merge_ascend (child : node) (nodes : list node) (compares : list bool)
  : node :=
  match compares, nodes with
  | compare :: compares', parent_node :: nodes' =>
      if compare then merge_ascend (set_right parent_node child) nodes' compares'
      else merge_ascend (set_left parent_node child) nodes' compares'
  | _, _ => child
  end.

Definition merge (node1 node2 : node) : node :=
  match node1, node2 with
  | nullptr, nullptr => nullptr
  | _, _ =>
      let '(node1', node2', nodes, compares) :=
        merge_descend node1 node2 [] [] in
      let child := match node1' with nullptr => node2' | _ => node1' end in
      merge_ascend child nodes compares
  end.

(** The comparison of [split<KeyIncluded>] at the node holding [top]. *)
Definition split_compare (KeyIncluded : bool) (key : K) (top : V) : bool :=
  if KeyIncluded then negb (_comparator key (get_key top))
  else _comparator (get_key top) key.

(** First loop of [split]: [top] is the node on top of [nodes]. *)
Fixpoint split_descend (KeyIncluded : bool) (key : K) (top : node)
    (nodes : list node) (compares : list bool) : list node * list bool :=
  match top with
  | nullptr => (nodes, compares)
  | Node _ l r _ v =>
      let compare := split_compare KeyIncluded key v in
      if compare
      then split_descend KeyIncluded key r (r :: nodes) (compare :: compares)
      else split_descend KeyIncluded key l (l :: nodes) (compare :: compares)
  end.

(** Second loop of [split]: the two topmost entries are the current pair
    [(first, second)], below them the parent to reattach. *)
Fixpoint split_ascend (compares : list bool) (nodes : list node) : list node :=
  match compares with
  | [] => nodes
  | compare :: compares' =>
      match nodes with
      | second :: first :: top :: rest =>
          if compare
          then split_ascend compares' (second :: set_right top first :: rest)
          else split_ascend compares' (set_left top second :: first :: rest)
      | _ => nodes
      end
  end.

Definition split (KeyIncluded : bool) (n : node) (key : K) : node * node :=
  let (nodes, compares) := split_descend KeyIncluded key n [n] [] in
  let nodes := nullptr :: nodes in
  match split_ascend compares nodes with
  | second :: first :: _ => (first, second)
  | _ => (nullptr, nullptr)
  end.

(** *** Queries *)

Fixpoint lower_bound_loop (key : K) (n : node) (result : node) : node :=
  match n with
  | nullptr => result
  | Node _ l r _ v =>
      if _comparator (get_key v) key then lower_bound_loop key r result
      else lower_bound_loop key l n
  end.

Definition lower_bound_node (key : K) (root : node) : node :=
  lower_bound_loop key root end_node.

Fixpoint upper_bound_loop (key : K) (n : node) (result : node) : node :=
  match n with
  | nullptr => result
  | Node _ l r _ v =>
      if _comparator key (get_key v) then upper_bound_loop key l n
      else upper_bound_loop key r result
  end.

Definition upper_bound_node (key : K) (root : node) : node :=
  upper_bound_loop key root end_node.

Fixpoint node_of_key (key : K) (n : node) : node :=
  match n with
  | nullptr => end_node
  | Node _ l r _ v =>
      if _comparator key (get_key v) then node_of_key key l
      else if _comparator (get_key v) key then node_of_key key r
      else n
  end.

Definition contains (key : K) (root : node) : bool :=
  match node_of_key key root with
  | nullptr => false
  | _ => true
  end.

Definition find (key : K) (root : node) : iterator :=
  match lower_bound_node key root with
  | nullptr => None
  | Node _ _ _ _ v as n =>
      if negb (_comparator key (get_key v)) then make_iterator n else None
  end.

Definition lower_bound (key : K) (root : node) : iterator :=
  make_iterator (lower_bound_node key root).

Definition upper_bound (key : K) (root : node) : iterator :=
  make_iterator (upper_bound_node key root).

(** *** Mutators *)

(** Modelled from the spec: the container "owns exactly one root node
    pointer"; [root()] reads it and [set_root] stores it (both are declared in
    a base class that is not part of the sources, as is the cached [_begin]
    pointer, which only serves iteration).  The container state is that
    root. *)
Definition insert_node (n : node) (root : node) : node :=
  match n with
  | nullptr => root
  | Node _ _ _ _ v =>
      let (left, right) := split false root (get_key v) in
      merge (merge left n) right
  end.

(** Returns the new root and the detached interval. *)
Definition detach_node_key_interval (EndIncluded : bool)
    (begin_key end_key : K) (root : node) : node * node :=
  let (left, begin_included_tree) := split false root begin_key in
  let (interval, right) := split EndIncluded begin_included_tree end_key in
  (merge left right, interval).

Definition detach_node_with_key (key : K) (root : node) : node * node :=
  detach_node_key_interval true key key root.

(** [priority] is the value drawn by [construct_node]. *)
Definition emplace_with_key (key : K) (priority : N) (value : V) (root : node)
  : iterator * bool * node :=
  match find key root with
  | Some v => (Some v, false, root)
  | None =>
      let holder := construct_node priority value in
      (Some value, true, insert_node holder root)
  end.

Definition insert (value : V) (priority : N) (root : node)
  : iterator * bool * node :=
  emplace_with_key (get_key value) priority value root.

Definition emplace (priority : N) (value : V) (root : node)
  : iterator * bool * node :=
  let holder := construct_node priority value in
  match find (get_key value) root with
  | Some v => (Some v, false, root)
  | None => (Some value, true, insert_node holder root)
  end.

Definition erase_key_interval (begin_key end_key : K) (root : node)
  : iterator * node :=
  let it := lower_bound end_key root in
  (it, fst (detach_node_key_interval false begin_key end_key root)).

Definition erase_key_interval_with_end (begin_key end_key : K) (root : node)
  : iterator * node :=
  let it := upper_bound end_key root in
  (it, fst (detach_node_key_interval true begin_key end_key root)).

Definition erase_key (key : K) (root : node) : iterator * node :=
  let it := upper_bound key root in
  (it, fst (detach_node_with_key key root)).

(** [insert(InputIterator begin, InputIterator end)] and
    [insert(std::initializer_list)]: one [emplace] for every element of the
    range; [priorities] are the successive draws of the generator. *)
Fixpoint insert_range (values : list V) (priorities : list N) (root : node)
  : node :=
  match values, priorities with
  | value :: values', priority :: priorities' =>
      insert_range values' priorities' (snd (emplace priority value root))
  | _, _ => root
  end.

(** *** Order statistics *)





End KeyedTreap.

End treap.

(** ** treap.h

    [TreapNode<Key>] has the fields of [treap_node] ([key] is the payload) and
    its [setLeft], [setRight], [leftSize], [rightSize] and [update] are those
    of [treap_node_base], so the node type and these operations are shared.
    [Key] is an integer type: [remove] computes [value + 1].  The container
    is taken at [Key = int], 32 bits in two's complement. *)

Module Treap.

Import treap_base.

Definition key_type : Type := Z.

(** The smallest and the largest value of [Key]. *)
Definition key_min : key_type := (- 2 ^ 31)%Z.

Definition key_max : key_type := (2 ^ 31 - 1)%Z.

(** [value + 1] computed in [Key]: at the largest value the sum wraps to the
    smallest. *)
Definition key_succ (value : key_type) : key_type :=
  if (value =? key_max)%Z then key_min else (value + 1)%Z.

Abbreviation TreapNode := (treap_node key_type).

Definition setLeft (n child : TreapNode) : TreapNode := set_left n child.

Definition setRight (n child : TreapNode) : TreapNode := set_right n child.


(** [new TreapNode(key, priority)]. *)
Definition new_TreapNode (key : key_type) (priority : N) : TreapNode :=
  update (Node priority nullptr nullptr 1 key).

(** [TreapNode::copy], called on a node that exists. *)
Fixpoint copy (this : TreapNode) : TreapNode :=
  match this with
  | nullptr => nullptr
  | Node p l r _ k =>
      let root := new_TreapNode k p in
      let root := match l with
                  | nullptr => root
                  | _ => setLeft root (copy l)
                  end in
      match r with
      | nullptr => root
      | _ => setRight root (copy r)
      end
  end.

(** [TreapNode::merge]: orders the two roots by key, then keeps the root
    with the larger priority on top. *)
Equations? merge (node1 node2 : TreapNode) : TreapNode
  by wf (count node1 + count node2) lt :=
  merge nullptr node2 := node2;
  merge node1 nullptr := node1;
  merge (Node p1 l1 r1 s1 k1) (Node p2 l2 r2 s2 k2) with (k2 <? k1)%Z => {
    | true with (p1 <? p2)%N => {
      | true :=
          setRight (Node p2 l2 r2 s2 k2) (merge r2 (Node p1 l1 r1 s1 k1));
      | false :=
          setLeft (Node p1 l1 r1 s1 k1) (merge (Node p2 l2 r2 s2 k2) l1) };
    | false with (p2 <? p1)%N => {
      | true :=
          setRight (Node p1 l1 r1 s1 k1) (merge r1 (Node p2 l2 r2 s2 k2));
      | false :=
          setLeft (Node p2 l2 r2 s2 k2) (merge (Node p1 l1 r1 s1 k1) l2) } }.
Proof. all: simpl; lia. Qed.

(** [TreapNode::split]: keys below [value] go left, the rest right. *)
Fixpoint split (n : TreapNode) (value : key_type) : TreapNode * TreapNode :=
  match n with
  | nullptr => (nullptr, nullptr)
  | Node _ l r _ k =>
      if (k <? value)%Z then
        let pair_right := split r value in
        (setRight n (fst pair_right), snd pair_right)
      else
        let pair_left := split l value in
        (fst pair_left, setLeft n (snd pair_left))
  end.

(** *** The container [Treap<Key>]: its state is [_root]. *)

Fixpoint nodeOfKey (value : key_type) (root : TreapNode) : TreapNode :=
  match root with
  | nullptr => nullptr
  | Node _ l r _ k =>
      if negb (value =? k)%Z then
        if (value <? k)%Z then nodeOfKey value l else nodeOfKey value r
      else root
  end.

Definition contains (value : key_type) (_root : TreapNode) : bool :=
  match nodeOfKey value _root with
  | nullptr => false
  | _ => true
  end.

(** [Treap::insert]; [priority] is the value drawn from [rng]. *)
Definition insert (value : key_type) (priority : N) (_root : TreapNode)
  : TreapNode :=
  if contains value _root then _root
  else
    let my_node := new_TreapNode value priority in
    match _root with
    | nullptr => my_node
    | _ =>
        let p := split _root value in
        merge (snd p) (merge (fst p) my_node)
    end.

(** [Treap::remove].  The result is the root the call leaves in [_root] and
    the exception it exits by, if any.  When the second split finds no node
    the exception leaves [_root] pointing at the old root node, which the two
    splits have turned into the root of the part on its side of [value]; the
    other part is no longer reachable from the container.  Otherwise the
    found node is deleted and [empty()] reads [_root->size()] through
    [_root], which still points at the old root node.  When the key of that
    node is in the range the two splits cut out, it is the deleted node: the
    read is of released storage and the behaviour is undefined.  Else it is
    the root of the part on its side of [value], and the outer parts are
    merged unless [empty()] holds. *)
Definition remove (value : key_type) (_root : TreapNode)
  : result (TreapNode * option exn) :=
  let first_split_pair := split _root value in
  let second_split_pair :=
    split (snd first_split_pair) (key_succ value) in
  let old_root (k : key_type) :=
    if (k <? value)%Z then fst first_split_pair else snd second_split_pair in
  match fst second_split_pair with
  | nullptr =>
      let kept :=
        match _root with
        | nullptr => nullptr
        | Node _ _ _ _ k => old_root k
        end in
      Ok (kept, Some (runtime_error "Element not found"%string))
  | Node _ _ _ _ _ =>
      match _root with
      | nullptr => Ok (nullptr, None)
      | Node _ _ _ _ k =>
          if negb (k <? value)%Z && (k <? key_succ value)%Z then Undefined
          else if (size (old_root k) =? 0)%N then Ok (nullptr, None)
          else Ok (merge (fst first_split_pair) (snd second_split_pair), None)
      end
  end.

(** [Treap::nodeOfOrder] is the loop of [treap_base::node_of_order]. *)
Definition nodeOfOrder (_root : TreapNode) (index : N) : result TreapNode :=
  if (index =? size _root)%N then Ok nullptr
  else if (size _root <? index)%N then Throw out_of_range
  else node_of_order_loop _root (index + 1).

(** [nodeOfOrder(index)->key]: a null result is dereferenced. *)
Definition keyOfOrder (_root : TreapNode) (index : N) : result key_type :=
  match nodeOfOrder _root index with
  | Ok nullptr => Undefined
  | Ok (Node _ _ _ _ k) => Ok k
  | Throw e => Throw e
  | Undefined => Undefined
  end.



(** The copy constructor [_root(other._root->copy())]: [copy] is a member
    call through [other._root], which is null for an empty container; the
    first thing [copy] does is read [key] and [_priority] of its object. *)
Definition copy_construct (other_root : TreapNode) : result TreapNode :=
  match other_root with
  | nullptr => Undefined
  | _ => Ok (copy other_root)
  end.

(** [Treap::maxDepth(node)], an [int]: the sum is reduced to 32 bits, two's
    complement. *)
Definition int_wrap (z : Z) : Z := ((z + 2 ^ 31) mod 2 ^ 32 - 2 ^ 31)%Z.

Fixpoint maxDepth (n : TreapNode) : Z :=
  match n with
  | nullptr => 0%Z
  | Node _ l r _ _ => int_wrap (Z.max (maxDepth r) (maxDepth l) + 1)
  end.

End Treap.

(** * Specification vocabulary

    The predicates and the operation alphabets the properties are stated
    with.  Nothing here is code of the repository except where a definition
    says which loop it unrolls. *)

Unset Implicit Arguments.

Import treap_base.

(** ** Rank queries *)

(** What a rank query must answer on the tree [t] for [index]: the node at
    that in-order position, the null sentinel at [size], an out-of-range
    error beyond. *)
Definition order_query_spec {V : Type} (t : treap_node V) (index : N)
    (answer : result (treap_node V)) : Prop :=
  ((index < size t)%N ->
     exists n, answer = Ok n
               /\ at_rank t (N.to_nat index) n
               /\ (forall n', at_rank t (N.to_nat index) n' -> n' = n)
               /\ nth_error (inorder t) (N.to_nat index)
                  = nth_error (inorder n) (count (get_left n)))
  /\ (index = size t -> answer = Ok nullptr)
  /\ ((size t < index)%N -> answer = Throw out_of_range).

(** ** Merge *)

(** What [merge(A, B)] must return: the nodes of [A] followed by the nodes
    of [B] in the in-order traversal (hence the union of the two node
    multisets), under the heap property and the size invariant. *)
Definition merge_spec {V : Type} (A B M : treap_node V) : Prop :=
  Permutation (nodes M) (nodes A ++ nodes B)
  /\ nodes M = nodes A ++ nodes B
  /\ inorder M = inorder A ++ inorder B
  /\ heap_inv M
  /\ size_inv M.

(** ** The heap property with the tie rule of merge *)

(** A child, when it exists, has a priority strictly below [p]. *)
Definition prio_lt {V : Type} (child : treap_node V) (p : N) : Prop :=
  match child with
  | nullptr => True
  | Node q _ _ _ _ => (q < p)%N
  end.

(** Invariant A as [merge] establishes it: when two roots tie, the root of
    the second argument goes on top, so a left child may tie with its parent
    and a right child is strictly below it. *)
Fixpoint tie_heap {V : Type} (t : treap_node V) : Prop :=
  match t with
  | nullptr => True
  | Node p l r _ _ => prio_le l p /\ prio_lt r p /\ tie_heap l /\ tie_heap r
  end.

(** ** Positional insertion *)

(** The index [emplace] really uses. *)
Definition clamp {T : Type} (index : N) (t : treap_node T) : N :=
  N.min index (size t).

(** ** Key order *)

Section KeyOrder.

Variable V : Type.
Variable K : Type.
Variable get_key : V -> K.
Variable cmp : K -> K -> bool.

(** The comparator on payloads. *)
Definition ltk (x y : V) : Prop := cmp (get_key x) (get_key y) = true.

(** Every element of [a] comes before every element of [b]. *)
Definition precedes (a b : treap_node V) : Prop :=
  forall x y, In x (inorder a) -> In y (inorder b) -> ltk x y.

(** Invariant B of the keyed tree: the in-order traversal is strictly
    increasing under the comparator. *)
Definition bst (t : treap_node V) : Prop := StronglySorted ltk (inorder t).

(** Keys that the comparator does not separate. *)
Definition equiv_key (k1 k2 : K) : Prop :=
  cmp k1 k2 = false /\ cmp k2 k1 = false.

(** The test [lower_bound] searches with: the key of [v] is not below
    [key]. *)
Definition not_below (key : K) (v : V) : bool := negb (cmp (get_key v) key).

(** The recursion that the two loops of [split] unroll: descend on the side
    the comparison selects, reattach the half that stays with the node. *)
Fixpoint split_rec (KeyIncluded : bool) (key : K) (t : treap_node V)
  : treap_node V * treap_node V :=
  match t with
  | nullptr => (nullptr, nullptr)
  | Node _ l r _ v =>
      if treap.split_compare get_key cmp KeyIncluded key v then
        (set_right t (fst (split_rec KeyIncluded key r)),
         snd (split_rec KeyIncluded key r))
      else
        (fst (split_rec KeyIncluded key l),
         set_left t (snd (split_rec KeyIncluded key l)))
  end.

(** What the first loop of [merge] hands to the second. *)
Definition descend_size_inv
    (st : treap_node V * treap_node V * list (treap_node V) * list bool)
  : Prop :=
  let '(node1, node2, ns, _) := st in
  size_inv node1 /\ size_inv node2 /\ Forall (@size_inv V) ns.

(** What the second loop of [merge] makes of the state the first loop
    leaves. *)
Definition merge_finish
    (st : treap_node V * treap_node V * list (treap_node V) * list bool)
  : treap_node V :=
  let '(node1, node2, ns, cs) := st in
  treap.merge_ascend (match node1 with nullptr => node2 | _ => node1 end) ns cs.

(** The mutating operations of [treap]; an inserting operation carries the
    priority its node draws. *)
Inductive keyed_op : Type :=
| op_insert (value : V) (priority : N)
| op_emplace (priority : N) (value : V)
| op_erase_key (key : K)
| op_erase_key_interval (begin_key end_key : K)
| op_erase_key_interval_with_end (begin_key end_key : K).

(** The root after the operation. *)
Definition keyed_apply (op : keyed_op) (t : treap_node V) : treap_node V :=
  match op with
  | op_insert value priority =>
      snd (treap.insert get_key cmp value priority t)
  | op_emplace priority value =>
      snd (treap.emplace get_key cmp priority value t)
  | op_erase_key key =>
      snd (treap.erase_key get_key cmp key t)
  | op_erase_key_interval begin_key end_key =>
      snd (treap.erase_key_interval get_key cmp begin_key end_key t)
  | op_erase_key_interval_with_end begin_key end_key =>
      snd (treap.erase_key_interval_with_end get_key cmp begin_key end_key t)
  end.

(** The state reached from the empty container. *)
Definition keyed_run (ops : list keyed_op) : treap_node V :=
  fold_left (fun t op => keyed_apply op t) ops nullptr.

(** The same operations on the sorted sequence the container stands for:
    an insertion does nothing when the sequence holds an element with an
    equivalent key and otherwise puts the value after the elements with a
    smaller key; an erasure filters. *)
Definition has_equiv (key : K) (l : list V) : bool :=
  existsb (fun x => negb (cmp (get_key x) key) && negb (cmp key (get_key x))) l.

Definition sorted_insert (value : V) (l : list V) : list V :=
  if has_equiv (get_key value) l then l
  else filter (fun x => cmp (get_key x) (get_key value)) l
       ++ value :: filter (fun x => negb (cmp (get_key x) (get_key value))) l.

Definition sorted_apply (op : keyed_op) (l : list V) : list V :=
  match op with
  | op_insert value _ => sorted_insert value l
  | op_emplace _ value => sorted_insert value l
  | op_erase_key key =>
      filter (fun x => cmp (get_key x) key || cmp key (get_key x)) l
  | op_erase_key_interval begin_key end_key =>
      filter (fun x => cmp (get_key x) begin_key
                       || negb (cmp (get_key x) end_key)) l
  | op_erase_key_interval_with_end begin_key end_key =>
      filter (fun x => cmp (get_key x) begin_key
                       || cmp end_key (get_key x)) l
  end.

Definition sorted_run (ops : list keyed_op) : list V :=
  fold_left (fun l op => sorted_apply op l) ops [].

End KeyOrder.

Arguments ltk {V K} get_key cmp x y.
Arguments precedes {V K} get_key cmp a b.
Arguments bst {V K} get_key cmp t.
Arguments equiv_key {K} cmp k1 k2.
Arguments not_below {V K} get_key cmp key v.
Arguments split_rec {V K} get_key cmp KeyIncluded key t.
Arguments descend_size_inv {V} st.
Arguments merge_finish {V} st.
Arguments op_insert {V K} value priority.
Arguments op_emplace {V K} priority value.
Arguments op_erase_key {V K} key.
Arguments op_erase_key_interval {V K} begin_key end_key.
Arguments op_erase_key_interval_with_end {V K} begin_key end_key.
Arguments keyed_apply {V K} get_key cmp op t.
Arguments keyed_run {V K} get_key cmp ops.
Arguments has_equiv {V K} get_key cmp key l.
Arguments sorted_insert {V K} get_key cmp value l.
Arguments sorted_apply {V K} get_key cmp op l.
Arguments sorted_run {V K} get_key cmp ops.

(** ** The other two containers *)

Section ImplicitOps.

Variable T : Type.

(** The mutating operations of [implicit_treap]. *)
Inductive implicit_op : Type :=
| iop_insert (value : T) (index : N) (priority : N)
| iop_push_back (value : T) (priority : N)
| iop_emplace_back (priority : N) (value : T)
| iop_push_front (value : T) (priority : N)
| iop_emplace_front (priority : N) (value : T)
| iop_erase (index : N)
| iop_pop_back
| iop_pop_front.

Definition implicit_apply (op : implicit_op) (t : treap_node T)
  : treap_node T :=
  match op with
  | iop_insert value index priority =>
      snd (implicit_treap.insert value index priority t)
  | iop_push_back value priority =>
      snd (implicit_treap.push_back value priority t)
  | iop_emplace_back priority value =>
      snd (implicit_treap.emplace_back priority value t)
  | iop_push_front value priority =>
      snd (implicit_treap.push_front value priority t)
  | iop_emplace_front priority value =>
      snd (implicit_treap.emplace_front priority value t)
  | iop_erase index => implicit_treap.erase index t
  | iop_pop_back => implicit_treap.pop_back t
  | iop_pop_front => implicit_treap.pop_front t
  end.

Definition implicit_run (ops : list implicit_op) : treap_node T :=
  fold_left (fun t op => implicit_apply op t) ops nullptr.

(** The same operations on the sequence the container stands for. *)
Definition sequence_apply (op : implicit_op) (l : list T) : list T :=
  match op with
  | iop_insert value index _ =>
      let m := Nat.min (N.to_nat index) (length l) in
      firstn m l ++ value :: skipn m l
  | iop_push_back value _ => l ++ [value]
  | iop_emplace_back _ value => l ++ [value]
  | iop_push_front value _ => value :: l
  | iop_emplace_front _ value => value :: l
  | iop_erase index =>
      firstn (N.to_nat index) l ++ skipn (S (N.to_nat index)) l
  | iop_pop_back => removelast l
  | iop_pop_front => tl l
  end.

Definition sequence_run (ops : list implicit_op) : list T :=
  fold_left (fun l op => sequence_apply op l) ops [].

End ImplicitOps.

Arguments iop_insert {T} value index priority.
Arguments iop_push_back {T} value priority.
Arguments iop_emplace_back {T} priority value.
Arguments iop_push_front {T} value priority.
Arguments iop_emplace_front {T} priority value.
Arguments iop_erase {T} index.
Arguments iop_pop_back {T}.
Arguments iop_pop_front {T}.
Arguments implicit_apply {T} op t.
Arguments implicit_run {T} ops.
Arguments sequence_apply {T} op l.
Arguments sequence_run {T} ops.

(** The key of a [TreapNode] is its payload; keys are compared with [<]. *)
Definition zkey (k : Treap.key_type) : Z := k.

(** The mutating operations of [Treap] (treap.h). *)
Inductive legacy_op : Type :=
| lop_insert (value : Z) (priority : N)
| lop_remove (value : Z).

(** The root after the operation, whether it returned or threw; none when
    the behaviour of the operation is undefined. *)
Definition legacy_apply (op : legacy_op) (t : Treap.TreapNode)
  : result Treap.TreapNode :=
  match op with
  | lop_insert value priority => Ok (Treap.insert value priority t)
  | lop_remove value =>
      result_bind (Treap.remove value t) (fun r => Ok (fst r))
  end.

(** The state a run of operations reaches from the empty container; a run
    ends at the first operation whose behaviour is undefined. *)
Definition legacy_run (ops : list legacy_op) : result Treap.TreapNode :=
  fold_left (fun state op => result_bind state (legacy_apply op)) ops
    (Ok nullptr).

(** ** Iterators *)

(** The iterator that designates rank [i] of the tree [t]: the payload at
    that in-order position (none at [size]) and the rank. *)
Definition iterator_at {V : Type} (t : treap_node V) (i : nat)
  : common_iterator V :=
  {| _value := nth_error (inorder t) i; _index := N.of_nat i |}.

(** ** Sample inputs *)

(** A small keyed tree used to instantiate the statements: keys 1, 3, 5, 8
    with priorities 7, 9, 4, 3. *)
Definition sample_tree : treap_node Z :=
  Node 9 (Node 7 nullptr nullptr 1 1%Z)
         (Node 4 nullptr (Node 3 nullptr nullptr 1 8%Z) 2 5%Z) 4 3%Z.

(** A single node with key 0, in front of every key of [sample_tree]. *)
Definition sample_front : treap_node Z := Node 5 nullptr nullptr 1 0%Z.

(** Insert 5, 3, 8, 1, 5 again, then erase the keys in [3, 7). *)
Definition sample_ops : list (keyed_op Z Z) :=
  [op_insert 5%Z 4; op_insert 3%Z 9; op_emplace 3 8%Z; op_insert 1%Z 7;
   op_insert 5%Z 1; op_erase_key_interval 3%Z 7%Z].

(** Insert 5, 3, 8, 1 into a [Treap] of treap.h. *)
Definition sample_legacy_ops : list legacy_op :=
  [lop_insert 5%Z 4; lop_insert 3%Z 9; lop_insert 8%Z 3; lop_insert 1%Z 7].

(** * Properties *)


(** ** The augmented node and the order-statistic descent *)

Section BaseFacts.

Variable V : Type.
Implicit Types t n : treap_node V.

Lemma size_count t : size_inv t -> size t = N.of_nat (count t).
Proof.
  induction t as [|p l IHl r IHr s v]; [reflexivity|].
  intros (Hs & Hl & Hr). cbn [size count]. rewrite Hs, (IHl Hl), (IHr Hr). lia.
Qed.

Lemma inorder_length t : length (inorder t) = count t.
Proof.
  induction t as [|p l IHl r IHr s v]; simpl; [reflexivity|].
  rewrite length_app. simpl. lia.
Qed.

Lemma inorder_nil_null t :
  inorder t = [] -> t = nullptr.
Proof.
  destruct t as [|p l r s v]; [reflexivity|].
  cbn [inorder]. intros H. symmetry in H. now apply app_cons_not_nil in H.
Qed.

Lemma inorder_nodes t : map snd (nodes t) = inorder t.
Proof.
  induction t as [|p l IHl r IHr s v]; simpl; [reflexivity|].
  rewrite map_app. simpl. now rewrite IHl, IHr.
Qed.

Lemma at_rank_bound t i n : at_rank t i n -> i < count t.
Proof. induction 1; simpl; lia. Qed.

Lemma at_rank_not_null t i n : at_rank t i n -> n <> nullptr.
Proof. induction 1; auto; discriminate. Qed.

Lemma at_rank_unique t i n n' : at_rank t i n -> at_rank t i n' -> n = n'.
Proof.
  intros H. revert n'. induction H as [p l r s v|p l r s v i n H IH|p l r s v i n H IH];
    intros n' H'.
  - inversion H' as [| ? ? ? ? ? ? ? Hl | ? ? ? ? ? j ? Hr Hj]; subst.
    + reflexivity.
    + apply at_rank_bound in Hl. lia.
    + lia.
  - inversion H' as [| ? ? ? ? ? ? ? Hl | ? ? ? ? ? j ? Hr Hj]; subst.
    + apply at_rank_bound in H. lia.
    + now apply IH.
    + apply at_rank_bound in H. lia.
  - inversion H' as [Hj | ? ? ? ? ? ? ? Hl | ? ? ? ? ? j ? Hr Hj]; subst.
    + lia.
    + apply at_rank_bound in Hl. lia.
    + assert (j = i) by lia. subst j. now apply IH.
Qed.

Lemma at_rank_nth t i n :
  at_rank t i n -> nth_error (inorder t) i = nth_error (inorder n) (count (get_left n)).
Proof.
  induction 1 as [p l r s v|p l r s v i n H IH|p l r s v i n H IH]; simpl.
  - reflexivity.
  - rewrite nth_error_app1; [exact IH|].
    rewrite inorder_length. now apply at_rank_bound in H.
  - rewrite nth_error_app2 by (rewrite inorder_length; lia).
    rewrite inorder_length.
    replace (count l + 1 + i - count l) with (S i) by lia.
    exact IH.
Qed.

(** The loop returns the node of one-based rank [index]. *)
Lemma node_of_order_loop_rank t (index : N) :
  size_inv t -> (1 <= index <= size t)%N ->
  exists n, node_of_order_loop t index = Ok n
            /\ at_rank t (N.to_nat (index - 1)) n.
Proof.
  revert index.
  induction t as [|p l IHl r IHr s v]; intros index Hinv Hidx.
  - simpl in Hidx. lia.
  - pose proof Hinv as (Hs & Hl & Hr).
    pose proof (size_count l Hl) as Hcl.
    cbn [node_of_order_loop]. unfold left_size. cbn [get_left size] in *.
    destruct (N.eqb_spec index (size l + 1)) as [He|Hne].
    + eexists; split; [reflexivity|].
      replace (N.to_nat (index - 1)) with (count l) by lia.
      constructor.
    + destruct (N.leb_spec index (size l)) as [Hle|Hgt].
      * destruct (IHl index Hl) as (n & Hn & Hr'); [lia|].
        exists n; split; [exact Hn|]. now constructor.
      * destruct (IHr (index - (size l + 1))%N Hr) as (n & Hn & Hr'); [lia|].
        exists n; split; [exact Hn|].
        replace (N.to_nat (index - 1))
          with (count l + 1 + N.to_nat (index - (size l + 1) - 1)) by lia.
        now constructor.
Qed.

Lemma node_of_order_in_range t (index : N) :
  size_inv t -> (index < size t)%N ->
  exists n, node_of_order t index = Ok n /\ at_rank t (N.to_nat index) n.
Proof.
  intros Hinv Hlt. unfold node_of_order.
  destruct (N.eqb_spec index (size t)) as [?|_]; [lia|].
  destruct (N.ltb_spec (size t) index) as [?|_]; [lia|].
  destruct (node_of_order_loop_rank t (index + 1)%N Hinv) as (n & Hn & Hr); [lia|].
  exists n; split; [exact Hn|].
  now replace (index + 1 - 1)%N with index in Hr by lia.
Qed.

End BaseFacts.

Lemma node_of_order_query (V : Type) (t : treap_node V) (index : N) :
  size_inv t -> order_query_spec t index (node_of_order t index).
Proof.
  intros Hinv. repeat split.
  - intros Hlt.
    destruct (node_of_order_in_range V t index Hinv Hlt) as (n & Hn & Hr).
    exists n. repeat split; auto.
    + intros n' Hn'. exact (at_rank_unique V t _ n' n Hn' Hr).
    + now apply at_rank_nth.
  - intros ->. unfold node_of_order. now rewrite N.eqb_refl.
  - intros Hgt. unfold node_of_order.
    destruct (N.eqb_spec index (size t)) as [?|_]; [lia|].
    destruct (N.ltb_spec (size t) index) as [_|?]; [reflexivity|lia].
Qed.

Lemma sample_tree_size_inv : size_inv sample_tree.
Proof. simpl. repeat split. Qed.

(** C4: on a container whose nodes satisfy the size invariant,
    [node_of_order] ([nodeOfOrder] in treap.h) returns the unique node at
    in-order position [index] when [index < size], the null sentinel when
    [index = size], and throws [std::out_of_range] when [index > size]; the
    query is a [const] member, so the container is the same afterwards. *)
Theorem node_of_order_three_cases (V : Type) (t : treap_node V)
    (tz : Treap.TreapNode) (index : N) :
  size_inv t -> size_inv tz ->
  order_query_spec t index (node_of_order t index)
  /\ order_query_spec tz index (Treap.nodeOfOrder tz index).
Proof.
  intros Ht Htz. split.
  - now apply node_of_order_query.
  - change (Treap.nodeOfOrder tz index) with (node_of_order tz index).
    now apply node_of_order_query.
Qed.

Lemma node_of_order_three_cases_witness :
  size_inv sample_tree
  /\ order_query_spec sample_tree 2 (node_of_order sample_tree 2)
  /\ order_query_spec sample_tree 2 (Treap.nodeOfOrder sample_tree 2).
Proof.
  split; [exact sample_tree_size_inv|].
  exact (node_of_order_three_cases Z sample_tree sample_tree 2
           sample_tree_size_inv sample_tree_size_inv).
Defined.

(** C10: under the size invariant and for [index < size], the descent of
    [node_of_order] ([nodeOfOrder]) ends by returning a node; the trailing
    [throw std::runtime_error("Unreachable code")] is not executed. *)
Theorem node_of_order_never_unreachable (V : Type) (t : treap_node V)
    (tz : Treap.TreapNode) (index indexz : N) :
  size_inv t -> (index < size t)%N ->
  size_inv tz -> (indexz < size tz)%N ->
  (exists p l r s v, node_of_order t index = Ok (Node p l r s v))
  /\ node_of_order t index <> Throw (runtime_error "Unreachable code"%string)
  /\ (exists p l r s k, Treap.nodeOfOrder tz indexz = Ok (Node p l r s k))
  /\ Treap.nodeOfOrder tz indexz
     <> Throw (runtime_error "Unreachable code"%string).
Proof.
  intros Ht Hi Htz Hiz.
  change (Treap.nodeOfOrder tz indexz) with (node_of_order tz indexz).
  destruct (node_of_order_in_range V t index Ht Hi) as (n & Hn & Hr).
  destruct (node_of_order_in_range _ tz indexz Htz Hiz) as (nz & Hnz & Hrz).
  rewrite Hn, Hnz.
  apply at_rank_not_null in Hr. apply at_rank_not_null in Hrz.
  destruct n as [|p l r s v]; [contradiction|].
  destruct nz as [|pz lz rz sz kz]; [contradiction|].
  repeat split; try discriminate; repeat eexists.
Qed.

Lemma node_of_order_never_unreachable_witness :
  node_of_order sample_tree 3
  <> Throw (runtime_error "Unreachable code"%string).
Proof.
  refine (proj1 (proj2 (node_of_order_never_unreachable Z sample_tree
                          sample_tree 3 0 sample_tree_size_inv _
                          sample_tree_size_inv _))); reflexivity.
Defined.

(** ** Child replacement *)

(** Unfolds the node operations and the invariants, leaving arithmetic
    alone. *)
Ltac node_simpl :=
  unfold construct_node, set_right, set_left, update, left_size, right_size
    in *;
  cbn [size_inv heap_inv tie_heap size get_left get_right get_priority nodes
       inorder count prio_le prio_lt fst snd] in *.

Section SetChildFacts.

Variable V : Type.
Implicit Types a b l r child : treap_node V.

Lemma nodes_set_right p l r s v child :
  nodes (set_right (Node p l r s v) child) = nodes l ++ (p, v) :: nodes child.
Proof. reflexivity. Qed.

Lemma nodes_set_left p l r s v child :
  nodes (set_left (Node p l r s v) child) = nodes child ++ (p, v) :: nodes r.
Proof. reflexivity. Qed.

Lemma size_inv_set_right p l r s v child :
  size_inv l -> size_inv child -> size_inv (set_right (Node p l r s v) child).
Proof.
  intros Hl Hc. node_simpl. repeat split; auto. lia.
Qed.

Lemma size_inv_set_left p l r s v child :
  size_inv child -> size_inv r -> size_inv (set_left (Node p l r s v) child).
Proof.
  intros Hc Hr. node_simpl. repeat split; auto. lia.
Qed.

Lemma heap_inv_set_right p l r s v child :
  prio_le l p -> heap_inv l -> prio_le child p -> heap_inv child ->
  heap_inv (set_right (Node p l r s v) child).
Proof. cbn. auto. Qed.

Lemma heap_inv_set_left p l r s v child :
  prio_le child p -> heap_inv child -> prio_le r p -> heap_inv r ->
  heap_inv (set_left (Node p l r s v) child).
Proof. cbn. auto. Qed.

Lemma prio_le_trans a (p q : N) : prio_le a p -> (p <= q)%N -> prio_le a q.
Proof. destruct a; simpl; [auto|lia]. Qed.

Lemma size_inv_nodes_size a :
  size_inv a -> size a = N.of_nat (length (nodes a)).
Proof.
  intros H. rewrite (size_count V a H). f_equal.
  rewrite <- (inorder_length V a), <- inorder_nodes. now rewrite length_map.
Qed.

End SetChildFacts.

(** ** The recursive merge (implicit_treap.hpp) *)

Section RecursiveMerge.

Variable T : Type.
Implicit Types a b : treap_node T.

Abbreviation rmerge := (@implicit_treap.merge T).

Lemma rmerge_null_l b : rmerge nullptr b = b.
Proof. destruct b; reflexivity. Qed.

Lemma rmerge_null_r a : rmerge a nullptr = a.
Proof. destruct a; reflexivity. Qed.

Lemma rmerge_node p1 l1 r1 s1 v1 p2 l2 r2 s2 v2 :
  rmerge (Node p1 l1 r1 s1 v1) (Node p2 l2 r2 s2 v2) =
  if (p2 <? p1)%N
  then set_right (Node p1 l1 r1 s1 v1) (rmerge r1 (Node p2 l2 r2 s2 v2))
  else set_left (Node p2 l2 r2 s2 v2) (rmerge (Node p1 l1 r1 s1 v1) l2).
Proof. reflexivity. Qed.

(** Induction along the two spines the merge walks. *)
Lemma rmerge_ind (P : treap_node T -> treap_node T -> treap_node T -> Prop) :
  (forall b, P nullptr b b) ->
  (forall a, P a nullptr a) ->
  (forall p1 l1 r1 s1 v1 p2 l2 r2 s2 v2,
      (p2 < p1)%N ->
      P r1 (Node p2 l2 r2 s2 v2) (rmerge r1 (Node p2 l2 r2 s2 v2)) ->
      P (Node p1 l1 r1 s1 v1) (Node p2 l2 r2 s2 v2)
        (set_right (Node p1 l1 r1 s1 v1) (rmerge r1 (Node p2 l2 r2 s2 v2)))) ->
  (forall p1 l1 r1 s1 v1 p2 l2 r2 s2 v2,
      (p1 <= p2)%N ->
      P (Node p1 l1 r1 s1 v1) l2 (rmerge (Node p1 l1 r1 s1 v1) l2) ->
      P (Node p1 l1 r1 s1 v1) (Node p2 l2 r2 s2 v2)
        (set_left (Node p2 l2 r2 s2 v2) (rmerge (Node p1 l1 r1 s1 v1) l2))) ->
  forall a b, P a b (rmerge a b).
Proof.
  intros Hl Hr Hgt Hle.
  induction a as [|p1 l1 _ r1 IHr1 s1 v1]; intros b.
  - rewrite rmerge_null_l. apply Hl.
  - induction b as [|p2 l2 IHl2 r2 _ s2 v2].
    + apply Hr.
    + rewrite rmerge_node. destruct (N.ltb_spec p2 p1).
      * apply Hgt; auto.
      * apply Hle; auto.
Qed.

Lemma rmerge_nodes a b : nodes (rmerge a b) = nodes a ++ nodes b.
Proof.
  apply (rmerge_ind (fun a b m => nodes m = nodes a ++ nodes b)); clear a b.
  - reflexivity.
  - intros a. now rewrite app_nil_r.
  - intros. rewrite nodes_set_right, H0. cbn [nodes].
    now rewrite <- app_assoc.
  - intros. rewrite nodes_set_left, H0. cbn [nodes].
    now rewrite <- app_assoc.
Qed.

Lemma rmerge_inorder a b : inorder (rmerge a b) = inorder a ++ inorder b.
Proof.
  rewrite <- !inorder_nodes, rmerge_nodes. apply map_app.
Qed.

Lemma rmerge_size_inv a b :
  size_inv a -> size_inv b -> size_inv (rmerge a b).
Proof.
  apply (rmerge_ind (fun a b m => size_inv a -> size_inv b -> size_inv m));
    clear a b; auto.
  - intros * _ IH (_ & Hl1 & Hr1) Hb.
    apply size_inv_set_right; auto.
  - intros * _ IH Ha (_ & Hl2 & Hr2).
    apply size_inv_set_left; auto.
Qed.

Lemma rmerge_prio_le a b q :
  prio_le a q -> prio_le b q -> prio_le (rmerge a b) q.
Proof.
  apply (rmerge_ind (fun a b m => prio_le a q -> prio_le b q -> prio_le m q));
    clear a b; auto.
Qed.

Lemma rmerge_heap_inv a b :
  heap_inv a -> heap_inv b -> heap_inv (rmerge a b).
Proof.
  apply (rmerge_ind (fun a b m => heap_inv a -> heap_inv b -> heap_inv m));
    clear a b; auto.
  - intros * Hlt IH (Hpl & Hpr & Hl1 & Hr1) Hb.
    apply heap_inv_set_right; auto.
    apply rmerge_prio_le; [exact Hpr|]. simpl. lia.
  - intros * Hle IH Ha (Hpl & Hpr & Hl2 & Hr2).
    apply heap_inv_set_left; auto.
    apply rmerge_prio_le; [|exact Hpl]. simpl. lia.
Qed.

End RecursiveMerge.

(** ** The positional split, insert and erase (implicit_treap.hpp) *)

Section ImplicitFacts.

Variable T : Type.
Implicit Types t a b : treap_node T.

Abbreviation isplit := (@implicit_treap.split T).

Lemma nodes_length_size t : size_inv t -> length (nodes t) = N.to_nat (size t).
Proof. intros H. rewrite (size_inv_nodes_size T t H). lia. Qed.

Lemma isplit_node p l r s v (index : N) :
  isplit (Node p l r s v) index =
  if (index <=? 0)%N then (nullptr, Node p l r s v)
  else if (s <=? index)%N then (Node p l r s v, nullptr)
  else if (size l <? index)%N then
    (set_right (Node p l r s v) (fst (isplit r (index - size l - 1))),
     snd (isplit r (index - size l - 1)))
  else
    (fst (isplit l index), set_left (Node p l r s v) (snd (isplit l index))).
Proof. reflexivity. Qed.

Lemma isplit_nodes t (index : N) :
  size_inv t ->
  nodes (fst (isplit t index)) = firstn (N.to_nat index) (nodes t)
  /\ nodes (snd (isplit t index)) = skipn (N.to_nat index) (nodes t).
Proof.
  revert index.
  induction t as [|p l IHl r IHr s v]; intros index Hinv.
  - cbn. now rewrite firstn_nil, skipn_nil.
  - pose proof (nodes_length_size _ Hinv) as Hlen.
    pose proof Hinv as (Hs & Hl & Hr).
    pose proof (nodes_length_size _ Hl) as Hlenl.
    rewrite isplit_node.
    destruct (N.leb_spec index 0) as [H0|H0].
    { replace (N.to_nat index) with 0 by lia. split; reflexivity. }
    destruct (N.leb_spec s index) as [Hs'|Hs'].
    { cbn [fst snd size] in *. rewrite firstn_all2, skipn_all2 by lia.
      split; reflexivity. }
    cbn [nodes]. rewrite firstn_app, skipn_app, Hlenl.
    destruct (N.ltb_spec (size l) index) as [Hlt|Hge]; cbn [fst snd].
    + destruct (IHr (index - size l - 1)%N Hr) as (Hf & Hk).
      rewrite nodes_set_right, Hf, Hk.
      rewrite (@firstn_all2 _ (N.to_nat index) (nodes l)),
        (@skipn_all2 _ (N.to_nat index) (nodes l)) by lia.
      replace (N.to_nat index - N.to_nat (size l))
        with (S (N.to_nat (index - size l - 1))) by lia.
      split; reflexivity.
    + destruct (IHl index Hl) as (Hf & Hk).
      rewrite nodes_set_left, Hf, Hk.
      replace (N.to_nat index - N.to_nat (size l)) with 0 by lia.
      cbn [firstn skipn]. rewrite app_nil_r. split; reflexivity.
Qed.

Lemma isplit_size_inv t (index : N) :
  size_inv t ->
  size_inv (fst (isplit t index)) /\ size_inv (snd (isplit t index)).
Proof.
  revert index.
  induction t as [|p l IHl r IHr s v]; intros index Hinv.
  - cbn. auto.
  - pose proof Hinv as (Hs & Hl & Hr). rewrite isplit_node.
    destruct (index <=? 0)%N; [cbn [fst snd]; simpl; auto|].
    destruct (s <=? index)%N; [cbn [fst snd]; simpl; auto|].
    destruct (size l <? index)%N; cbn [fst snd].
    + destruct (IHr (index - size l - 1)%N Hr). split; auto.
      now apply size_inv_set_right.
    + destruct (IHl index Hl). split; auto.
      now apply size_inv_set_left.
Qed.

Lemma isplit_heap_inv t (index : N) :
  heap_inv t ->
  heap_inv (fst (isplit t index)) /\ heap_inv (snd (isplit t index))
  /\ forall q, prio_le t q ->
       prio_le (fst (isplit t index)) q /\ prio_le (snd (isplit t index)) q.
Proof.
  revert index.
  induction t as [|p l IHl r IHr s v]; intros index Hinv.
  - cbn. auto.
  - pose proof Hinv as (Hpl & Hpr & Hl & Hr). rewrite isplit_node.
    destruct (index <=? 0)%N; [cbn [fst snd]; simpl; auto|].
    destruct (s <=? index)%N; [cbn [fst snd]; simpl; auto|].
    destruct (size l <? index)%N; cbn [fst snd].
    + destruct (IHr (index - size l - 1)%N Hr) as (Hf & Hk & Hq).
      destruct (Hq p Hpr) as (Hqf & Hqk).
      split; [now apply heap_inv_set_right|]. split; [assumption|].
      intros q Hpq. split; [exact Hpq|].
      eapply prio_le_trans; [exact Hqk|exact Hpq].
    + destruct (IHl index Hl) as (Hf & Hk & Hq).
      destruct (Hq p Hpl) as (Hqf & Hqk).
      split; [assumption|]. split; [now apply heap_inv_set_left|].
      intros q Hpq. split; [|exact Hpq].
      eapply prio_le_trans; [exact Hqf|exact Hpq].
Qed.

Lemma construct_node_nodes (priority : N) (value : T) :
  nodes (construct_node priority value) = [(priority, value)].
Proof. reflexivity. Qed.

Lemma construct_node_size_inv (priority : N) (value : T) :
  size_inv (construct_node priority value).
Proof. cbn. auto. Qed.

Lemma construct_node_heap_inv (priority : N) (value : T) :
  heap_inv (construct_node priority value).
Proof. cbn. auto. Qed.

Lemma insert_node_nodes t (priority : N) (value : T) (index : N) :
  size_inv t ->
  nodes (implicit_treap.insert_node (construct_node priority value) index t)
  = firstn (N.to_nat index) (nodes t)
    ++ (priority, value) :: skipn (N.to_nat index) (nodes t).
Proof.
  intros Hinv. unfold implicit_treap.insert_node.
  destruct (isplit_nodes t index Hinv) as (Hf & Hk).
  destruct (isplit t index) as [left right]. cbn [fst snd] in *.
  rewrite !rmerge_nodes, Hf, Hk, construct_node_nodes, <- app_assoc.
  reflexivity.
Qed.

Lemma insert_node_size_inv t n (index : N) :
  size_inv t -> size_inv n ->
  size_inv (implicit_treap.insert_node n index t).
Proof.
  intros Hinv Hn. unfold implicit_treap.insert_node.
  destruct (isplit_size_inv t index Hinv) as (Hf & Hk).
  destruct (isplit t index) as [left right]. cbn [fst snd] in *.
  auto using rmerge_size_inv.
Qed.

Lemma insert_node_heap_inv t n (index : N) :
  heap_inv t -> heap_inv n ->
  heap_inv (implicit_treap.insert_node n index t).
Proof.
  intros Hinv Hn. unfold implicit_treap.insert_node.
  destruct (isplit_heap_inv t index Hinv) as (Hf & Hk & _).
  destruct (isplit t index) as [left right]. cbn [fst snd] in *.
  auto using rmerge_heap_inv.
Qed.

Lemma emplace_nodes t (index priority : N) (value : T) :
  size_inv t ->
  nodes (snd (implicit_treap.emplace index priority value t))
  = firstn (N.to_nat (clamp index t)) (nodes t)
    ++ (priority, value) :: skipn (N.to_nat (clamp index t)) (nodes t).
Proof.
  intros Hinv. unfold implicit_treap.emplace, clamp. cbn [snd].
  rewrite insert_node_nodes by assumption.
  destruct (N.ltb_spec (size t) index).
  - now rewrite N.min_r by lia.
  - now rewrite N.min_l by lia.
Qed.

Lemma emplace_inorder t (index priority : N) (value : T) :
  size_inv t ->
  inorder (snd (implicit_treap.emplace index priority value t))
  = firstn (N.to_nat (clamp index t)) (inorder t)
    ++ value :: skipn (N.to_nat (clamp index t)) (inorder t).
Proof.
  intros Hinv. rewrite <- !inorder_nodes, emplace_nodes by assumption.
  rewrite map_app. cbn [map snd]. now rewrite firstn_map, skipn_map.
Qed.

Lemma emplace_size_inv t (index priority : N) (value : T) :
  size_inv t -> size_inv (snd (implicit_treap.emplace index priority value t)).
Proof.
  intros Hinv. unfold implicit_treap.emplace. cbn [snd].
  apply insert_node_size_inv; [assumption|apply construct_node_size_inv].
Qed.

Lemma emplace_heap_inv t (index priority : N) (value : T) :
  heap_inv t -> heap_inv (snd (implicit_treap.emplace index priority value t)).
Proof.
  intros Hinv. unfold implicit_treap.emplace. cbn [snd].
  apply insert_node_heap_inv; [assumption|apply construct_node_heap_inv].
Qed.

Lemma detach_node_with_index_nodes t (index : N) :
  size_inv t ->
  nodes (fst (implicit_treap.detach_node_with_index index t))
  = firstn (N.to_nat index) (nodes t) ++ skipn (S (N.to_nat index)) (nodes t).
Proof.
  intros Hinv. unfold implicit_treap.detach_node_with_index.
  destruct (isplit_nodes t index Hinv) as (Hf & Hk).
  destruct (isplit_size_inv t index Hinv) as (_ & Hinv2).
  destruct (isplit t index) as [left included_index]. cbn [fst snd] in *.
  destruct (isplit_nodes included_index 1 Hinv2) as (_ & Hk2).
  destruct (isplit included_index 1) as [index_node right]. cbn [fst snd] in *.
  rewrite rmerge_nodes, Hf, Hk2, Hk, skipn_skipn. reflexivity.
Qed.

Lemma detach_node_with_index_size_inv t (index : N) :
  size_inv t ->
  size_inv (fst (implicit_treap.detach_node_with_index index t)).
Proof.
  intros Hinv. unfold implicit_treap.detach_node_with_index.
  destruct (isplit_size_inv t index Hinv) as (Hinv1 & Hinv2).
  destruct (isplit t index) as [left included_index]. cbn [fst snd] in *.
  destruct (isplit_size_inv included_index 1 Hinv2) as (_ & Hinv3).
  destruct (isplit included_index 1) as [index_node right]. cbn [fst snd] in *.
  auto using rmerge_size_inv.
Qed.

Lemma erase_size_inv t (index : N) :
  size_inv t -> size_inv (implicit_treap.erase index t).
Proof.
  intros Hinv. unfold implicit_treap.erase.
  destruct (size t <=? index)%N; [assumption|].
  now apply detach_node_with_index_size_inv.
Qed.

Lemma erase_inorder t (index : N) :
  size_inv t -> (index < size t)%N ->
  inorder (implicit_treap.erase index t)
  = firstn (N.to_nat index) (inorder t) ++ skipn (S (N.to_nat index)) (inorder t).
Proof.
  intros Hinv Hlt. unfold implicit_treap.erase.
  destruct (N.leb_spec (size t) index); [lia|].
  rewrite <- !inorder_nodes, detach_node_with_index_nodes by assumption.
  now rewrite map_app, firstn_map, skipn_map.
Qed.

Lemma erase_out_of_range t (index : N) :
  (size t <= index)%N -> implicit_treap.erase index t = t.
Proof.
  intros Hge. unfold implicit_treap.erase.
  destruct (N.leb_spec (size t) index); [reflexivity|lia].
Qed.

End ImplicitFacts.

(** Inserting [x] at position [m] of a list: what each position holds
    afterwards. *)
Lemma list_insert_positions (A : Type) (l : list A) (x : A) (m : nat) :
  m <= length l ->
  (forall i, i < m ->
     nth_error (firstn m l ++ x :: skipn m l) i = nth_error l i)
  /\ nth_error (firstn m l ++ x :: skipn m l) m = Some x
  /\ (forall i, m <= i ->
        nth_error (firstn m l ++ x :: skipn m l) (S i) = nth_error l i).
Proof.
  intros Hm.
  assert (Hlen : length (firstn m l) = m) by now apply firstn_length_le.
  repeat split.
  - intros i Hi. rewrite nth_error_app1 by lia.
    rewrite nth_error_firstn.
    destruct (Nat.ltb_spec i m); [reflexivity|lia].
  - rewrite nth_error_app2 by lia. rewrite Hlen, Nat.sub_diag. reflexivity.
  - intros i Hi. rewrite nth_error_app2 by lia. rewrite Hlen.
    replace (S i - m) with (S (i - m)) by lia. cbn [nth_error].
    rewrite nth_error_skipn. f_equal. lia.
Qed.

(** C8: [insert(value, index)] of the implicit treap clamps [index] to
    [size] and puts the new element at position [min(index, size)]; the
    elements before keep their positions, the elements from that position on
    move one place right, in the same order.  With any drawn priorities,
    [push_back(10)], [push_back(20)], [insert(15, 1)] give [10, 15, 20] and
    [erase(0)] then gives [15, 20]. *)
Theorem implicit_insert_at_clamped_index (T : Type) (t : treap_node T)
    (value : T) (index priority : N) :
  size_inv t ->
  let m := N.to_nat (N.min index (size t)) in
  let t' := snd (implicit_treap.insert value index priority t) in
  m <= length (inorder t)
  /\ inorder t' = firstn m (inorder t) ++ value :: skipn m (inorder t)
  /\ (forall i, i < m -> nth_error (inorder t') i = nth_error (inorder t) i)
  /\ nth_error (inorder t') m = Some value
  /\ (forall i, m <= i ->
        nth_error (inorder t') (S i) = nth_error (inorder t) i)
  /\ (forall p1 p2 p3 : N,
        let s1 := snd (implicit_treap.push_back 10%Z p1 nullptr) in
        let s2 := snd (implicit_treap.push_back 20%Z p2 s1) in
        let s3 := snd (implicit_treap.insert 15%Z 1 p3 s2) in
        inorder s3 = [10%Z; 15%Z; 20%Z]
        /\ inorder (implicit_treap.erase 0 s3) = [15%Z; 20%Z]).
Proof.
  intros Hinv m t'.
  assert (Hm : m <= length (inorder t)).
  { subst m. rewrite inorder_length, (size_count T t Hinv). lia. }
  assert (Ht' : inorder t' = firstn m (inorder t) ++ value :: skipn m (inorder t)).
  { subst t' m. unfold implicit_treap.insert.
    now rewrite emplace_inorder. }
  destruct (list_insert_positions T (inorder t) value m Hm) as (Hb & Ha & Hs).
  rewrite Ht'.
  split; [exact Hm|]. split; [reflexivity|]. split; [exact Hb|].
  split; [exact Ha|]. split; [exact Hs|].
  intros p1 p2 p3 s1 s2 s3.
  assert (H1 : size_inv s1) by (apply emplace_size_inv; exact I).
  assert (H2 : size_inv s2) by (apply emplace_size_inv; exact H1).
  assert (H3 : size_inv s3) by (apply emplace_size_inv; exact H2).
  assert (E1 : inorder s1 = [10%Z]) by reflexivity.
  assert (E2 : inorder s2 = [10%Z; 20%Z]).
  { subst s2. unfold implicit_treap.push_back, implicit_treap.emplace_back.
    rewrite emplace_inorder by exact H1. unfold clamp.
    rewrite N.min_id, E1. reflexivity. }
  assert (S2 : size s2 = 2%N).
  { rewrite (size_count Z s2 H2), <- inorder_length, E2. reflexivity. }
  assert (E3 : inorder s3 = [10%Z; 15%Z; 20%Z]).
  { subst s3. unfold implicit_treap.insert.
    rewrite emplace_inorder by exact H2. unfold clamp.
    rewrite S2, E2. reflexivity. }
  assert (S3 : size s3 = 3%N).
  { rewrite (size_count Z s3 H3), <- inorder_length, E3. reflexivity. }
  split; [exact E3|].
  rewrite erase_inorder by (auto; lia). rewrite E3. reflexivity.
Qed.

Lemma implicit_insert_at_clamped_index_witness :
  size_inv sample_tree
  /\ inorder (snd (implicit_treap.insert 4%Z 9 2 sample_tree))
     = [1%Z; 3%Z; 5%Z; 8%Z; 4%Z].
Proof.
  split; [exact sample_tree_size_inv|].
  exact (proj1 (proj2 (implicit_insert_at_clamped_index Z sample_tree 4%Z 9 2
                         sample_tree_size_inv))).
Defined.

(** ** The key-ordered treap (treap.hpp): the loops of split and merge *)

Section KeyedLoops.

Variable V : Type.
Variable K : Type.
Variable get_key : V -> K.
Variable cmp : K -> K -> bool.

Implicit Types t a b n child : treap_node V.

Abbreviation ksplit := (treap.split get_key cmp).
Abbreviation kmerge := (treap.merge get_key cmp).
Abbreviation split_cmp := (treap.split_compare get_key cmp).

Lemma split_loops_unroll (KeyIncluded : bool) (key : K) t :
  forall (ns : list (treap_node V)) (cs : list bool),
    treap.split_ascend cs
      (snd (split_rec get_key cmp KeyIncluded key t)
         :: fst (split_rec get_key cmp KeyIncluded key t) :: ns)
    = treap.split_ascend
        (snd (treap.split_descend get_key cmp KeyIncluded key t (t :: ns) cs))
        (nullptr
           :: fst (treap.split_descend get_key cmp KeyIncluded key t (t :: ns) cs)).
Proof.
  induction t as [|p l IHl r IHr s v]; intros ns cs.
  - reflexivity.
  - cbn [treap.split_descend split_rec].
    destruct (split_cmp KeyIncluded key v) eqn:Hc; cbn [fst snd].
    + rewrite <- IHr. reflexivity.
    + rewrite <- IHl. reflexivity.
Qed.

Lemma ksplit_rec (KeyIncluded : bool) (key : K) t :
  ksplit KeyIncluded t key = split_rec get_key cmp KeyIncluded key t.
Proof.
  unfold treap.split.
  pose proof (split_loops_unroll KeyIncluded key t [] []) as H.
  destruct (treap.split_descend get_key cmp KeyIncluded key t [t] [])
    as [nodes compares].
  cbn [fst snd] in H. rewrite <- H. cbn [treap.split_ascend].
  now destruct (split_rec get_key cmp KeyIncluded key t).
Qed.

Lemma split_rec_nodes (KeyIncluded : bool) (key : K) t :
  nodes (fst (split_rec get_key cmp KeyIncluded key t))
    ++ nodes (snd (split_rec get_key cmp KeyIncluded key t)) = nodes t.
Proof.
  induction t as [|p l IHl r IHr s v]; [reflexivity|].
  cbn [split_rec]. destruct (split_cmp KeyIncluded key v); cbn [fst snd].
  - rewrite nodes_set_right, <- app_assoc. cbn [app nodes].
    now rewrite IHr.
  - rewrite nodes_set_left, app_assoc. cbn [nodes].
    now rewrite IHl.
Qed.

Lemma split_rec_size_inv (KeyIncluded : bool) (key : K) t :
  size_inv t ->
  size_inv (fst (split_rec get_key cmp KeyIncluded key t))
  /\ size_inv (snd (split_rec get_key cmp KeyIncluded key t)).
Proof.
  induction t as [|p l IHl r IHr s v]; [cbn; auto|].
  intros (_ & Hl & Hr). cbn [split_rec].
  destruct (split_cmp KeyIncluded key v); cbn [fst snd].
  - destruct (IHr Hr). split; [now apply size_inv_set_right|assumption].
  - destruct (IHl Hl). split; [assumption|now apply size_inv_set_left].
Qed.

Lemma split_rec_heap_inv (KeyIncluded : bool) (key : K) t :
  heap_inv t ->
  heap_inv (fst (split_rec get_key cmp KeyIncluded key t))
  /\ heap_inv (snd (split_rec get_key cmp KeyIncluded key t))
  /\ forall q, prio_le t q ->
       prio_le (fst (split_rec get_key cmp KeyIncluded key t)) q
       /\ prio_le (snd (split_rec get_key cmp KeyIncluded key t)) q.
Proof.
  induction t as [|p l IHl r IHr s v]; [cbn; auto|].
  intros (Hpl & Hpr & Hl & Hr). cbn [split_rec].
  destruct (split_cmp KeyIncluded key v); cbn [fst snd].
  - destruct (IHr Hr) as (Hf & Hk & Hq). destruct (Hq p Hpr) as (Hqf & Hqk).
    split; [now apply heap_inv_set_right|]. split; [assumption|].
    intros q Hpq. split; [exact Hpq|].
    eapply prio_le_trans; [exact Hqk|exact Hpq].
  - destruct (IHl Hl) as (Hf & Hk & Hq). destruct (Hq p Hpl) as (Hqf & Hqk).
    split; [assumption|]. split; [now apply heap_inv_set_left|].
    intros q Hpq. split; [|exact Hpq].
    eapply prio_le_trans; [exact Hqf|exact Hpq].
Qed.

(** *** The loops of [merge] keep the size invariant, whatever the keys *)

Lemma size_inv_set_right_any n child :
  size_inv n -> size_inv child -> size_inv (set_right n child).
Proof.
  destruct n as [|p l r s v]; [auto|].
  intros (_ & Hl & _) Hc. now apply size_inv_set_right.
Qed.

Lemma size_inv_set_left_any n child :
  size_inv n -> size_inv child -> size_inv (set_left n child).
Proof.
  destruct n as [|p l r s v]; [auto|].
  intros (_ & _ & Hr) Hc. now apply size_inv_set_left.
Qed.

Lemma merge_ascend_size_inv (compares : list bool) :
  forall child (ns : list (treap_node V)),
    size_inv child -> Forall (@size_inv V) ns ->
    size_inv (treap.merge_ascend child ns compares).
Proof.
  induction compares as [|c cs IH]; intros child ns Hc Hns.
  - destruct ns; exact Hc.
  - destruct ns as [|parent ns']; [exact Hc|].
    inversion Hns as [|? ? Hp Hns']; subst. cbn [treap.merge_ascend].
    destruct c; apply IH; auto using size_inv_set_right_any,
      size_inv_set_left_any.
Qed.

Lemma merge_descend_size_inv a b (ns : list (treap_node V)) (cs : list bool) :
  size_inv a -> size_inv b -> Forall (@size_inv V) ns ->
  descend_size_inv (treap.merge_descend get_key cmp a b ns cs).
Proof.
  funelim (treap.merge_descend get_key cmp a b ns cs);
    intros Ha Hb Hns; try (cbn; auto; fail).
  all: match goal with
       | IH : _ -> _ -> _ -> descend_size_inv _ |- _ => apply IH
       end; try constructor; node_simpl; tauto.
Qed.

Lemma kmerge_size_inv a b :
  size_inv a -> size_inv b -> size_inv (kmerge a b).
Proof.
  intros Ha Hb. unfold treap.merge.
  pose proof (merge_descend_size_inv a b [] [] Ha Hb (Forall_nil _)) as H.
  destruct (treap.merge_descend get_key cmp a b [] [])
    as [[[node1 node2] nodes] compares].
  destruct H as (H1 & H2 & Hns).
  destruct a, b; try exact I;
    apply merge_ascend_size_inv; auto; destruct node1; auto.
Qed.

End KeyedLoops.

(** ** Sorted lists *)

Section SortedLists.

Variable A : Type.
Variable R : A -> A -> Prop.

Lemma sorted_app (l1 l2 : list A) :
  StronglySorted R (l1 ++ l2) <->
  StronglySorted R l1 /\ StronglySorted R l2
  /\ (forall x y, In x l1 -> In y l2 -> R x y).
Proof.
  induction l1 as [|a l1 IH]; cbn [app].
  - split; [intros H; repeat split; [constructor|exact H|intros ? ? []]|tauto].
  - split.
    + intros H. apply StronglySorted_inv in H as (Hs & Hf).
      apply IH in Hs as (H1 & H2 & H12).
      apply Forall_app in Hf as (Hf1 & Hf2).
      repeat split; [constructor; assumption|assumption|].
      intros x y [<-|Hx] Hy; [|now apply H12].
      rewrite Forall_forall in Hf2. now apply Hf2.
    + intros (H1 & H2 & H12).
      apply StronglySorted_inv in H1 as (Hs & Hf).
      constructor.
      * apply IH. repeat split; [assumption|assumption|].
        intros x y Hx Hy. apply H12; [now right|assumption].
      * apply Forall_app. split; [assumption|].
        apply Forall_forall. intros y Hy. apply H12; [now left|assumption].
Qed.

Lemma sorted_cons_iff (a : A) (l : list A) :
  StronglySorted R (a :: l) <->
  StronglySorted R l /\ (forall y, In y l -> R a y).
Proof.
  rewrite <- Forall_forall. split.
  - apply StronglySorted_inv.
  - intros (Hs & Hf). now constructor.
Qed.

Lemma sorted_nth (l : list A) :
  StronglySorted R l ->
  forall i j x y, i < j -> nth_error l i = Some x -> nth_error l j = Some y ->
                  R x y.
Proof.
  induction 1 as [|a l Hs IH Hf]; intros i j x y Hij Hi Hj.
  - destruct i; discriminate.
  - destruct j as [|j]; [lia|]. cbn [nth_error] in Hj.
    destruct i as [|i]; cbn [nth_error] in Hi.
    + injection Hi as <-. rewrite Forall_forall in Hf.
      apply Hf. eapply nth_error_In; eassumption.
    + apply (IH i j); [lia|assumption|assumption].
Qed.

(** In a sorted list [find] returns the first element that satisfies the
    test: every other one that does comes later. *)
Lemma sorted_find_first (f : A -> bool) (l : list A) (w : A) :
  StronglySorted R l -> find f l = Some w ->
  forall x, In x l -> f x = true -> x = w \/ R w x.
Proof.
  induction 1 as [|a l Hs IH Hf]; intros Hw x Hx Hfx; [contradiction|].
  cbn [find] in Hw. rewrite Forall_forall in Hf.
  destruct (f a) eqn:Hfa.
  - injection Hw as <-. destruct Hx as [->|Hx]; [now left|right; auto].
  - destruct Hx as [->|Hx]; [congruence|]. now apply IH.
Qed.

Lemma find_app_split (f : A -> bool) (l1 l2 : list A) :
  find f (l1 ++ l2) =
  match find f l1 with
  | Some x => Some x
  | None => find f l2
  end.
Proof.
  induction l1 as [|a l1 IH]; cbn [app find]; [reflexivity|].
  now destruct (f a).
Qed.

End SortedLists.

(** ** The key-ordered treap: merge and split on ordered trees *)

Section KeyedOrder.

Variable V : Type.
Variable K : Type.
Variable get_key : V -> K.
Variable cmp : K -> K -> bool.

Implicit Types t a b n : treap_node V.

(** Inside this section the vocabulary is taken at the section's key
    extraction and comparator. *)
Local Abbreviation ltk := (ltk get_key cmp).
Local Abbreviation precedes := (precedes get_key cmp).
Local Abbreviation bst := (bst get_key cmp).
Local Abbreviation equiv_key := (equiv_key cmp).
Local Abbreviation not_below := (not_below get_key cmp).

Lemma merge_descend_node p1 l1 r1 s1 v1 p2 l2 r2 s2 v2
    (ns : list (treap_node V)) (cs : list bool) :
  treap.merge_descend get_key cmp (Node p1 l1 r1 s1 v1) (Node p2 l2 r2 s2 v2)
    ns cs =
  if cmp (get_key v2) (get_key v1) then
    if (p1 <? p2)%N
    then treap.merge_descend get_key cmp r2 (Node p1 l1 r1 s1 v1)
           (Node p2 l2 r2 s2 v2 :: ns) (true :: cs)
    else treap.merge_descend get_key cmp (Node p2 l2 r2 s2 v2) l1
           (Node p1 l1 r1 s1 v1 :: ns) (false :: cs)
  else
    if (p2 <? p1)%N
    then treap.merge_descend get_key cmp r1 (Node p2 l2 r2 s2 v2)
           (Node p1 l1 r1 s1 v1 :: ns) (true :: cs)
    else treap.merge_descend get_key cmp (Node p1 l1 r1 s1 v1) l2
           (Node p2 l2 r2 s2 v2 :: ns) (false :: cs).
Proof.
  rewrite treap.merge_descend_equation_3.
  destruct (cmp (get_key v2) (get_key v1)); cbn.
  - destruct (p1 <? p2)%N; reflexivity.
  - destruct (p2 <? p1)%N; reflexivity.
Qed.

Lemma kmerge_finish a b :
  treap.merge get_key cmp a b
  = merge_finish (treap.merge_descend get_key cmp a b [] []).
Proof.
  unfold treap.merge, merge_finish.
  destruct a, b; try reflexivity.
Qed.

Section StrictOrder.

Hypothesis cmp_irrefl : forall x, cmp x x = false.
Hypothesis cmp_trans :
  forall x y z, cmp x y = true -> cmp y z = true -> cmp x z = true.

Lemma cmp_asym x y : cmp x y = true -> cmp y x = false.
Proof.
  intros Hxy. destruct (cmp y x) eqn:Hyx; [|reflexivity].
  rewrite <- (cmp_irrefl x). symmetry. now apply cmp_trans with y.
Qed.

(** On ordered arguments the loops of [merge] never swap and compute the
    recursive merge. *)
Lemma merge_descend_ordered a :
  forall b (ns : list (treap_node V)) (cs : list bool),
    precedes a b ->
    merge_finish (treap.merge_descend get_key cmp a b ns cs)
    = treap.merge_ascend (implicit_treap.merge a b) ns cs.
Proof.
  induction a as [|p1 l1 _ r1 IHr1 s1 v1]; intros b ns cs Hab.
  - rewrite treap.merge_descend_equation_1, rmerge_null_l.
    now destruct b.
  - revert ns cs. induction b as [|p2 l2 IHl2 r2 _ s2 v2]; intros ns cs.
    + rewrite treap.merge_descend_equation_2. reflexivity.
    + rewrite merge_descend_node, rmerge_node.
      assert (Hc : cmp (get_key v2) (get_key v1) = false).
      { apply cmp_asym. apply Hab; cbn [inorder]; apply in_elt. }
      rewrite Hc. destruct (p2 <? p1)%N.
      * rewrite IHr1; [reflexivity|].
        intros x y Hx Hy. apply Hab; [|exact Hy].
        cbn [inorder]. apply in_or_app. right. now right.
      * rewrite IHl2; [reflexivity|].
        intros x y Hx Hy. apply Hab; [exact Hx|].
        cbn [inorder]. apply in_or_app. now left.
Qed.

Lemma kmerge_ordered a b :
  precedes a b -> treap.merge get_key cmp a b = implicit_treap.merge a b.
Proof.
  intros Hab. rewrite kmerge_finish, merge_descend_ordered by assumption.
  reflexivity.
Qed.

Lemma ltk_trans x y z : ltk x y -> ltk y z -> ltk x z.
Proof. unfold ltk. apply cmp_trans. Qed.

Lemma inorder_set_right p (l r : treap_node V) s v child :
  inorder (set_right (Node p l r s v) child) = inorder l ++ v :: inorder child.
Proof. reflexivity. Qed.

Lemma inorder_set_left p (l r : treap_node V) s v child :
  inorder (set_left (Node p l r s v) child) = inorder child ++ v :: inorder r.
Proof. reflexivity. Qed.

Lemma split_rec_inorder (KeyIncluded : bool) (key : K) t :
  inorder (fst (split_rec get_key cmp KeyIncluded key t))
    ++ inorder (snd (split_rec get_key cmp KeyIncluded key t)) = inorder t.
Proof.
  rewrite <- !inorder_nodes, <- map_app. f_equal. apply split_rec_nodes.
Qed.

Lemma bst_node p (l r : treap_node V) s v :
  bst (Node p l r s v) <->
  bst l /\ bst r
  /\ (forall x, In x (inorder l) -> ltk x v)
  /\ (forall y, In y (inorder r) -> ltk v y).
Proof.
  unfold bst. cbn [inorder]. rewrite sorted_app, sorted_cons_iff. split.
  - intros (Hl & (Hr & Hvr) & Hlr). repeat split; auto.
    intros x Hx. apply Hlr; [exact Hx|now left].
  - intros (Hl & Hr & Hlv & Hvr). repeat split; auto.
    intros x y Hx [<-|Hy]; [now apply Hlv|].
    apply ltk_trans with v; auto.
Qed.

(** The comparison of [split] is downward closed along the order. *)
Lemma split_compare_mono (KeyIncluded : bool) (key : K) x y :
  ltk x y ->
  treap.split_compare get_key cmp KeyIncluded key y = true ->
  treap.split_compare get_key cmp KeyIncluded key x = true.
Proof.
  unfold treap.split_compare, ltk. intros Hxy.
  destruct KeyIncluded.
  - rewrite !negb_true_iff. intros Hy.
    destruct (cmp key (get_key x)) eqn:Hx; [|reflexivity].
    rewrite <- Hy. symmetry. now apply cmp_trans with (get_key x).
  - intros Hy. now apply cmp_trans with (get_key y).
Qed.

Lemma split_rec_partition (KeyIncluded : bool) (key : K) t :
  bst t ->
  (forall x, In x (inorder (fst (split_rec get_key cmp KeyIncluded key t))) ->
             treap.split_compare get_key cmp KeyIncluded key x = true)
  /\ (forall y, In y (inorder (snd (split_rec get_key cmp KeyIncluded key t))) ->
                treap.split_compare get_key cmp KeyIncluded key y = false).
Proof.
  induction t as [|p l IHl r IHr s v]; [cbn; split; intros ? []|].
  intros Hb. apply bst_node in Hb as (Hl & Hr & Hlv & Hvr).
  cbn [split_rec].
  destruct (treap.split_compare get_key cmp KeyIncluded key v) eqn:Hc;
    cbn [fst snd].
  - destruct (IHr Hr) as (Hf & Hk). split; [|exact Hk].
    intros x. rewrite inorder_set_right, in_app_iff. cbn [In].
    intros [Hx|[<-|Hx]]; [|exact Hc|now apply Hf].
    apply split_compare_mono with v; auto.
  - destruct (IHl Hl) as (Hf & Hk). split; [exact Hf|].
    intros y. rewrite inorder_set_left, in_app_iff. cbn [In].
    intros [Hy|[<-|Hy]]; [now apply Hk|exact Hc|].
    destruct (treap.split_compare get_key cmp KeyIncluded key y) eqn:Hy';
      [|reflexivity].
    rewrite <- Hc. symmetry. apply split_compare_mono with y; auto.
Qed.

(** *** Lookup *)

Lemma find_all_false (f : V -> bool) (l : list V) :
  (forall x, In x l -> f x = false) -> find f l = None.
Proof.
  induction l as [|a l IH]; intros H; [reflexivity|].
  cbn [find]. rewrite (H a) by now left.
  apply IH. intros x Hx. apply H. now right.
Qed.

Lemma lower_bound_loop_find (key : K) n :
  forall res, bst n ->
    treap.make_iterator (treap.lower_bound_loop get_key cmp key n res)
    = match find (not_below key) (inorder n) with
      | Some w => Some w
      | None => treap.make_iterator res
      end.
Proof.
  induction n as [|p l IHl r IHr s v]; intros res Hb; [reflexivity|].
  apply bst_node in Hb as (Hl & Hr & Hlv & Hvr).
  cbn [treap.lower_bound_loop inorder]. rewrite find_app_split. cbn [find].
  unfold not_below at 2. destruct (cmp (get_key v) key) eqn:Hc; cbn [negb].
  - rewrite (find_all_false (not_below key) (inorder l)).
    + now apply IHr.
    + intros x Hx. unfold not_below. apply negb_false_iff.
      apply cmp_trans with (get_key v); [now apply Hlv|exact Hc].
  - rewrite (IHl _ Hl).
    now destruct (find (not_below key) (inorder l)).
Qed.

Lemma find_lower_bound (key : K) t :
  treap.find get_key cmp key t
  = match treap.make_iterator (treap.lower_bound_node get_key cmp key t) with
    | Some v => if negb (cmp key (get_key v)) then Some v else None
    | None => None
    end.
Proof.
  unfold treap.find.
  destruct (treap.lower_bound_node get_key cmp key t); reflexivity.
Qed.

Lemma find_first_not_below (key : K) t :
  bst t ->
  treap.find get_key cmp key t
  = match find (not_below key) (inorder t) with
    | Some v => if negb (cmp key (get_key v)) then Some v else None
    | None => None
    end.
Proof.
  intros Hb. rewrite find_lower_bound. unfold treap.lower_bound_node.
  rewrite lower_bound_loop_find by assumption.
  now destruct (find (not_below key) (inorder t)).
Qed.

Lemma find_some_sound (key : K) t (w : V) :
  bst t -> treap.find get_key cmp key t = Some w ->
  In w (inorder t) /\ equiv_key key (get_key w).
Proof.
  intros Hb. rewrite find_first_not_below by assumption.
  destruct (find (not_below key) (inorder t)) as [v|] eqn:Hf; [|discriminate].
  apply find_some in Hf as (Hin & Hnb).
  destruct (cmp key (get_key v)) eqn:Hc; cbn [negb]; [discriminate|].
  intros [= <-]. split; [exact Hin|]. split; [exact Hc|].
  unfold not_below in Hnb. now apply negb_true_iff in Hnb.
Qed.

Lemma find_none_separates (key : K) t :
  bst t -> treap.find get_key cmp key t = None ->
  forall x, In x (inorder t) ->
            cmp (get_key x) key = true \/ cmp key (get_key x) = true.
Proof.
  intros Hb. rewrite find_first_not_below by assumption.
  destruct (find (not_below key) (inorder t)) as [v|] eqn:Hf.
  - destruct (cmp key (get_key v)) eqn:Hc; cbn [negb]; [|discriminate].
    intros _ x Hx.
    destruct (cmp (get_key x) key) eqn:Hxk; [now left|right].
    destruct (sorted_find_first V ltk (not_below key) (inorder t) v Hb Hf x Hx)
      as [->|Hvx]; [|exact Hc|].
    + unfold not_below. now rewrite Hxk.
    + apply cmp_trans with (get_key v); [exact Hc|exact Hvx].
  - intros _ x Hx. left.
    pose proof (find_none _ _ Hf x Hx) as Hnb.
    unfold not_below in Hnb. now apply negb_false_iff in Hnb.
Qed.

Lemma find_present (key : K) t (x : V) :
  bst t -> In x (inorder t) -> equiv_key (get_key x) key ->
  exists w, treap.find get_key cmp key t = Some w
            /\ In w (inorder t) /\ equiv_key key (get_key w).
Proof.
  intros Hb Hx (Hxk & Hkx).
  destruct (treap.find get_key cmp key t) as [w|] eqn:Hf.
  - exists w. split; [reflexivity|]. now apply find_some_sound.
  - destruct (find_none_separates key t Hb Hf x Hx); congruence.
Qed.

(** *** Insertion and interval removal keep the order *)

Lemma precedes_singleton_r t (p : N) (value : V) :
  (forall x, In x (inorder t) -> ltk x value) ->
  precedes t (Node p nullptr nullptr 1 value).
Proof. intros H x y Hx [<-|[]]. now apply H. Qed.

Lemma insert_node_ordered (p : N) (value : V) t :
  bst t -> treap.find get_key cmp (get_key value) t = None ->
  exists L R,
    nodes t = L ++ R
    /\ nodes (treap.insert_node get_key cmp (construct_node p value) t)
       = L ++ (p, value) :: R
    /\ bst (treap.insert_node get_key cmp (construct_node p value) t).
Proof.
  intros Hb Hf.
  change (construct_node p value) with (Node p nullptr nullptr 1 value).
  cbn [treap.insert_node]. rewrite ksplit_rec.
  pose proof (split_rec_nodes V K get_key cmp false (get_key value) t) as Hn.
  pose proof (split_rec_inorder false (get_key value) t) as Hi.
  destruct (split_rec_partition false (get_key value) t Hb) as (Hlt & Hge).
  destruct (split_rec get_key cmp false (get_key value) t) as [left right].
  cbn [fst snd] in *. unfold treap.split_compare in Hlt, Hge.
  assert (Hsorted : StronglySorted ltk (inorder left ++ inorder right)).
  { rewrite Hi. exact Hb. }
  apply sorted_app in Hsorted as (Hsl & Hsr & Hlr).
  assert (Hright : forall y, In y (inorder right) -> ltk value y).
  { intros y Hy.
    destruct (find_none_separates (get_key value) t Hb Hf y) as [Hc|Hc].
    - rewrite <- Hi. apply in_or_app. now right.
    - rewrite (Hge y Hy) in Hc. discriminate.
    - exact Hc. }
  assert (H1 : precedes left (Node p nullptr nullptr 1 value)).
  { apply precedes_singleton_r. exact Hlt. }
  rewrite (kmerge_ordered left _ H1).
  assert (H2 : precedes (implicit_treap.merge left
                           (Node p nullptr nullptr 1 value)) right).
  { intros x y. rewrite rmerge_inorder, in_app_iff. cbn [inorder app In].
    intros [Hx|[<-|[]]] Hy; [now apply Hlr|now apply Hright]. }
  rewrite (kmerge_ordered _ right H2).
  exists (nodes left), (nodes right).
  split; [now symmetry|]. split.
  - rewrite !rmerge_nodes, <- app_assoc. reflexivity.
  - unfold bst. rewrite !rmerge_inorder, <- app_assoc. cbn [inorder app].
    apply sorted_app. split; [exact Hsl|]. split.
    + apply sorted_cons_iff. split; assumption.
    + intros x y Hx [<-|Hy]; [now apply Hlt|now apply Hlr].
Qed.

Lemma detach_node_key_interval_ordered (EndIncluded : bool)
    (begin_key end_key : K) t :
  bst t ->
  let res := treap.detach_node_key_interval get_key cmp EndIncluded
               begin_key end_key t in
  exists L R,
    nodes t = L ++ nodes (snd res) ++ R
    /\ nodes (fst res) = L ++ R
    /\ bst (fst res)
    /\ (forall x, In x (inorder (snd res)) ->
          cmp (get_key x) begin_key = false
          /\ treap.split_compare get_key cmp EndIncluded end_key x = true).
Proof.
  intros Hb res. subst res. unfold treap.detach_node_key_interval.
  rewrite ksplit_rec.
  pose proof (split_rec_nodes V K get_key cmp false begin_key t) as Hn.
  pose proof (split_rec_inorder false begin_key t) as Hi.
  destruct (split_rec_partition false begin_key t Hb) as (_ & Hge).
  destruct (split_rec get_key cmp false begin_key t)
    as [left begin_included_tree].
  cbn [fst snd] in *. unfold treap.split_compare in Hge.
  assert (Hsorted : StronglySorted ltk
                      (inorder left ++ inorder begin_included_tree)).
  { rewrite Hi. exact Hb. }
  apply sorted_app in Hsorted as (Hsl & Hsb & Hlb).
  rewrite ksplit_rec.
  pose proof (split_rec_nodes V K get_key cmp EndIncluded end_key
                begin_included_tree) as Hn2.
  pose proof (split_rec_inorder EndIncluded end_key begin_included_tree) as Hi2.
  destruct (split_rec_partition EndIncluded end_key begin_included_tree Hsb)
    as (Hin & _).
  destruct (split_rec get_key cmp EndIncluded end_key begin_included_tree)
    as [interval right].
  cbn [fst snd] in *.
  assert (Hsorted : StronglySorted ltk (inorder interval ++ inorder right)).
  { rewrite Hi2. exact Hsb. }
  apply sorted_app in Hsorted as (_ & Hsr & _).
  assert (H1 : precedes left right).
  { intros x y Hx Hy. apply Hlb; [exact Hx|].
    rewrite <- Hi2. apply in_or_app. now right. }
  rewrite (kmerge_ordered left right H1).
  exists (nodes left), (nodes right).
  split; [now rewrite Hn2, Hn|]. split; [apply rmerge_nodes|]. split.
  - unfold bst. rewrite rmerge_inorder. apply sorted_app. auto.
  - intros x Hx. split; [|now apply Hin].
    apply Hge. rewrite <- Hi2. apply in_or_app. now left.
Qed.

(** On an ordered tree the insertion and the interval removal are the
    recursive split followed by recursive merges. *)
Lemma insert_node_rec (p : N) (value : V) t :
  bst t -> treap.find get_key cmp (get_key value) t = None ->
  treap.insert_node get_key cmp (construct_node p value) t
  = implicit_treap.merge
      (implicit_treap.merge
         (fst (split_rec get_key cmp false (get_key value) t))
         (construct_node p value))
      (snd (split_rec get_key cmp false (get_key value) t)).
Proof.
  intros Hb Hf.
  change (construct_node p value) with (Node p nullptr nullptr 1 value).
  cbn [treap.insert_node]. rewrite ksplit_rec.
  pose proof (split_rec_inorder false (get_key value) t) as Hi.
  destruct (split_rec_partition false (get_key value) t Hb) as (Hlt & Hge).
  destruct (split_rec get_key cmp false (get_key value) t) as [left right].
  cbn [fst snd] in *. unfold treap.split_compare in Hlt, Hge.
  assert (Hsorted : StronglySorted ltk (inorder left ++ inorder right)).
  { rewrite Hi. exact Hb. }
  apply sorted_app in Hsorted as (_ & _ & Hlr).
  assert (H1 : precedes left (Node p nullptr nullptr 1 value)).
  { apply precedes_singleton_r. exact Hlt. }
  rewrite (kmerge_ordered left _ H1).
  assert (H2 : precedes (implicit_treap.merge left
                           (Node p nullptr nullptr 1 value)) right).
  { intros x y. rewrite rmerge_inorder, in_app_iff. cbn [inorder app In].
    intros [Hx|[<-|[]]] Hy; [now apply Hlr|].
    destruct (find_none_separates (get_key value) t Hb Hf y) as [Hc|Hc].
    - rewrite <- Hi. apply in_or_app. now right.
    - rewrite (Hge y Hy) in Hc. discriminate.
    - exact Hc. }
  now rewrite (kmerge_ordered _ right H2).
Qed.

Lemma detach_node_key_interval_rec (EndIncluded : bool)
    (begin_key end_key : K) t :
  bst t ->
  treap.detach_node_key_interval get_key cmp EndIncluded begin_key end_key t
  = (implicit_treap.merge
       (fst (split_rec get_key cmp false begin_key t))
       (snd (split_rec get_key cmp EndIncluded end_key
               (snd (split_rec get_key cmp false begin_key t)))),
     fst (split_rec get_key cmp EndIncluded end_key
            (snd (split_rec get_key cmp false begin_key t)))).
Proof.
  intros Hb. unfold treap.detach_node_key_interval. rewrite ksplit_rec.
  pose proof (split_rec_inorder false begin_key t) as Hi.
  destruct (split_rec get_key cmp false begin_key t)
    as [left begin_included_tree].
  cbn [fst snd] in *.
  assert (Hsorted : StronglySorted ltk
                      (inorder left ++ inorder begin_included_tree)).
  { rewrite Hi. exact Hb. }
  apply sorted_app in Hsorted as (_ & _ & Hlb).
  rewrite ksplit_rec.
  pose proof (split_rec_inorder EndIncluded end_key begin_included_tree) as Hi2.
  destruct (split_rec get_key cmp EndIncluded end_key begin_included_tree)
    as [interval right].
  cbn [fst snd] in *.
  assert (H1 : precedes left right).
  { intros x y Hx Hy. apply Hlb; [exact Hx|].
    rewrite <- Hi2. apply in_or_app. now right. }
  now rewrite (kmerge_ordered left right H1).
Qed.

End StrictOrder.

End KeyedOrder.

(** ** treap.h: [TreapNode::split] and [TreapNode::merge] *)

Section LegacyNode.

Implicit Types t a b : Treap.TreapNode.

Lemma Zltb_irrefl (x : Z) : (x <? x)%Z = false.
Proof. apply Z.ltb_irrefl. Qed.

Lemma Zltb_trans (x y z : Z) :
  (x <? y)%Z = true -> (y <? z)%Z = true -> (x <? z)%Z = true.
Proof. rewrite !Z.ltb_lt. lia. Qed.

(** [TreapNode::split] is the recursion that the loops of treap.hpp unroll,
    taken at the comparator [<] with the pivot excluded from the left. *)
Lemma legacy_split_rec t (value : Z) :
  Treap.split t value = split_rec zkey Z.ltb false value t.
Proof.
  induction t as [|p l IHl r IHr s k]; [reflexivity|].
  cbn [Treap.split split_rec]. unfold treap.split_compare, zkey at 1.
  destruct (k <? value)%Z.
  - now rewrite IHr.
  - now rewrite IHl.
Qed.

Lemma legacy_merge_node p1 l1 r1 s1 k1 p2 l2 r2 s2 k2 :
  Treap.merge (Node p1 l1 r1 s1 k1) (Node p2 l2 r2 s2 k2) =
  if (k2 <? k1)%Z then
    if (p1 <? p2)%N
    then set_right (Node p2 l2 r2 s2 k2) (Treap.merge r2 (Node p1 l1 r1 s1 k1))
    else set_left (Node p1 l1 r1 s1 k1) (Treap.merge (Node p2 l2 r2 s2 k2) l1)
  else
    if (p2 <? p1)%N
    then set_right (Node p1 l1 r1 s1 k1) (Treap.merge r1 (Node p2 l2 r2 s2 k2))
    else set_left (Node p2 l2 r2 s2 k2) (Treap.merge (Node p1 l1 r1 s1 k1) l2).
Proof.
  rewrite Treap.merge_equation_3.
  destruct (k2 <? k1)%Z; cbn.
  - destruct (p1 <? p2)%N; reflexivity.
  - destruct (p2 <? p1)%N; reflexivity.
Qed.

(** The loops of treap.hpp's [merge], at the comparator [<], compute
    [TreapNode::merge]. *)
Lemma legacy_merge_loops a b :
  forall (ns : list Treap.TreapNode) (cs : list bool),
    merge_finish (treap.merge_descend zkey Z.ltb a b ns cs)
    = treap.merge_ascend (Treap.merge a b) ns cs.
Proof.
  funelim (Treap.merge a b); intros ns cs.
  1: { rewrite treap.merge_descend_equation_1. now destruct node2. }
  1: { rewrite treap.merge_descend_equation_2. reflexivity. }
  all: rewrite merge_descend_node; unfold zkey at 1 2;
    rewrite Heq0, Heq, H; reflexivity.
Qed.

Lemma legacy_merge_kmerge a b :
  Treap.merge a b = treap.merge zkey Z.ltb a b.
Proof.
  rewrite kmerge_finish, legacy_merge_loops. reflexivity.
Qed.

Lemma legacy_merge_size_inv a b :
  size_inv a -> size_inv b -> size_inv (Treap.merge a b).
Proof. rewrite legacy_merge_kmerge. apply kmerge_size_inv. Qed.

Lemma legacy_merge_ordered a b :
  precedes zkey Z.ltb a b -> Treap.merge a b = implicit_treap.merge a b.
Proof.
  intros Hab. rewrite legacy_merge_kmerge.
  exact (kmerge_ordered _ _ zkey Z.ltb Zltb_irrefl Zltb_trans a b Hab).
Qed.

End LegacyNode.

(** ** Merge *)

Lemma rmerge_spec (V : Type) (A B : treap_node V) :
  heap_inv A -> size_inv A -> heap_inv B -> size_inv B ->
  merge_spec A B (implicit_treap.merge A B).
Proof.
  intros HhA HsA HhB HsB. unfold merge_spec.
  rewrite rmerge_nodes, rmerge_inorder.
  repeat split; auto using rmerge_heap_inv, rmerge_size_inv.
Qed.

Lemma sample_tree_heap_inv : heap_inv sample_tree.
Proof. simpl. repeat split; lia. Qed.

Lemma sample_front_precedes : precedes zkey Z.ltb sample_front sample_tree.
Proof.
  intros x y [<-|[]] Hy. simpl in Hy.
  unfold ltk, zkey. apply Z.ltb_lt.
  repeat (destruct Hy as [<-|Hy]; [lia|]). contradiction.
Qed.

(** C1: when [A] and [B] satisfy the heap property and the size invariant
    and every element of [A] precedes every element of [B] (in key order for
    the two keyed treaps, by position for the implicit one), [merge(A, B)]
    returns a tree whose nodes are those of [A] and [B] together, whose
    in-order traversal is that of [A] followed by that of [B], and which
    satisfies the heap property again. *)
Theorem merge_ordered_trees (V K : Type) (get_key : V -> K)
    (cmp : K -> K -> bool) (A B Ai Bi : treap_node V)
    (Az Bz : Treap.TreapNode) :
  (forall x, cmp x x = false) ->
  (forall x y z, cmp x y = true -> cmp y z = true -> cmp x z = true) ->
  heap_inv A -> size_inv A -> heap_inv B -> size_inv B ->
  precedes get_key cmp A B ->
  heap_inv Ai -> size_inv Ai -> heap_inv Bi -> size_inv Bi ->
  heap_inv Az -> size_inv Az -> heap_inv Bz -> size_inv Bz ->
  precedes zkey Z.ltb Az Bz ->
  merge_spec A B (treap.merge get_key cmp A B)
  /\ merge_spec Ai Bi (implicit_treap.merge Ai Bi)
  /\ merge_spec Az Bz (Treap.merge Az Bz).
Proof.
  intros Hirr Htr HhA HsA HhB HsB HAB HhAi HsAi HhBi HsBi
    HhAz HsAz HhBz HsBz HABz.
  rewrite (kmerge_ordered V K get_key cmp Hirr Htr A B HAB).
  rewrite (legacy_merge_ordered Az Bz HABz).
  repeat split; apply rmerge_spec; assumption.
Qed.

Lemma merge_ordered_trees_witness :
  merge_spec sample_front sample_tree
    (treap.merge zkey Z.ltb sample_front sample_tree)
  /\ merge_spec sample_front sample_tree
       (implicit_treap.merge sample_front sample_tree)
  /\ merge_spec sample_front sample_tree
       (Treap.merge sample_front sample_tree).
Proof.
  assert (Hh : heap_inv sample_front) by (simpl; auto).
  assert (Hs : size_inv sample_front) by (simpl; auto).
  exact (merge_ordered_trees Z Z zkey Z.ltb sample_front sample_tree
           sample_front sample_tree sample_front sample_tree
           Zltb_irrefl Zltb_trans
           Hh Hs sample_tree_heap_inv sample_tree_size_inv
           sample_front_precedes
           Hh Hs sample_tree_heap_inv sample_tree_size_inv
           Hh Hs sample_tree_heap_inv sample_tree_size_inv
           sample_front_precedes).
Defined.

(** ** The key-ordered container: public operations *)

Section KeyedContainer.

Variable V : Type.
Variable K : Type.
Variable get_key : V -> K.
Variable cmp : K -> K -> bool.

Implicit Types t : treap_node V.

Lemma emplace_insert (priority : N) (value : V) t :
  treap.emplace get_key cmp priority value t
  = treap.insert get_key cmp value priority t.
Proof. reflexivity. Qed.

(** *** Size invariant *)

Lemma keyed_insert_node_size_inv n t :
  size_inv n -> size_inv t -> size_inv (treap.insert_node get_key cmp n t).
Proof.
  intros Hn Ht. destruct n as [|p l r s v]; [exact Ht|].
  cbn [treap.insert_node]. rewrite ksplit_rec.
  destruct (split_rec_size_inv V K get_key cmp false (get_key v) t Ht).
  destruct (split_rec get_key cmp false (get_key v) t) as [left right].
  cbn [fst snd] in *. auto using kmerge_size_inv.
Qed.

Lemma keyed_insert_size_inv (value : V) (priority : N) t :
  size_inv t -> size_inv (snd (treap.insert get_key cmp value priority t)).
Proof.
  intros Ht. unfold treap.insert, treap.emplace_with_key.
  destruct (treap.find get_key cmp (get_key value) t); cbn [snd]; [exact Ht|].
  apply keyed_insert_node_size_inv; [apply construct_node_size_inv|exact Ht].
Qed.

Lemma keyed_detach_size_inv (EndIncluded : bool) (begin_key end_key : K) t :
  size_inv t ->
  size_inv (fst (treap.detach_node_key_interval get_key cmp EndIncluded
                   begin_key end_key t)).
Proof.
  intros Ht. unfold treap.detach_node_key_interval. rewrite ksplit_rec.
  destruct (split_rec_size_inv V K get_key cmp false begin_key t Ht)
    as (Hl & Hb).
  destruct (split_rec get_key cmp false begin_key t)
    as [left begin_included_tree].
  cbn [fst snd] in *. rewrite ksplit_rec.
  destruct (split_rec_size_inv V K get_key cmp EndIncluded end_key
              begin_included_tree Hb) as (_ & Hr).
  destruct (split_rec get_key cmp EndIncluded end_key begin_included_tree)
    as [interval right].
  cbn [fst snd] in *. now apply kmerge_size_inv.
Qed.

Lemma keyed_apply_size_inv (op : keyed_op V K) t :
  size_inv t -> size_inv (keyed_apply get_key cmp op t).
Proof.
  intros Ht. destruct op; cbn [keyed_apply].
  - now apply keyed_insert_size_inv.
  - rewrite emplace_insert. now apply keyed_insert_size_inv.
  - now apply keyed_detach_size_inv.
  - now apply keyed_detach_size_inv.
  - now apply keyed_detach_size_inv.
Qed.

Lemma fold_left_invariant (A S : Type) (step : S -> A -> S) (P : S -> Prop) :
  (forall s a, P s -> P (step s a)) ->
  forall (l : list A) (s : S), P s -> P (fold_left step l s).
Proof.
  intros Hstep. induction l as [|a l IH]; intros s Hs; [exact Hs|].
  cbn [fold_left]. apply IH. now apply Hstep.
Qed.

Lemma keyed_run_size_inv (ops : list (keyed_op V K)) : size_inv (keyed_run get_key cmp ops).
Proof.
  unfold keyed_run.
  apply (fold_left_invariant _ _ (fun t op => keyed_apply get_key cmp op t) (@size_inv V)).
  - intros s a. apply keyed_apply_size_inv.
  - exact I.
Qed.

(** *** Order invariant *)

Section StrictOrder.

Hypothesis cmp_irrefl : forall x, cmp x x = false.
Hypothesis cmp_trans :
  forall x y z, cmp x y = true -> cmp y z = true -> cmp x z = true.

Lemma keyed_insert_bst (value : V) (priority : N) t :
  bst get_key cmp t ->
  bst get_key cmp (snd (treap.insert get_key cmp value priority t)).
Proof.
  intros Hb. unfold treap.insert, treap.emplace_with_key.
  destruct (treap.find get_key cmp (get_key value) t) eqn:Hf; cbn [snd];
    [exact Hb|].
  destruct (insert_node_ordered V K get_key cmp cmp_irrefl cmp_trans
              priority value t Hb Hf) as (L & R & _ & _ & H).
  exact H.
Qed.

Lemma keyed_detach_bst (EndIncluded : bool) (begin_key end_key : K) t :
  bst get_key cmp t ->
  bst get_key cmp
    (fst (treap.detach_node_key_interval get_key cmp EndIncluded
            begin_key end_key t)).
Proof.
  intros Hb.
  destruct (detach_node_key_interval_ordered V K get_key cmp cmp_irrefl
              cmp_trans EndIncluded begin_key end_key t Hb)
    as (L & R & _ & _ & H & _).
  exact H.
Qed.

Lemma keyed_apply_bst (op : keyed_op V K) t :
  bst get_key cmp t -> bst get_key cmp (keyed_apply get_key cmp op t).
Proof.
  intros Hb. destruct op; cbn [keyed_apply].
  - now apply keyed_insert_bst.
  - rewrite emplace_insert. now apply keyed_insert_bst.
  - now apply keyed_detach_bst.
  - now apply keyed_detach_bst.
  - now apply keyed_detach_bst.
Qed.

Lemma keyed_run_bst (ops : list (keyed_op V K)) : bst get_key cmp (keyed_run get_key cmp ops).
Proof.
  unfold keyed_run.
  apply (fold_left_invariant _ _ (fun t op => keyed_apply get_key cmp op t)
           (bst get_key cmp)).
  - intros s a. apply keyed_apply_bst.
  - constructor.
Qed.

End StrictOrder.

End KeyedContainer.

(** C2: in every state of the key-ordered treap reached from the empty
    container by public operations (insert, emplace, erase_key,
    erase_key_interval with either end convention), the in-order traversal is
    strictly increasing under the comparator, so no two nodes present at the
    same time have equivalent keys. *)
Theorem keyed_inorder_strictly_increasing (V K : Type) (get_key : V -> K)
    (cmp : K -> K -> bool) (ops : list (keyed_op V K)) :
  (forall x, cmp x x = false) ->
  (forall x y z, cmp x y = true -> cmp y z = true -> cmp x z = true) ->
  let l := inorder (keyed_run get_key cmp ops) in
  StronglySorted (ltk get_key cmp) l
  /\ Sorted (ltk get_key cmp) l
  /\ (forall i j x y, i < j -> nth_error l i = Some x ->
        nth_error l j = Some y -> cmp (get_key x) (get_key y) = true)
  /\ (forall i j x y, i <> j -> nth_error l i = Some x ->
        nth_error l j = Some y ->
        ~ equiv_key cmp (get_key x) (get_key y)).
Proof.
  intros Hirr Htr l.
  assert (Hs : StronglySorted (ltk get_key cmp) l)
    by exact (keyed_run_bst V K get_key cmp Hirr Htr ops).
  assert (Hlt : forall i j x y, i < j -> nth_error l i = Some x ->
                  nth_error l j = Some y -> cmp (get_key x) (get_key y) = true)
    by exact (sorted_nth V (ltk get_key cmp) l Hs).
  split; [exact Hs|]. split; [now apply StronglySorted_Sorted|].
  split; [exact Hlt|].
  intros i j x y Hij Hi Hj (Hxy & Hyx).
  destruct (Nat.lt_total i j) as [H|[H|H]]; [|contradiction|].
  - rewrite (Hlt i j x y H Hi Hj) in Hxy. discriminate.
  - rewrite (Hlt j i y x H Hj Hi) in Hyx. discriminate.
Qed.

Lemma keyed_inorder_strictly_increasing_witness :
  StronglySorted (ltk zkey Z.ltb) (inorder (keyed_run zkey Z.ltb sample_ops)).
Proof.
  exact (proj1 (keyed_inorder_strictly_increasing Z Z zkey Z.ltb sample_ops
                  Zltb_irrefl Zltb_trans)).
Defined.

(** ** Split followed by merge gives the tree back *)

Section TieHeap.

Variable V : Type.
Implicit Types t a b : treap_node V.

Lemma prio_lt_le a (p : N) : prio_lt a p -> prio_le a p.
Proof. destruct a; simpl; [auto|lia]. Qed.

Lemma prio_le_lt_trans a (p q : N) : prio_le a p -> (p < q)%N -> prio_lt a q.
Proof. destruct a; simpl; [auto|lia]. Qed.

Lemma prio_lt_le_trans a (p q : N) : prio_lt a p -> (p <= q)%N -> prio_lt a q.
Proof. destruct a; simpl; [auto|lia]. Qed.

Lemma tie_heap_heap_inv t : tie_heap t -> heap_inv t.
Proof.
  induction t as [|p l IHl r IHr s v]; [auto|].
  intros (Hl & Hr & Htl & Htr). cbn [heap_inv].
  auto using prio_lt_le.
Qed.

Lemma rmerge_prio_lt a b (q : N) :
  prio_lt a q -> prio_lt b q -> prio_lt (implicit_treap.merge a b) q.
Proof.
  apply (rmerge_ind V (fun a b m => prio_lt a q -> prio_lt b q -> prio_lt m q));
    clear a b; auto.
Qed.

Lemma rmerge_tie_heap a b :
  tie_heap a -> tie_heap b -> tie_heap (implicit_treap.merge a b).
Proof.
  apply (rmerge_ind V (fun a b m => tie_heap a -> tie_heap b -> tie_heap m));
    clear a b; auto.
  - intros * Hlt IH (Hpl & Hpr & Hl1 & Hr1) Hb. node_simpl.
    cbn [tie_heap]. repeat split; auto.
    apply rmerge_prio_lt; [exact Hpr|]. simpl. exact Hlt.
  - intros * Hle IH Ha (Hpl & Hpr & Hl2 & Hr2). node_simpl.
    cbn [tie_heap]. repeat split; auto.
    apply rmerge_prio_le; [|exact Hpl]. simpl. exact Hle.
Qed.

Variable K : Type.
Variable get_key : V -> K.
Variable cmp : K -> K -> bool.

Lemma split_rec_tie_heap (KeyIncluded : bool) (key : K) t :
  tie_heap t ->
  tie_heap (fst (split_rec get_key cmp KeyIncluded key t))
  /\ tie_heap (snd (split_rec get_key cmp KeyIncluded key t))
  /\ (forall q, prio_le t q ->
        prio_le (fst (split_rec get_key cmp KeyIncluded key t)) q
        /\ prio_le (snd (split_rec get_key cmp KeyIncluded key t)) q)
  /\ (forall q, prio_lt t q ->
        prio_lt (fst (split_rec get_key cmp KeyIncluded key t)) q
        /\ prio_lt (snd (split_rec get_key cmp KeyIncluded key t)) q).
Proof.
  induction t as [|p l IHl r IHr s v]; [cbn; auto|].
  intros (Hpl & Hpr & Hl & Hr). cbn [split_rec].
  destruct (treap.split_compare get_key cmp KeyIncluded key v); cbn [fst snd].
  - destruct (IHr Hr) as (Hf & Hk & Hle & Hlt).
    destruct (Hlt p Hpr) as (Hqf & Hqk).
    split; [node_simpl; cbn [tie_heap]; auto|]. split; [assumption|]. split.
    + intros q Hpq. split; [exact Hpq|].
      eapply prio_le_trans; [apply prio_lt_le; exact Hqk|exact Hpq].
    + intros q Hpq. split; [exact Hpq|].
      eapply prio_lt_le_trans; [exact Hqk|]. simpl in Hpq. lia.
  - destruct (IHl Hl) as (Hf & Hk & Hle & Hlt).
    destruct (Hle p Hpl) as (Hqf & Hqk).
    split; [assumption|]. split; [node_simpl; cbn [tie_heap]; auto|]. split.
    + intros q Hpq. split; [|exact Hpq].
      eapply prio_le_trans; [exact Hqf|exact Hpq].
    + intros q Hpq. split; [|exact Hpq].
      eapply prio_le_lt_trans; [exact Hqf|exact Hpq].
Qed.

(** Merging the two halves of a split restores the tree, node for node. *)
Lemma split_rec_merge_id (KeyIncluded : bool) (key : K) t :
  tie_heap t -> size_inv t ->
  implicit_treap.merge (fst (split_rec get_key cmp KeyIncluded key t))
    (snd (split_rec get_key cmp KeyIncluded key t)) = t.
Proof.
  induction t as [|p l IHl r IHr s v]; [reflexivity|].
  intros (Hpl & Hpr & Hl & Hr) (Hs & Hsl & Hsr). cbn [split_rec].
  destruct (treap.split_compare get_key cmp KeyIncluded key v); cbn [fst snd].
  - destruct (split_rec_tie_heap KeyIncluded key r Hr) as (_ & _ & _ & Hlt).
    destruct (Hlt p Hpr) as (_ & Hqk).
    specialize (IHr Hr Hsr).
    destruct (snd (split_rec get_key cmp KeyIncluded key r))
      as [|p2 l2 r2 s2 v2].
    + rewrite rmerge_null_r in *. rewrite IHr. node_simpl.
      f_equal. lia.
    + node_simpl. rewrite rmerge_node.
      destruct (N.ltb_spec p2 p); [|lia].
      node_simpl. rewrite IHr. f_equal. lia.
  - destruct (split_rec_tie_heap KeyIncluded key l Hl) as (_ & _ & Hle & _).
    destruct (Hle p Hpl) as (Hqf & _).
    specialize (IHl Hl Hsl).
    destruct (fst (split_rec get_key cmp KeyIncluded key l))
      as [|p1 l1 r1 s1 v1].
    + rewrite rmerge_null_l in *. rewrite IHl. node_simpl.
      f_equal. lia.
    + node_simpl. rewrite rmerge_node.
      destruct (N.ltb_spec p p1); [lia|].
      node_simpl. rewrite IHl. f_equal. lia.
Qed.

End TieHeap.

(** ** The key-ordered container: heap property and erasing an absent key *)

Section KeyedHeap.

Variable V : Type.
Variable K : Type.
Variable get_key : V -> K.
Variable cmp : K -> K -> bool.

Hypothesis cmp_irrefl : forall x, cmp x x = false.
Hypothesis cmp_trans :
  forall x y z, cmp x y = true -> cmp y z = true -> cmp x z = true.

Implicit Types t : treap_node V.

Lemma keyed_insert_tie_heap (value : V) (priority : N) t :
  bst get_key cmp t -> tie_heap t ->
  tie_heap (snd (treap.insert get_key cmp value priority t)).
Proof.
  intros Hb Ht. unfold treap.insert, treap.emplace_with_key.
  destruct (treap.find get_key cmp (get_key value) t) eqn:Hf; cbn [snd];
    [exact Ht|].
  rewrite (insert_node_rec V K get_key cmp cmp_irrefl cmp_trans
             priority value t Hb Hf).
  destruct (split_rec_tie_heap V K get_key cmp false (get_key value) t Ht)
    as (Hl & Hr & _).
  apply rmerge_tie_heap; [|exact Hr].
  apply rmerge_tie_heap; [exact Hl|]. cbn. auto.
Qed.

Lemma keyed_detach_tie_heap (EndIncluded : bool) (begin_key end_key : K) t :
  bst get_key cmp t -> tie_heap t ->
  tie_heap (fst (treap.detach_node_key_interval get_key cmp EndIncluded
                   begin_key end_key t)).
Proof.
  intros Hb Ht.
  rewrite (detach_node_key_interval_rec V K get_key cmp cmp_irrefl cmp_trans
             EndIncluded begin_key end_key t Hb).
  cbn [fst].
  destruct (split_rec_tie_heap V K get_key cmp false begin_key t Ht)
    as (Hl & Hr & _).
  destruct (split_rec_tie_heap V K get_key cmp EndIncluded end_key _ Hr)
    as (_ & Hr2 & _).
  now apply rmerge_tie_heap.
Qed.

Lemma keyed_apply_tie_heap (op : keyed_op V K) t :
  bst get_key cmp t -> tie_heap t -> tie_heap (keyed_apply get_key cmp op t).
Proof.
  intros Hb Ht. destruct op; cbn [keyed_apply].
  - now apply keyed_insert_tie_heap.
  - rewrite emplace_insert. now apply keyed_insert_tie_heap.
  - now apply keyed_detach_tie_heap.
  - now apply keyed_detach_tie_heap.
  - now apply keyed_detach_tie_heap.
Qed.

Lemma keyed_run_tie_heap (ops : list (keyed_op V K)) :
  tie_heap (keyed_run get_key cmp ops).
Proof.
  unfold keyed_run.
  apply (fold_left_invariant _ _ (fun t op => keyed_apply get_key cmp op t)
           (fun t => bst get_key cmp t /\ tie_heap t)).
  - intros s a (Hb & Ht). split.
    + now apply keyed_apply_bst.
    + now apply keyed_apply_tie_heap.
  - split; [constructor|exact I].
Qed.

Lemma keyed_run_heap_inv (ops : list (keyed_op V K)) :
  heap_inv (keyed_run get_key cmp ops).
Proof. apply tie_heap_heap_inv, keyed_run_tie_heap. Qed.

(** Erasing a key that no element is equivalent to returns the tree it was
    given. *)
Lemma keyed_erase_key_absent_identity (key : K) t :
  bst get_key cmp t -> size_inv t -> tie_heap t ->
  (forall x, In x (inorder t) -> ~ equiv_key cmp (get_key x) key) ->
  snd (treap.erase_key get_key cmp key t) = t.
Proof.
  intros Hb Hs Ht Habs.
  unfold treap.erase_key, treap.detach_node_with_key. cbn [snd].
  rewrite (detach_node_key_interval_rec V K get_key cmp cmp_irrefl cmp_trans
             true key key t Hb).
  cbn [fst].
  pose proof (split_rec_merge_id V K get_key cmp false key t Ht Hs) as Hid.
  pose proof (split_rec_inorder V K get_key cmp false key t) as Hi.
  destruct (split_rec_partition V K get_key cmp cmp_trans false key t Hb)
    as (_ & Hge).
  destruct (split_rec_tie_heap V K get_key cmp false key t Ht)
    as (_ & Htr & _).
  destruct (split_rec_size_inv V K get_key cmp false key t Hs) as (_ & Hsr).
  destruct (split_rec get_key cmp false key t) as [left rest].
  cbn [fst snd] in *. unfold treap.split_compare in Hge.
  assert (Hbr : bst get_key cmp rest).
  { assert (Hsorted : StronglySorted (ltk get_key cmp)
                        (inorder left ++ inorder rest))
      by (rewrite Hi; exact Hb).
    now apply sorted_app in Hsorted as (_ & Hsorted & _). }
  pose proof (split_rec_merge_id V K get_key cmp true key rest Htr Hsr) as Hid2.
  pose proof (split_rec_inorder V K get_key cmp true key rest) as Hi2.
  destruct (split_rec_partition V K get_key cmp cmp_trans true key rest Hbr)
    as (Hin & _).
  destruct (split_rec get_key cmp true key rest) as [interval right].
  cbn [fst snd] in *. unfold treap.split_compare in Hin.
  assert (Hnil : interval = nullptr).
  { apply inorder_nil_null.
    destruct (inorder interval) as [|x l] eqn:Hx; [reflexivity|].
    exfalso. apply (Habs x).
    - rewrite <- Hi, <- Hi2. apply in_or_app. right. now left.
    - split.
      + apply Hge. rewrite <- Hi2. now left.
      + apply negb_true_iff. apply Hin. now left. }
  subst interval. rewrite rmerge_null_l in Hid2. subst right. exact Hid.
Qed.

End KeyedHeap.

(** ** treap.h: lookup by key *)

Section LegacyLookup.

Implicit Types t : Treap.TreapNode.

Lemma legacy_bst_node p (l r : Treap.TreapNode) s k :
  bst zkey Z.ltb (Node p l r s k) <->
  bst zkey Z.ltb l /\ bst zkey Z.ltb r
  /\ (forall x, In x (inorder l) -> (x < k)%Z)
  /\ (forall y, In y (inorder r) -> (k < y)%Z).
Proof.
  rewrite (bst_node Z Z zkey Z.ltb Zltb_trans). unfold ltk, zkey.
  split; intros (Hl & Hr & Hlk & Hkr); repeat split; auto;
    intros x Hx; apply Z.ltb_lt; auto.
Qed.

Lemma nodeOfKey_present (value : Z) t :
  bst zkey Z.ltb t -> In value (inorder t) ->
  exists p l r s, Treap.nodeOfKey value t = Node p l r s value.
Proof.
  induction t as [|p l IHl r IHr s k]; intros Hb Hin; [contradiction|].
  apply legacy_bst_node in Hb as (Hl & Hr & Hlk & Hkr).
  cbn [inorder] in Hin. apply in_app_or in Hin.
  cbn [Treap.nodeOfKey].
  destruct Hin as [Hin|[->|Hin]].
  - pose proof (Hlk _ Hin).
    destruct (Z.eqb_spec value k); [lia|]. cbn [negb].
    destruct (Z.ltb_spec value k); [|lia]. now apply IHl.
  - rewrite Z.eqb_refl. cbn [negb]. now repeat eexists.
  - pose proof (Hkr _ Hin).
    destruct (Z.eqb_spec value k); [lia|]. cbn [negb].
    destruct (Z.ltb_spec value k); [lia|]. now apply IHr.
Qed.

Lemma contains_present (value : Z) t :
  bst zkey Z.ltb t -> In value (inorder t) -> Treap.contains value t = true.
Proof.
  intros Hb Hin. unfold Treap.contains.
  destruct (nodeOfKey_present value t Hb Hin) as (p & l & r & s & ->).
  reflexivity.
Qed.

End LegacyLookup.

(** C5: inserting into the key-ordered treap a value whose key is already
    present returns the iterator to the existing element together with
    [false], and the tree is the one before the call (same elements, same
    keys, same size); nothing is thrown.  [Treap::insert] of treap.h returns
    nothing and leaves [_root] as it was. *)
Theorem duplicate_insert_no_mutation (V K : Type) (get_key : V -> K)
    (cmp : K -> K -> bool) (t : treap_node V) (x value : V) (priority : N)
    (tz : Treap.TreapNode) (valuez : Z) (priorityz : N) :
  (forall x y z, cmp x y = true -> cmp y z = true -> cmp x z = true) ->
  bst get_key cmp t -> In x (inorder t) ->
  equiv_key cmp (get_key x) (get_key value) ->
  bst zkey Z.ltb tz -> In valuez (inorder tz) ->
  (exists w,
      In w (inorder t) /\ equiv_key cmp (get_key value) (get_key w)
      /\ treap.emplace_with_key get_key cmp (get_key value) priority value t
         = (Some w, false, t)
      /\ treap.insert get_key cmp value priority t = (Some w, false, t)
      /\ treap.emplace get_key cmp priority value t = (Some w, false, t))
  /\ Treap.insert valuez priorityz tz = tz.
Proof.
  intros Htr Hb Hx Heq Hbz Hz. split.
  - destruct (find_present V K get_key cmp Htr (get_key value) t x Hb Hx Heq)
      as (w & Hf & Hw & Hkw).
    exists w. split; [exact Hw|]. split; [exact Hkw|].
    rewrite emplace_insert. unfold treap.insert, treap.emplace_with_key.
    rewrite Hf. auto.
  - unfold Treap.insert. now rewrite (contains_present valuez tz Hbz Hz).
Qed.

Lemma sample_tree_bst : bst zkey Z.ltb sample_tree.
Proof.
  unfold bst, ltk, zkey. simpl.
  repeat (constructor; [|repeat constructor; reflexivity]). constructor.
Qed.

Lemma duplicate_insert_no_mutation_witness :
  (exists w,
      In w (inorder sample_tree) /\ equiv_key Z.ltb (zkey 5%Z) (zkey w)
      /\ treap.emplace_with_key zkey Z.ltb (zkey 5%Z) 1 5%Z sample_tree
         = (Some w, false, sample_tree)
      /\ treap.insert zkey Z.ltb 5%Z 1 sample_tree
         = (Some w, false, sample_tree)
      /\ treap.emplace zkey Z.ltb 1 5%Z sample_tree
         = (Some w, false, sample_tree))
  /\ Treap.insert 5%Z 1 sample_tree = sample_tree.
Proof.
  assert (Hin : In 5%Z (inorder sample_tree)) by (simpl; auto).
  assert (Heq : equiv_key Z.ltb (zkey 5%Z) (zkey 5%Z)) by (split; reflexivity).
  exact (duplicate_insert_no_mutation Z Z zkey Z.ltb sample_tree 5%Z 5%Z 1
           sample_tree 5%Z 1 Zltb_trans sample_tree_bst Hin Heq
           sample_tree_bst Hin).
Defined.

(** ** Erasing an absent target *)

Lemma keyed_erase_key_absent (V K : Type) (get_key : V -> K)
    (cmp : K -> K -> bool) (t : treap_node V) (key : K) :
  (forall x, cmp x x = false) ->
  (forall x y z, cmp x y = true -> cmp y z = true -> cmp x z = true) ->
  bst get_key cmp t ->
  (forall x, In x (inorder t) -> ~ equiv_key cmp (get_key x) key) ->
  nodes (snd (treap.erase_key get_key cmp key t)) = nodes t.
Proof.
  intros Hirr Htr Hb Habs.
  unfold treap.erase_key, treap.detach_node_with_key. cbn [snd].
  destruct (detach_node_key_interval_ordered V K get_key cmp Hirr Htr true
              key key t Hb) as (L & R & Ht & Ht' & _ & Hint).
  cbn zeta in *.
  destruct (treap.detach_node_key_interval get_key cmp true key key t)
    as [root interval].
  cbn [fst snd] in *.
  assert (Hnil : interval = nullptr).
  { apply inorder_nil_null.
    destruct (inorder interval) as [|x l] eqn:Hi; [reflexivity|].
    exfalso. destruct (Hint x (or_introl eq_refl)) as (Hxk & Hkx).
    unfold treap.split_compare in Hkx. apply negb_true_iff in Hkx.
    apply (Habs x); [|split; assumption].
    rewrite <- inorder_nodes, Ht, !map_app, in_app_iff, in_app_iff.
    right. left. rewrite inorder_nodes, Hi. now left. }
  subst interval. rewrite Ht, Ht'. reflexivity.
Qed.

Lemma key_succ_le (value : Z) : (Treap.key_succ value <= value + 1)%Z.
Proof.
  unfold Treap.key_succ, Treap.key_min, Treap.key_max.
  destruct (Z.eqb_spec value (2 ^ 31 - 1)); lia.
Qed.

Lemma key_succ_next (value : Z) :
  value <> Treap.key_max -> Treap.key_succ value = (value + 1)%Z.
Proof.
  intros Hne. unfold Treap.key_succ.
  destruct (Z.eqb_spec value Treap.key_max); [contradiction|reflexivity].
Qed.

(** On the values of [int], [key_succ] is the two's complement sum. *)
Lemma key_succ_wrap (value : Z) :
  (Treap.key_min <= value <= Treap.key_max)%Z ->
  Treap.key_succ value = Treap.int_wrap (value + 1).
Proof.
  unfold Treap.key_succ, Treap.int_wrap, Treap.key_min, Treap.key_max.
  intros Hr. destruct (Z.eqb_spec value (2 ^ 31 - 1)) as [->|Hne].
  - reflexivity.
  - rewrite Z.mod_small; lia.
Qed.

(** On an ordered tree that does not hold [value] the second split of
    [Treap::remove] finds nothing. *)
Lemma legacy_remove_absent (t : Treap.TreapNode) (value : Z) :
  bst zkey Z.ltb t -> ~ In value (inorder t) ->
  Treap.remove value t
  = Ok (match t with
        | nullptr => nullptr
        | Node _ _ _ _ k =>
            if (k <? value)%Z then fst (Treap.split t value)
            else snd (Treap.split (snd (Treap.split t value))
                        (Treap.key_succ value))
        end,
        Some (runtime_error "Element not found"%string)).
Proof.
  intros Hb Habs. unfold Treap.remove. rewrite !legacy_split_rec.
  pose proof (split_rec_inorder _ _ zkey Z.ltb false value t) as Hi.
  destruct (split_rec_partition _ _ zkey Z.ltb Zltb_trans false value t Hb)
    as (_ & Hge).
  destruct (split_rec zkey Z.ltb false value t) as [first rest].
  cbn [fst snd] in *.
  assert (Hsorted : StronglySorted (ltk zkey Z.ltb)
                      (inorder first ++ inorder rest)).
  { rewrite Hi. exact Hb. }
  apply sorted_app in Hsorted as (_ & Hsr & _).
  pose proof (split_rec_inorder _ _ zkey Z.ltb false (Treap.key_succ value)
                rest) as Hi2.
  destruct (split_rec_partition _ _ zkey Z.ltb Zltb_trans false
              (Treap.key_succ value) rest Hsr) as (Hlt & _).
  destruct (split_rec zkey Z.ltb false (Treap.key_succ value) rest)
    as [found right].
  cbn [fst snd] in *.
  assert (Hnil : found = nullptr).
  { apply inorder_nil_null.
    destruct (inorder found) as [|x l] eqn:Hf; [reflexivity|].
    exfalso. apply Habs.
    assert (Hx : In x (inorder rest)).
    { rewrite <- Hi2. apply in_or_app. left. now left. }
    pose proof (Hlt x (or_introl eq_refl)) as H1.
    pose proof (Hge x Hx) as H2.
    unfold treap.split_compare, zkey in H1, H2.
    apply Z.ltb_lt in H1. apply Z.ltb_ge in H2.
    pose proof (key_succ_le value).
    assert (x = value) by lia. subst x.
    rewrite <- Hi. apply in_or_app. now right. }
  subst found. reflexivity.
Qed.

(** C6, as the code has it: in every state of the treap.hpp container
    reached from the empty one, [erase_key] with a key that no element is
    equivalent to throws nothing and returns the same tree; [erase] of the
    implicit treap with [index >= size] returns the same tree, so [pop_back]
    and [pop_front] on an empty container do nothing; [Treap::remove] of
    treap.h with an absent key throws [std::runtime_error("Element not
    found")]. *)
Theorem erase_absent_target (V K : Type) (get_key : V -> K)
    (cmp : K -> K -> bool) (ops : list (keyed_op V K)) (key : K)
    (T : Type) (ti : treap_node T) (index : N)
    (tz : Treap.TreapNode) (valuez : Z) :
  (forall x, cmp x x = false) ->
  (forall x y z, cmp x y = true -> cmp y z = true -> cmp x z = true) ->
  (forall x, In x (inorder (keyed_run get_key cmp ops)) ->
             ~ equiv_key cmp (get_key x) key) ->
  (size ti <= index)%N ->
  bst zkey Z.ltb tz -> ~ In valuez (inorder tz) ->
  snd (treap.erase_key get_key cmp key (keyed_run get_key cmp ops))
  = keyed_run get_key cmp ops
  /\ (implicit_treap.erase index ti = ti
      /\ implicit_treap.pop_back (@nullptr T) = nullptr
      /\ implicit_treap.pop_front (@nullptr T) = nullptr)
  /\ (exists kept,
        Treap.remove valuez tz
        = Ok (kept, Some (runtime_error "Element not found"%string))).
Proof.
  intros Hirr Htr Habs Hidx Hbz Habsz.
  split; [|split; [split; [|split]|]].
  - apply (keyed_erase_key_absent_identity V K get_key cmp Hirr Htr); auto.
    + now apply keyed_run_bst.
    + apply keyed_run_size_inv.
    + now apply keyed_run_tie_heap.
  - now apply erase_out_of_range.
  - reflexivity.
  - reflexivity.
  - eexists. now apply legacy_remove_absent.
Qed.

Lemma sample_tree_lacks_4 : ~ In 4%Z (inorder sample_tree).
Proof. simpl. intros [H|[H|[H|[H|[]]]]]; discriminate. Qed.

Lemma sample_ops_lack_4 (x : Z) :
  In x (inorder (keyed_run zkey Z.ltb sample_ops)) ->
  ~ equiv_key Z.ltb (zkey x) 4%Z.
Proof.
  intros Hx (H1 & H2). unfold zkey in *.
  apply Z.ltb_ge in H1. apply Z.ltb_ge in H2.
  assert (x = 4%Z) by lia. subst x.
  vm_compute in Hx. destruct Hx as [H|[H|[]]]; discriminate.
Qed.

Lemma erase_absent_target_witness :
  snd (treap.erase_key zkey Z.ltb 4%Z (keyed_run zkey Z.ltb sample_ops))
  = keyed_run zkey Z.ltb sample_ops
  /\ implicit_treap.erase 4 sample_tree = sample_tree
  /\ (exists kept,
        Treap.remove 4%Z sample_tree
        = Ok (kept, Some (runtime_error "Element not found"%string))).
Proof.
  assert (Hidx : (size sample_tree <= 4)%N) by (simpl; lia).
  destruct (erase_absent_target Z Z zkey Z.ltb sample_ops 4%Z Z sample_tree 4
              sample_tree 4%Z Zltb_irrefl Zltb_trans sample_ops_lack_4 Hidx
              sample_tree_bst sample_tree_lacks_4)
    as (H1 & (H2 & _) & H3).
  auto.
Defined.

(** C6 as stated fails for treap.h: removing the absent key 4 from the tree
    holding 1, 3, 5, 8 is not a silent no-op; [Treap::remove] throws, and the
    container it leaves is not the one it was given. *)
Lemma legacy_remove_absent_throws :
  bst zkey Z.ltb sample_tree
  /\ ~ In 4%Z (inorder sample_tree)
  /\ (exists kept,
        Treap.remove 4%Z sample_tree
        = Ok (kept, Some (runtime_error "Element not found"%string)))
  /\ Treap.remove 4%Z sample_tree <> Ok (sample_tree, None).
Proof.
  split; [exact sample_tree_bst|]. split; [exact sample_tree_lacks_4|].
  split; [eexists; reflexivity|]. intros H. vm_compute in H. discriminate.
Qed.

(** ** treap.h: order statistics *)

Section LegacyOrder.

Implicit Types t : Treap.TreapNode.

Lemma nth_error_middle (A : Type) (l1 l2 : list A) (a : A) :
  nth_error (l1 ++ a :: l2) (length l1) = Some a.
Proof.
  rewrite nth_error_app2 by lia. now rewrite Nat.sub_diag.
Qed.



Lemma keyOfOrder_nth (key : Z) t (i : nat) :
  size_inv t -> nth_error (inorder t) i = Some key ->
  Treap.keyOfOrder t (N.of_nat i) = Ok key.
Proof.
  intros Hinv Hn.
  assert (Hlt : i < count t).
  { rewrite <- inorder_length. apply nth_error_Some. congruence. }
  destruct (node_of_order_in_range _ t (N.of_nat i) Hinv) as (n & Hno & Hr).
  { rewrite (size_count _ t Hinv). lia. }
  rewrite Nat2N.id in Hr.
  pose proof (at_rank_nth _ t i n Hr) as Hnth.
  unfold Treap.keyOfOrder.
  change (Treap.nodeOfOrder t (N.of_nat i)) with (node_of_order t (N.of_nat i)).
  rewrite Hno.
  destruct n as [|p l r s k]; [now apply at_rank_not_null in Hr|].
  cbn [get_left inorder] in Hnth.
  rewrite <- (inorder_length _ l), nth_error_middle in Hnth.
  rewrite Hn in Hnth. now injection Hnth as <-.
Qed.

End LegacyOrder.

(** ** The size invariant through every mutating operation *)

Section ImplicitContainer.

Variable T : Type.
Implicit Types t : treap_node T.

Lemma implicit_apply_size_inv (op : implicit_op T) t :
  size_inv t -> size_inv (implicit_apply op t).
Proof.
  intros Ht. destruct op; cbn [implicit_apply];
    unfold implicit_treap.insert, implicit_treap.push_back,
      implicit_treap.emplace_back, implicit_treap.push_front,
      implicit_treap.emplace_front, implicit_treap.pop_back,
      implicit_treap.pop_front;
    auto using emplace_size_inv, erase_size_inv.
Qed.

Lemma implicit_run_size_inv (ops : list (implicit_op T)) :
  size_inv (implicit_run ops).
Proof.
  unfold implicit_run.
  apply (fold_left_invariant _ _ (fun t op => implicit_apply op t)
           (@size_inv T)).
  - intros s a. apply implicit_apply_size_inv.
  - exact I.
Qed.

End ImplicitContainer.

(** An invariant of the states of a run whose steps may have undefined
    behaviour. *)
Lemma run_invariant (A S : Type) (step : A -> S -> result S) (P : S -> Prop) :
  (forall s a s', P s -> step a s = Ok s' -> P s') ->
  forall (l : list A) (s0 s' : S),
    P s0 ->
    fold_left (fun state a => result_bind state (step a)) l (Ok s0) = Ok s' ->
    P s'.
Proof.
  intros Hstep l s0 s' H0 Hrun.
  apply (fold_left_invariant A (result S)
           (fun state a => result_bind state (step a))
           (fun state => forall s, state = Ok s -> P s)) with (l := l)
           (s := Ok s0); [| |exact Hrun].
  - intros state a Hstate s Hs. destruct state as [s1| |]; try discriminate.
    cbn [result_bind] in Hs. apply (Hstep s1 a s); [|exact Hs].
    now apply Hstate.
  - now intros s [= <-].
Qed.

Section LegacyContainer.

Implicit Types t : Treap.TreapNode.

Lemma legacy_split_size_inv t (value : Z) :
  size_inv t ->
  size_inv (fst (Treap.split t value)) /\ size_inv (snd (Treap.split t value)).
Proof. rewrite legacy_split_rec. apply split_rec_size_inv. Qed.

Lemma legacy_insert_size_inv (value : Z) (priority : N) t :
  size_inv t -> size_inv (Treap.insert value priority t).
Proof.
  intros Ht. unfold Treap.insert.
  destruct (Treap.contains value t); [exact Ht|].
  destruct t as [|p l r s k]; [cbn; auto|].
  destruct (legacy_split_size_inv (Node p l r s k) value Ht) as (H1 & H2).
  apply legacy_merge_size_inv; [exact H2|].
  apply legacy_merge_size_inv; [exact H1|]. cbn. auto.
Qed.

(** The root a defined call of [Treap::remove] leaves: nothing, one of the
    two outer parts, or their merge. *)
Lemma legacy_remove_state (value : Z) t (r : Treap.TreapNode * option exn) :
  Treap.remove value t = Ok r ->
  let first := fst (Treap.split t value) in
  let right := snd (Treap.split (snd (Treap.split t value))
                      (Treap.key_succ value)) in
  fst r = nullptr \/ fst r = first \/ fst r = right
  \/ fst r = Treap.merge first right.
Proof.
  unfold Treap.remove. cbn zeta.
  destruct (fst (Treap.split (snd (Treap.split t value))
                   (Treap.key_succ value))).
  - intros [= <-]. cbn [fst]. destruct t as [|p l r0 s k]; [now left|].
    destruct (k <? value)%Z; auto.
  - destruct t as [|p l r0 s k]; [intros [= <-]; now left|].
    destruct (negb (k <? value)%Z && (k <? Treap.key_succ value)%Z);
      [discriminate|].
    destruct (size _ =? 0)%N; intros [= <-]; cbn [fst]; auto.
Qed.

Lemma legacy_remove_size_inv (value : Z) t (r : Treap.TreapNode * option exn) :
  size_inv t -> Treap.remove value t = Ok r -> size_inv (fst r).
Proof.
  intros Ht Hr.
  destruct (legacy_split_size_inv t value Ht) as (H1 & H2).
  destruct (legacy_split_size_inv (snd (Treap.split t value))
              (Treap.key_succ value) H2) as (H3 & H4).
  destruct (legacy_remove_state value t r Hr) as [-> | [-> | [-> | ->]]];
    [exact I|assumption|assumption|].
  now apply legacy_merge_size_inv.
Qed.

Lemma legacy_apply_size_inv (op : legacy_op) t (t' : Treap.TreapNode) :
  size_inv t -> legacy_apply op t = Ok t' -> size_inv t'.
Proof.
  intros Ht. destruct op; cbn [legacy_apply].
  - intros [= <-]. now apply legacy_insert_size_inv.
  - destruct (Treap.remove value t) as [r| |] eqn:Hr; cbn [result_bind];
      [|discriminate|discriminate].
    intros [= <-]. now apply (legacy_remove_size_inv value t r).
Qed.

Lemma legacy_run_size_inv (ops : list legacy_op) (t' : Treap.TreapNode) :
  legacy_run ops = Ok t' -> size_inv t'.
Proof.
  unfold legacy_run.
  apply (run_invariant legacy_op Treap.TreapNode legacy_apply
           (@size_inv Treap.key_type)); [|exact I].
  intros s a s' Hs. now apply legacy_apply_size_inv.
Qed.

End LegacyContainer.

(** The size invariant through the mutating operations, the part of C3 the
    code satisfies: [set_left] and [set_right] ([setLeft], [setRight]) store
    the child and recompute the size at once, and after every mutating
    operation of treap.hpp and implicit_treap.hpp, and after every mutating
    operation of treap.h whose behaviour is defined, every node satisfies
    [size = 1 + size(left) + size(right)], an absent child counting 0; so
    does every state reached from the empty container. *)
Theorem size_invariant_after_mutation (V K : Type) (get_key : V -> K)
    (cmp : K -> K -> bool) (kop : keyed_op V K) (t : treap_node V)
    (T : Type) (iop : implicit_op T) (ti : treap_node T)
    (lop : legacy_op) (tz : Treap.TreapNode) :
  size_inv t -> size_inv ti -> size_inv tz ->
  (forall p l r s (v : V) child,
      size (set_left (Node p l r s v) child) = (1 + size child + size r)%N
      /\ get_left (set_left (Node p l r s v) child) = child
      /\ size (set_right (Node p l r s v) child) = (1 + size l + size child)%N
      /\ get_right (set_right (Node p l r s v) child) = child)
  /\ size_inv (keyed_apply get_key cmp kop t)
  /\ size_inv (implicit_apply iop ti)
  /\ (forall tz', legacy_apply lop tz = Ok tz' -> size_inv tz')
  /\ (forall kops, size_inv (keyed_run get_key cmp kops))
  /\ (forall iops : list (implicit_op T), size_inv (implicit_run iops))
  /\ (forall lops tz', legacy_run lops = Ok tz' -> size_inv tz').
Proof.
  intros Ht Hti Htz.
  split; [|split; [|split; [|split; [|split; [|split]]]]].
  - intros p l r s v child. node_simpl. repeat split; lia.
  - now apply keyed_apply_size_inv.
  - now apply implicit_apply_size_inv.
  - intros tz'. now apply legacy_apply_size_inv.
  - apply keyed_run_size_inv.
  - apply implicit_run_size_inv.
  - apply legacy_run_size_inv.
Qed.

Lemma size_invariant_after_mutation_witness :
  size_inv (keyed_apply zkey Z.ltb (op_erase_key 3%Z) sample_tree)
  /\ size_inv (implicit_apply (iop_insert 4%Z 2 6) sample_tree)
  /\ (exists tz', legacy_apply (lop_remove 5%Z) sample_tree = Ok tz'
                  /\ size_inv tz').
Proof.
  destruct (size_invariant_after_mutation Z Z zkey Z.ltb (op_erase_key 3%Z)
              sample_tree Z (iop_insert 4%Z 2 6) sample_tree
              (lop_remove 5%Z) sample_tree
              sample_tree_size_inv sample_tree_size_inv sample_tree_size_inv)
    as (_ & H1 & H2 & H3 & _).
  split; [exact H1|]. split; [exact H2|].
  eexists. split; [reflexivity|]. apply H3. reflexivity.
Defined.

(** When [Treap::remove] reads released storage. *)
Lemma legacy_remove_undefined_iff (value : Z) (t : Treap.TreapNode) :
  Treap.remove value t = Undefined <->
  get_value_address t = Some value /\ value <> Treap.key_max.
Proof.
  split.
  - unfold Treap.remove. cbv zeta.
    destruct (fst (Treap.split (snd (Treap.split t value))
                     (Treap.key_succ value))); [discriminate|].
    destruct t as [|p l r s k]; [discriminate|].
    destruct (negb (k <? value)%Z && (k <? Treap.key_succ value)%Z) eqn:Hc.
    + intros _. apply andb_true_iff in Hc as (H1 & H2).
      apply negb_true_iff, Z.ltb_ge in H1. apply Z.ltb_lt in H2.
      pose proof (key_succ_le value) as Hle.
      assert (k = value) by lia. subst k. split; [reflexivity|].
      intros Hmax. unfold Treap.key_succ in H2.
      rewrite Hmax, Z.eqb_refl in H2.
      unfold Treap.key_min, Treap.key_max in *. lia.
    + destruct (size _ =? 0)%N; discriminate.
  - intros (Hroot & Hmax). destruct t as [|p l r s k]; [discriminate|].
    injection Hroot as ->.
    unfold Treap.remove. rewrite (key_succ_next value Hmax).
    cbn [Treap.split]. rewrite Z.ltb_irrefl. cbn [fst snd].
    unfold Treap.setLeft, set_left, update. cbn [Treap.split].
    assert (Hlt : (value <? value + 1)%Z = true) by (apply Z.ltb_lt; lia).
    rewrite Hlt. cbn [fst snd]. unfold Treap.setRight, set_right, update.
    reflexivity.
Qed.

(** C3, the failing input: [Treap::remove] of treap.h with the key of the
    root deletes the node [_root] points at and then reads its size in
    [empty()]: after [insert(5)], [remove(5)] has undefined behaviour, where
    the claim promises the size invariant after every mutating operation.
    It is so for every tree and every key of a root but the largest value of
    [Key], and for no other call of [remove]. *)
Theorem legacy_remove_of_root_undefined :
  Treap.remove 5%Z (Treap.insert 5%Z 4 nullptr) = Undefined
  /\ legacy_run [lop_insert 5%Z 4; lop_remove 5%Z] = Undefined
  /\ (forall value t,
        Treap.remove value t = Undefined <->
        get_value_address t = Some value /\ value <> Treap.key_max).
Proof.
  split; [reflexivity|]. split; [reflexivity|].
  exact legacy_remove_undefined_iff.
Qed.

(** ** Copy construction *)

Lemma emplace_back_all_inorder (T : Type) (values : list T) :
  forall (priorities : list N) (t : treap_node T),
    size_inv t -> length values <= length priorities ->
    inorder (implicit_treap.emplace_back_all values priorities t)
    = inorder t ++ values
    /\ size_inv (implicit_treap.emplace_back_all values priorities t).
Proof.
  induction values as [|v values IH]; intros priorities t Hinv Hlen.
  - destruct priorities; cbn; now rewrite app_nil_r.
  - destruct priorities as [|p priorities]; [cbn in Hlen; lia|].
    cbn [implicit_treap.emplace_back_all].
    unfold implicit_treap.emplace_back.
    destruct (IH priorities
                (snd (implicit_treap.emplace (size t) p v t))) as (Hi & Hs).
    + now apply emplace_size_inv.
    + cbn in Hlen. lia.
    + split; [|exact Hs]. rewrite Hi, emplace_inorder by assumption.
      unfold clamp. rewrite N.min_id.
      rewrite firstn_all2, skipn_all2
        by (rewrite inorder_length, (size_count T t Hinv); lia).
      now rewrite <- app_assoc.
Qed.

(** The copy constructor of the implicit treap rebuilds the sequence of its
    source, the empty one included. *)
Lemma implicit_copy_inorder (T : Type) (other : treap_node T)
    (priorities : list N) :
  count other <= length priorities ->
  inorder (implicit_treap.copy_construct other priorities) = inorder other.
Proof.
  intros Hlen. unfold implicit_treap.copy_construct.
  destruct (emplace_back_all_inorder T (inorder other) priorities nullptr I)
    as (Hi & _).
  - now rewrite inorder_length.
  - exact Hi.
Qed.

(** *** treap.h *)

Lemma legacy_copy_identity (t : Treap.TreapNode) :
  size_inv t -> Treap.copy t = t.
Proof.
  induction t as [|p l IHl r IHr s k]; [reflexivity|].
  intros (Hs & Hl & Hr). cbn [Treap.copy].
  rewrite (IHl Hl), (IHr Hr). unfold Treap.new_TreapNode.
  destruct l as [|pl ll rl sl kl], r as [|pr lr rr sr kr];
    unfold Treap.setLeft, Treap.setRight; node_simpl; f_equal; lia.
Qed.

(** C9, the failing input: copy-constructing from an empty [Treap] calls
    [copy] through the null [_root], which is undefined behaviour, where the
    claim promises an empty, independent copy. *)
Theorem legacy_copy_of_empty_undefined :
  Treap.copy_construct nullptr = Undefined.
Proof. reflexivity. Qed.

Lemma legacy_copy_of_nonempty (t : Treap.TreapNode) :
  t <> nullptr -> size_inv t -> Treap.copy_construct t = Ok t.
Proof.
  intros Hne Hinv. unfold Treap.copy_construct.
  rewrite (legacy_copy_identity t Hinv). now destruct t.
Qed.

(** ** treap.h: the order invariant in reachable states *)

Section LegacyReachable.

Implicit Types t a b : Treap.TreapNode.

Lemma legacy_merge_reversed a b :
  precedes zkey Z.ltb b a -> Treap.merge a b = implicit_treap.merge b a.
Proof.
  intros Hba. destruct a as [|p1 l1 r1 s1 k1].
  - rewrite Treap.merge_equation_1. now rewrite rmerge_null_r.
  - destruct b as [|p2 l2 r2 s2 k2].
    + rewrite Treap.merge_equation_2. reflexivity.
    + rewrite legacy_merge_node, rmerge_node.
      assert (Hk : (k2 <? k1)%Z = true).
      { apply (Hba k2 k1); cbn [inorder]; apply in_elt. }
      rewrite Hk. destruct (p1 <? p2)%N.
      * rewrite legacy_merge_ordered; [reflexivity|].
        intros x y Hx Hy. apply Hba; [|exact Hy].
        cbn [inorder]. apply in_or_app. right. now right.
      * rewrite legacy_merge_ordered; [reflexivity|].
        intros x y Hx Hy. apply Hba; [exact Hx|].
        cbn [inorder]. apply in_or_app. now left.
Qed.

Lemma nodeOfKey_absent (value : Z) t :
  ~ In value (inorder t) -> Treap.nodeOfKey value t = nullptr.
Proof.
  induction t as [|p l IHl r IHr s k]; intros Habs; [reflexivity|].
  cbn [inorder] in Habs. rewrite in_app_iff in Habs. cbn [In] in Habs.
  cbn [Treap.nodeOfKey].
  destruct (Z.eqb_spec value k); [subst; tauto|]. cbn [negb].
  destruct (value <? k)%Z; [apply IHl|apply IHr]; tauto.
Qed.

Lemma contains_false_absent (value : Z) t :
  bst zkey Z.ltb t -> Treap.contains value t = false ->
  ~ In value (inorder t).
Proof.
  intros Hb Hc Hin. rewrite (contains_present value t Hb Hin) in Hc.
  discriminate.
Qed.

(** The two halves of a split of an ordered tree. *)
Lemma legacy_split_ordered t (value : Z) :
  bst zkey Z.ltb t ->
  inorder (fst (Treap.split t value)) ++ inorder (snd (Treap.split t value))
  = inorder t
  /\ (forall x, In x (inorder (fst (Treap.split t value))) -> (x < value)%Z)
  /\ (forall y, In y (inorder (snd (Treap.split t value))) -> (value <= y)%Z).
Proof.
  intros Hb. rewrite legacy_split_rec.
  destruct (split_rec_partition _ _ zkey Z.ltb Zltb_trans false value t Hb)
    as (Hlt & Hge).
  split; [apply split_rec_inorder|]. split.
  - intros x Hx. apply Z.ltb_lt. exact (Hlt x Hx).
  - intros y Hy. apply Z.ltb_ge. exact (Hge y Hy).
Qed.

Lemma legacy_insert_bst (value : Z) (priority : N) t :
  bst zkey Z.ltb t -> bst zkey Z.ltb (Treap.insert value priority t).
Proof.
  intros Hb. unfold Treap.insert.
  destruct (Treap.contains value t) eqn:Hc; [exact Hb|].
  pose proof (contains_false_absent value t Hb Hc) as Habs.
  destruct t as [|p l r s k].
  { unfold bst. cbn. repeat constructor. }
  remember (Node p l r s k) as t eqn:Et. clear Et.
  destruct (legacy_split_ordered t value Hb) as (Hi & Hlt & Hge).
  destruct (Treap.split t value) as [left right]. cbn [fst snd] in *.
  assert (Hsorted : StronglySorted (ltk zkey Z.ltb)
                      (inorder left ++ inorder right)).
  { rewrite Hi. exact Hb. }
  apply sorted_app in Hsorted as (Hsl & Hsr & Hlr).
  change (Treap.new_TreapNode value priority)
    with (Node priority nullptr nullptr 1 value).
  assert (H1 : precedes zkey Z.ltb left (Node priority nullptr nullptr 1 value)).
  { apply precedes_singleton_r. intros x Hx. apply Z.ltb_lt. now apply Hlt. }
  rewrite (legacy_merge_ordered left _ H1).
  assert (Hgt : forall y, In y (inorder right) -> (value < y)%Z).
  { intros y Hy. pose proof (Hge y Hy).
    assert (y <> value); [|lia].
    intros ->. apply Habs. rewrite <- Hi. apply in_or_app. now right. }
  assert (H2 : precedes zkey Z.ltb
                 (implicit_treap.merge left
                    (Node priority nullptr nullptr 1 value)) right).
  { intros x y. rewrite rmerge_inorder, in_app_iff. cbn [inorder app In].
    intros [Hx|[<-|[]]] Hy; [now apply Hlr|].
    apply Z.ltb_lt. now apply Hgt. }
  rewrite (legacy_merge_reversed right _ H2).
  unfold bst. rewrite !rmerge_inorder, <- app_assoc. cbn [inorder app].
  apply sorted_app. split; [exact Hsl|]. split.
  - apply sorted_cons_iff. split; [exact Hsr|].
    intros y Hy. apply Z.ltb_lt. now apply Hgt.
  - intros x y Hx [<-|Hy]; [apply Z.ltb_lt; now apply Hlt|now apply Hlr].
Qed.

Lemma legacy_remove_bst (value : Z) t (r : Treap.TreapNode * option exn) :
  bst zkey Z.ltb t -> Treap.remove value t = Ok r -> bst zkey Z.ltb (fst r).
Proof.
  intros Hb Hr. pose proof (legacy_remove_state value t r Hr) as Hst.
  cbn zeta in Hst.
  destruct (legacy_split_ordered t value Hb) as (Hi & _ & _).
  destruct (Treap.split t value) as [first rest]. cbn [fst snd] in *.
  assert (Hsorted : StronglySorted (ltk zkey Z.ltb)
                      (inorder first ++ inorder rest)).
  { rewrite Hi. exact Hb. }
  apply sorted_app in Hsorted as (Hsf & Hsr & Hfr).
  destruct (legacy_split_ordered rest (Treap.key_succ value) Hsr)
    as (Hi2 & _ & _).
  destruct (Treap.split rest (Treap.key_succ value)) as [found right].
  cbn [fst snd] in *.
  assert (Hsorted : StronglySorted (ltk zkey Z.ltb)
                      (inorder found ++ inorder right)).
  { rewrite Hi2. exact Hsr. }
  apply sorted_app in Hsorted as (_ & Hsright & _).
  destruct Hst as [-> | [-> | [-> | ->]]];
    [constructor|assumption|assumption|].
  assert (H1 : precedes zkey Z.ltb first right).
  { intros x y Hx Hy. apply Hfr; [exact Hx|].
    rewrite <- Hi2. apply in_or_app. now right. }
  rewrite (legacy_merge_ordered first right H1).
  unfold bst. rewrite rmerge_inorder. apply sorted_app. auto.
Qed.

Lemma legacy_apply_bst (op : legacy_op) t (t' : Treap.TreapNode) :
  bst zkey Z.ltb t -> legacy_apply op t = Ok t' -> bst zkey Z.ltb t'.
Proof.
  intros Hb. destruct op; cbn [legacy_apply].
  - intros [= <-]. now apply legacy_insert_bst.
  - destruct (Treap.remove value t) as [r| |] eqn:Hr; cbn [result_bind];
      [|discriminate|discriminate].
    intros [= <-]. now apply (legacy_remove_bst value t r).
Qed.


End LegacyReachable.

(** * Further properties *)

(** ** Size and iterators (treap_base.hpp, treap.h) *)

Section IteratorFacts.

Variable V : Type.
Implicit Types t : treap_node V.

Lemma empty_iff_null t : size_inv t -> (empty t = true <-> t = nullptr).
Proof.
  intros Hinv. unfold empty. rewrite N.eqb_eq. split.
  - destruct t as [|p l r s v]; [reflexivity|].
    destruct Hinv as (Hs & _). cbn [size]. lia.
  - now intros ->.
Qed.

Lemma get_value_address_at_rank t (i : nat) n :
  at_rank t i n -> get_value_address n = nth_error (inorder t) i.
Proof.
  intros Hr. rewrite (at_rank_nth V t i n Hr).
  destruct n as [|p l r s v]; [now apply at_rank_not_null in Hr|].
  cbn [get_value_address get_left inorder].
  rewrite <- (inorder_length V l). symmetry. apply nth_error_middle.
Qed.

(** Repositioning at a rank up to [size] gives the iterator of that rank;
    beyond [size] the rank query throws. *)
Lemma reposition_at t (i : nat) :
  size_inv t -> i <= count t ->
  reposition t (N.of_nat i) = Ok (iterator_at t i).
Proof.
  intros Hinv Hi. unfold reposition, iterator_at.
  pose proof (size_count V t Hinv) as Hsz.
  destruct (Nat.eq_dec i (count t)) as [->|Hne].
  - unfold node_of_order. rewrite <- Hsz, N.eqb_refl. cbn.
    replace (nth_error (inorder t) (count t)) with (@None V); [reflexivity|].
    symmetry. apply nth_error_None. rewrite inorder_length. lia.
  - destruct (node_of_order_in_range V t (N.of_nat i) Hinv) as (n & Hn & Hr);
      [lia|].
    rewrite Hn. cbn [result_bind]. rewrite Nat2N.id in Hr.
    now rewrite (get_value_address_at_rank t i n Hr).
Qed.

Lemma reposition_beyond t (index : N) :
  (size t < index)%N -> reposition t index = Throw out_of_range.
Proof.
  intros Hgt. unfold reposition, node_of_order.
  destruct (N.eqb_spec index (size t)) as [?|_]; [lia|].
  destruct (N.ltb_spec (size t) index) as [_|?]; [reflexivity|lia].
Qed.

Lemma cbegin_at t : size_inv t -> cbegin t = Ok (iterator_at t 0).
Proof.
  intros Hinv. unfold cbegin.
  destruct (empty t) eqn:He.
  - apply (empty_iff_null t Hinv) in He. now subst t.
  - assert (Hne : t <> nullptr).
    { intros ->. discriminate. }
    destruct t as [|p l r s v]; [contradiction|].
    destruct (node_of_order_in_range V _ 0%N Hinv) as (n & Hn & Hr).
    { destruct Hinv as (Hs & _). cbn [size]. lia. }
    rewrite Hn. cbn [result_bind]. change (N.to_nat 0) with 0 in Hr.
    pose proof (get_value_address_at_rank _ _ n Hr) as Hv.
    destruct n as [|pn ln rn sn vn]; [now apply at_rank_not_null in Hr|].
    cbn [get_value_address] in Hv. unfold iterator_at.
    now rewrite <- Hv.
Qed.

Lemma skipn_nth_cons (A : Type) (l : list A) (i : nat) (a : A) :
  nth_error l i = Some a -> skipn i l = a :: skipn (S i) l.
Proof.
  revert i. induction l as [|b l IH]; intros [|i] H; try discriminate.
  - now injection H as ->.
  - cbn [skipn]. now apply IH.
Qed.

Lemma for_each_from_at t (fuel : nat) :
  size_inv t -> (size t < size_type_bound)%N ->
  forall i, count t <= fuel + i ->
    for_each_from fuel t (iterator_at t i) = Some (Ok (skipn i (inorder t))).
Proof.
  intros Hinv Hfit. pose proof (size_count V t Hinv) as Hsz.
  induction fuel as [|fuel IH]; intros i Hi.
  - cbn. replace (nth_error (inorder t) i) with (@None V).
    + rewrite skipn_all2; [reflexivity|]. rewrite inorder_length. lia.
    + symmetry. apply nth_error_None. rewrite inorder_length. lia.
  - cbn [for_each_from iterator_at _value].
    destruct (nth_error (inorder t) i) as [v|] eqn:Hv.
    + assert (Hlt : i < count t).
      { rewrite <- inorder_length. apply nth_error_Some. congruence. }
      unfold increment. change (_index (iterator_at t i)) with (N.of_nat i).
      rewrite N.mod_small by (unfold size_type_bound in *; lia).
      replace (N.of_nat i + 1)%N with (N.of_nat (S i)) by lia.
      rewrite reposition_at by (auto; lia).
      rewrite IH by lia. now rewrite (skipn_nth_cons V _ i v Hv).
    + rewrite skipn_all2; [reflexivity|]. now apply nth_error_None.
Qed.

End IteratorFacts.

(** X1: in a tree that satisfies the size invariant [size()] is the number of
    elements, and [empty()] holds exactly when there is none. *)
Theorem size_counts_elements (V : Type) (t : treap_node V) :
  size_inv t ->
  size t = N.of_nat (length (inorder t))
  /\ (empty t = true <-> inorder t = []).
Proof.
  intros Hinv. split.
  - now rewrite (size_count V t Hinv), inorder_length.
  - rewrite (empty_iff_null V t Hinv). split; [now intros ->|].
    apply inorder_nil_null.
Qed.

Lemma size_counts_elements_witness :
  size sample_tree = 4%N /\ (empty sample_tree = true <-> inorder sample_tree = []).
Proof. exact (size_counts_elements Z sample_tree sample_tree_size_inv). Defined.

(** X2: [begin() + n] designates the element of in-order rank [n] when
    [n < size], is [end()] when [n = size], and throws [std::out_of_range]
    when [n > size]; dereferencing gives the payload, and is undefined at
    [end()]. *)
Theorem iterator_random_access (V : Type) (t : treap_node V) (n : N) :
  size_inv t -> (n < size_type_bound)%N ->
  let reached := result_bind (cbegin t) (fun it => advance t it (Z.of_N n)) in
  ((n < size t)%N ->
     exists v, nth_error (inorder t) (N.to_nat n) = Some v
               /\ reached = Ok {| _value := Some v; _index := n |}
               /\ result_bind reached (@dereference V) = Ok v)
  /\ (n = size t ->
        reached = Ok (cend t)
        /\ result_bind reached (@dereference V) = Undefined)
  /\ ((size t < n)%N -> reached = Throw out_of_range).
Proof.
  intros Hinv Hn reached. pose proof (size_count V t Hinv) as Hsz.
  assert (Hr : reached = reposition t n).
  { subst reached. rewrite (cbegin_at V t Hinv). cbn [result_bind].
    unfold advance, iterator_at. cbn [_index].
    change (Z.of_N (N.of_nat 0)) with 0%Z. rewrite Z.add_0_l.
    rewrite Z.mod_small by (unfold size_type_bound in *; lia).
    now rewrite N2Z.id. }
  rewrite Hr. clear Hr reached.
  split; [|split].
  - intros Hlt.
    pose proof (reposition_at V t (N.to_nat n) Hinv) as Hp.
    rewrite N2Nat.id in Hp. rewrite Hp by lia. unfold iterator_at.
    rewrite N2Nat.id.
    destruct (nth_error (inorder t) (N.to_nat n)) as [v|] eqn:Hv.
    + exists v. auto.
    + apply nth_error_None in Hv. rewrite inorder_length in Hv. lia.
  - intros ->.
    pose proof (reposition_at V t (count t) Hinv (Nat.le_refl _)) as Hp.
    rewrite <- Hsz in Hp. rewrite Hp. unfold iterator_at, cend.
    replace (nth_error (inorder t) (count t)) with (@None V).
    + rewrite <- Hsz. split; reflexivity.
    + symmetry. apply nth_error_None. rewrite inorder_length. lia.
  - apply reposition_beyond.
Qed.

Lemma iterator_random_access_witness :
  result_bind (cbegin sample_tree) (fun it => advance sample_tree it 5)
  = Throw out_of_range.
Proof.
  refine (proj2 (proj2 (iterator_random_access Z sample_tree 5
                          sample_tree_size_inv _)) _); reflexivity.
Defined.

Section IteratorSteps.

Variable V : Type.
Implicit Types t : treap_node V.

Lemma cend_at t : size_inv t -> cend t = iterator_at t (count t).
Proof.
  intros Hinv. unfold cend, iterator_at.
  rewrite (size_count V t Hinv). f_equal.
  symmetry. apply nth_error_None. rewrite inorder_length. lia.
Qed.

Lemma cbegin_advance t (n : N) :
  size_inv t -> (n < size_type_bound)%N ->
  result_bind (cbegin t) (fun it => advance t it (Z.of_N n)) = reposition t n.
Proof.
  intros Hinv Hn. rewrite (cbegin_at V t Hinv). cbn [result_bind].
  unfold advance, iterator_at. cbn [_index].
  change (Z.of_N (N.of_nat 0)) with 0%Z. rewrite Z.add_0_l.
  rewrite Z.mod_small by (unfold size_type_bound in *; lia).
  now rewrite N2Z.id.
Qed.

Lemma increment_at t (i : nat) :
  size_inv t -> (size t < size_type_bound)%N -> i < count t ->
  increment t (iterator_at t i) = Ok (iterator_at t (S i)).
Proof.
  intros Hinv Hfit Hi. pose proof (size_count V t Hinv) as Hsz.
  unfold increment. change (_index (iterator_at t i)) with (N.of_nat i).
  rewrite N.mod_small by (unfold size_type_bound in *; lia).
  replace (N.of_nat i + 1)%N with (N.of_nat (S i)) by lia.
  apply reposition_at; [assumption|lia].
Qed.

Lemma decrement_at t (i : nat) :
  size_inv t -> (size t < size_type_bound)%N -> i < count t ->
  decrement t (iterator_at t (S i)) = Ok (iterator_at t i).
Proof.
  intros Hinv Hfit Hi. pose proof (size_count V t Hinv) as Hsz.
  unfold decrement. change (_index (iterator_at t (S i))) with (N.of_nat (S i)).
  replace (N.of_nat (S i) + size_type_bound - 1)%N
    with (N.of_nat i + 1 * size_type_bound)%N by lia.
  rewrite N.Div0.mod_add.
  rewrite N.mod_small by (unfold size_type_bound in *; lia).
  apply reposition_at; [assumption|lia].
Qed.

End IteratorSteps.

(** X3: stepping an iterator.  [++] moves from rank [i < size] to rank
    [i + 1] (which is [end()] after the last element) and [--] moves back;
    [++] on [end()] throws [std::out_of_range]; [--] on an iterator of rank 0
    wraps the rank around and throws [std::out_of_range] too. *)
Theorem iterator_stepping (V : Type) (t : treap_node V)
    (it0 : common_iterator V) :
  size_inv t -> (size t + 1 < size_type_bound)%N -> _index it0 = 0%N ->
  (forall i, i < count t ->
     increment t (iterator_at t i) = Ok (iterator_at t (S i))
     /\ decrement t (iterator_at t (S i)) = Ok (iterator_at t i))
  /\ iterator_at t (count t) = cend t
  /\ increment t (cend t) = Throw out_of_range
  /\ decrement t it0 = Throw out_of_range.
Proof.
  intros Hinv Hfit H0.
  assert (Hfit' : (size t < size_type_bound)%N) by lia.
  split; [|split; [|split]].
  - intros i Hi. split.
    + now apply increment_at.
    + now apply decrement_at.
  - symmetry. now apply cend_at.
  - unfold increment, cend. cbn [_index].
    rewrite N.mod_small by lia. apply reposition_beyond. lia.
  - unfold decrement. rewrite H0. apply reposition_beyond.
    unfold size_type_bound in *.
    change ((0 + 2 ^ 64 - 1) mod 2 ^ 64)%N with (2 ^ 64 - 1)%N. lia.
Qed.

Lemma iterator_stepping_witness :
  increment sample_tree (cend sample_tree) = Throw out_of_range
  /\ decrement sample_tree (iterator_at sample_tree 0) = Throw out_of_range
  /\ increment sample_tree (iterator_at sample_tree 3)
     = Ok (cend sample_tree).
Proof.
  destruct (iterator_stepping Z sample_tree (iterator_at sample_tree 0)
              sample_tree_size_inv) as (H1 & H2 & H3 & H4);
    [reflexivity|reflexivity|].
  split; [exact H3|]. split; [exact H4|].
  rewrite <- H2. apply H1. simpl. lia.
Defined.

(** X4: the loop [for (it = begin(); it != end(); ++it)] over a container
    that satisfies the size invariant ends without throwing and visits the
    elements in in-order, each once; as many steps as there are elements
    suffice. *)
Theorem range_for_visits_in_order (V : Type) (t : treap_node V) (fuel : nat) :
  size_inv t -> (size t < size_type_bound)%N -> count t <= fuel ->
  for_each fuel t = Some (Ok (inorder t)).
Proof.
  intros Hinv Hfit Hfuel. unfold for_each.
  rewrite (cbegin_at V t Hinv).
  rewrite (for_each_from_at V t fuel Hinv Hfit 0) by lia.
  reflexivity.
Qed.

Lemma range_for_visits_in_order_witness :
  for_each 4 sample_tree = Some (Ok [1%Z; 3%Z; 5%Z; 8%Z]).
Proof.
  refine (range_for_visits_in_order Z sample_tree 4 sample_tree_size_inv _ _).
  - reflexivity.
  - simpl. lia.
Defined.

(** X5: [operator[](index)] of the implicit treap returns the element at
    position [index] when [index < size]; at [index = size] it dereferences
    the null payload of [end()], which is undefined; beyond [size] it throws
    [std::out_of_range]. *)
Theorem subscript_by_position (T : Type) (t : treap_node T) (index : N) :
  size_inv t -> (index < size_type_bound)%N ->
  ((index < size t)%N ->
     exists v, nth_error (inorder t) (N.to_nat index) = Some v
               /\ implicit_treap.subscript index t = Ok v)
  /\ (index = size t -> implicit_treap.subscript index t = Undefined)
  /\ ((size t < index)%N ->
        implicit_treap.subscript index t = Throw out_of_range).
Proof.
  intros Hinv Hn. pose proof (size_count T t Hinv) as Hsz.
  assert (Hs : implicit_treap.subscript index t
               = result_bind (reposition t index) (@dereference T)).
  { unfold implicit_treap.subscript.
    rewrite <- (cbegin_advance T t index Hinv Hn).
    now destruct (cbegin t). }
  rewrite Hs. split; [|split].
  - intros Hlt.
    pose proof (reposition_at T t (N.to_nat index) Hinv) as Hp.
    rewrite N2Nat.id in Hp. rewrite Hp by lia. unfold iterator_at.
    destruct (nth_error (inorder t) (N.to_nat index)) as [v|] eqn:Hv.
    + exists v. split; reflexivity.
    + apply nth_error_None in Hv. rewrite inorder_length in Hv. lia.
  - intros ->.
    pose proof (reposition_at T t (count t) Hinv (Nat.le_refl _)) as Hp.
    rewrite <- Hsz in Hp. rewrite Hp, <- (cend_at T t Hinv). reflexivity.
  - intros Hgt. now rewrite reposition_beyond.
Qed.

Lemma subscript_by_position_witness :
  (exists v, nth_error (inorder sample_tree) (N.to_nat 2) = Some v
             /\ implicit_treap.subscript 2 sample_tree = Ok v)
  /\ implicit_treap.subscript 4 sample_tree = Undefined
  /\ implicit_treap.subscript 0 (@nullptr Z) = Undefined.
Proof.
  destruct (subscript_by_position Z sample_tree 2 sample_tree_size_inv)
    as (H1 & _); [reflexivity|].
  destruct (subscript_by_position Z sample_tree 4 sample_tree_size_inv)
    as (_ & H2 & _); [reflexivity|].
  destruct (subscript_by_position Z nullptr 0 I) as (_ & H3 & _);
    [reflexivity|].
  split; [apply H1; reflexivity|]. split; [apply H2|apply H3]; reflexivity.
Defined.

(** ** The implicit treap as a sequence (implicit_treap.hpp) *)

Section ImplicitSequence.

Variable T : Type.
Implicit Types t : treap_node T.

Lemma isplit_inorder t (index : N) :
  size_inv t ->
  inorder (fst (implicit_treap.split t index))
  = firstn (N.to_nat index) (inorder t)
  /\ inorder (snd (implicit_treap.split t index))
     = skipn (N.to_nat index) (inorder t).
Proof.
  intros Hinv. destruct (isplit_nodes T t index Hinv) as (Hf & Hk).
  rewrite <- !inorder_nodes, Hf, Hk. now rewrite firstn_map, skipn_map.
Qed.

Lemma isplit_tie_heap t (index : N) :
  tie_heap t ->
  tie_heap (fst (implicit_treap.split t index))
  /\ tie_heap (snd (implicit_treap.split t index))
  /\ (forall q, prio_le t q ->
        prio_le (fst (implicit_treap.split t index)) q
        /\ prio_le (snd (implicit_treap.split t index)) q)
  /\ (forall q, prio_lt t q ->
        prio_lt (fst (implicit_treap.split t index)) q
        /\ prio_lt (snd (implicit_treap.split t index)) q).
Proof.
  revert index.
  induction t as [|p l IHl r IHr s v]; intros index Ht; [cbn; auto|].
  pose proof Ht as (Hpl & Hpr & Hl & Hr). rewrite isplit_node.
  destruct (index <=? 0)%N;
    [cbn [fst snd prio_le prio_lt tie_heap]; repeat split; auto|].
  destruct (s <=? index)%N;
    [cbn [fst snd prio_le prio_lt tie_heap]; repeat split; auto|].
  destruct (size l <? index)%N; cbn [fst snd].
  - destruct (IHr (index - size l - 1)%N Hr) as (Hf & Hk & Hle & Hlt).
    destruct (Hlt p Hpr) as (Hqf & Hqk).
    split; [node_simpl; cbn [tie_heap]; auto|]. split; [assumption|]. split.
    + intros q Hpq. split; [exact Hpq|].
      eapply prio_le_trans; [apply prio_lt_le; exact Hqk|exact Hpq].
    + intros q Hpq. split; [exact Hpq|].
      eapply prio_lt_le_trans; [exact Hqk|]. simpl in Hpq. lia.
  - destruct (IHl index Hl) as (Hf & Hk & Hle & Hlt).
    destruct (Hle p Hpl) as (Hqf & Hqk).
    split; [assumption|]. split; [node_simpl; cbn [tie_heap]; auto|]. split.
    + intros q Hpq. split; [|exact Hpq].
      eapply prio_le_trans; [exact Hqf|exact Hpq].
    + intros q Hpq. split; [|exact Hpq].
      eapply prio_le_lt_trans; [exact Hqf|exact Hpq].
Qed.

Lemma isplit_merge_id t (index : N) :
  tie_heap t -> size_inv t ->
  implicit_treap.merge (fst (implicit_treap.split t index))
    (snd (implicit_treap.split t index)) = t.
Proof.
  revert index.
  induction t as [|p l IHl r IHr s v]; intros index Ht Hs; [reflexivity|].
  pose proof Ht as (Hpl & Hpr & Hl & Hr). pose proof Hs as (Hsz & Hsl & Hsr).
  rewrite isplit_node.
  destruct (index <=? 0)%N; [reflexivity|].
  destruct (s <=? index)%N; [reflexivity|].
  destruct (size l <? index)%N; cbn [fst snd].
  - destruct (isplit_tie_heap r (index - size l - 1)%N Hr) as (_ & _ & _ & Hlt).
    destruct (Hlt p Hpr) as (_ & Hqk).
    specialize (IHr (index - size l - 1)%N Hr Hsr).
    destruct (snd (implicit_treap.split r (index - size l - 1)))
      as [|p2 l2 r2 s2 v2].
    + rewrite rmerge_null_r in *. rewrite IHr. node_simpl. f_equal. lia.
    + node_simpl. rewrite rmerge_node.
      destruct (N.ltb_spec p2 p); [|lia].
      node_simpl. rewrite IHr. f_equal. lia.
  - destruct (isplit_tie_heap l index Hl) as (_ & _ & Hle & _).
    destruct (Hle p Hpl) as (Hqf & _).
    specialize (IHl index Hl Hsl).
    destruct (fst (implicit_treap.split l index)) as [|p1 l1 r1 s1 v1].
    + rewrite rmerge_null_l in *. rewrite IHl. node_simpl. f_equal. lia.
    + node_simpl. rewrite rmerge_node.
      destruct (N.ltb_spec p p1); [lia|].
      node_simpl. rewrite IHl. f_equal. lia.
Qed.

Lemma emplace_tie_heap t (index priority : N) (value : T) :
  tie_heap t -> tie_heap (snd (implicit_treap.emplace index priority value t)).
Proof.
  intros Ht. unfold implicit_treap.emplace, implicit_treap.insert_node.
  cbn [snd].
  set (i := if (size t <? index)%N then size t else index).
  destruct (isplit_tie_heap t i Ht) as (Hf & Hk & _).
  destruct (implicit_treap.split t i) as [left right]. cbn [fst snd] in *.
  apply rmerge_tie_heap; [|exact Hk].
  apply rmerge_tie_heap; [exact Hf|]. cbn. auto.
Qed.

Lemma erase_tie_heap t (index : N) :
  tie_heap t -> tie_heap (implicit_treap.erase index t).
Proof.
  intros Ht. unfold implicit_treap.erase.
  destruct (size t <=? index)%N; [exact Ht|].
  unfold implicit_treap.detach_node_with_index.
  destruct (isplit_tie_heap t index Ht) as (Hf & Hk & _).
  destruct (implicit_treap.split t index) as [left included_index].
  cbn [fst snd] in *.
  destruct (isplit_tie_heap included_index 1 Hk) as (_ & Hk2 & _).
  destruct (implicit_treap.split included_index 1) as [index_node right].
  cbn [fst snd] in *. now apply rmerge_tie_heap.
Qed.

Lemma implicit_apply_tie_heap (op : implicit_op T) t :
  tie_heap t -> tie_heap (implicit_apply op t).
Proof.
  intros Ht. destruct op; cbn [implicit_apply];
    unfold implicit_treap.insert, implicit_treap.push_back,
      implicit_treap.emplace_back, implicit_treap.push_front,
      implicit_treap.emplace_front, implicit_treap.pop_back,
      implicit_treap.pop_front;
    auto using emplace_tie_heap, erase_tie_heap.
Qed.

Lemma implicit_run_tie_heap (ops : list (implicit_op T)) :
  tie_heap (implicit_run ops).
Proof.
  unfold implicit_run.
  apply (fold_left_invariant _ _ (fun t op => implicit_apply op t)
           (@tie_heap T)).
  - intros s a. apply implicit_apply_tie_heap.
  - exact I.
Qed.

Lemma emplace_size t (index priority : N) (value : T) :
  size_inv t ->
  size (snd (implicit_treap.emplace index priority value t)) = (size t + 1)%N.
Proof.
  intros Hinv.
  rewrite (size_count T _ (emplace_size_inv T t index priority value Hinv)).
  rewrite (size_count T t Hinv), <- !inorder_length.
  rewrite emplace_inorder by assumption.
  rewrite length_app. cbn [length]. rewrite length_firstn, length_skipn.
  assert (N.to_nat (clamp index t) <= length (inorder t)).
  { unfold clamp. rewrite inorder_length, (size_count T t Hinv). lia. }
  lia.
Qed.

Lemma pop_back_index t :
  (0 < size t)%N -> (size t < implicit_treap.size_type_modulus)%N ->
  ((size t + implicit_treap.size_type_modulus - 1)
     mod implicit_treap.size_type_modulus = size t - 1)%N.
Proof.
  intros Hpos Hfit.
  replace (size t + implicit_treap.size_type_modulus - 1)%N
    with (size t - 1 + 1 * implicit_treap.size_type_modulus)%N by lia.
  rewrite N.Div0.mod_add. apply N.mod_small. lia.
Qed.

Lemma pop_back_inorder t :
  size_inv t -> (size t < implicit_treap.size_type_modulus)%N ->
  inorder (implicit_treap.pop_back t) = removelast (inorder t).
Proof.
  intros Hinv Hfit. pose proof (size_count T t Hinv) as Hsz.
  unfold implicit_treap.pop_back.
  destruct (N.eq_dec (size t) 0) as [H0|H0].
  - rewrite erase_out_of_range.
    + assert (Hnull : inorder t = []).
      { apply length_zero_iff_nil. rewrite inorder_length. lia. }
      now rewrite Hnull.
    + rewrite H0. apply N.le_0_l.
  - rewrite pop_back_index by lia.
    rewrite erase_inorder by (assumption || lia).
    rewrite skipn_all2 by (rewrite inorder_length; lia).
    rewrite app_nil_r, removelast_firstn_len. f_equal.
    rewrite inorder_length. lia.
Qed.

Lemma pop_front_inorder t :
  size_inv t -> inorder (implicit_treap.pop_front t) = tl (inorder t).
Proof.
  intros Hinv. pose proof (size_count T t Hinv) as Hsz.
  unfold implicit_treap.pop_front.
  destruct (N.eq_dec (size t) 0) as [H0|H0].
  - rewrite erase_out_of_range by lia.
    assert (Hnull : inorder t = []).
    { apply length_zero_iff_nil. rewrite inorder_length. lia. }
    now rewrite Hnull.
  - rewrite erase_inorder by (assumption || lia).
    change (N.to_nat 0) with 0. now destruct (inorder t).
Qed.

Lemma push_back_inorder t (value : T) (priority : N) :
  size_inv t ->
  inorder (snd (implicit_treap.push_back value priority t))
  = inorder t ++ [value].
Proof.
  intros Hinv. unfold implicit_treap.push_back, implicit_treap.emplace_back.
  rewrite emplace_inorder by assumption. unfold clamp. rewrite N.min_id.
  rewrite firstn_all2, skipn_all2
    by (rewrite inorder_length, (size_count T t Hinv); lia).
  reflexivity.
Qed.

Lemma push_front_inorder t (value : T) (priority : N) :
  size_inv t ->
  inorder (snd (implicit_treap.push_front value priority t))
  = value :: inorder t.
Proof.
  intros Hinv. unfold implicit_treap.push_front, implicit_treap.emplace_front.
  rewrite emplace_inorder by assumption. unfold clamp.
  rewrite N.min_l by lia. reflexivity.
Qed.

End ImplicitSequence.

(** Removing position [m] of a list: what each position holds afterwards. *)
Lemma list_erase_positions (A : Type) (l : list A) (m : nat) :
  m < length l ->
  length (firstn m l ++ skipn (S m) l) = length l - 1
  /\ (forall i, i < m ->
        nth_error (firstn m l ++ skipn (S m) l) i = nth_error l i)
  /\ (forall i, m <= i ->
        nth_error (firstn m l ++ skipn (S m) l) i = nth_error l (S i)).
Proof.
  intros Hm.
  assert (Hlen : length (firstn m l) = m) by (apply firstn_length_le; lia).
  split; [|split].
  - rewrite length_app, Hlen, length_skipn. lia.
  - intros i Hi. rewrite nth_error_app1 by lia.
    rewrite nth_error_firstn.
    destruct (Nat.ltb_spec i m); [reflexivity|lia].
  - intros i Hi. rewrite nth_error_app2 by lia. rewrite Hlen.
    rewrite nth_error_skipn. f_equal. lia.
Qed.

(** X6: [erase(index)] of the implicit treap with [index < size] removes
    exactly the element at that position: the elements before keep their
    positions, the elements after move one place left, the size drops by one
    and the size invariant is kept. *)
Theorem implicit_erase_at_index (T : Type) (t : treap_node T) (index : N) :
  size_inv t -> (index < size t)%N ->
  let m := N.to_nat index in
  let t' := implicit_treap.erase index t in
  inorder t' = firstn m (inorder t) ++ skipn (S m) (inorder t)
  /\ size t' = (size t - 1)%N
  /\ size_inv t'
  /\ (forall i, i < m -> nth_error (inorder t') i = nth_error (inorder t) i)
  /\ (forall i, m <= i ->
        nth_error (inorder t') i = nth_error (inorder t) (S i)).
Proof.
  intros Hinv Hlt m t'. pose proof (size_count T t Hinv) as Hsz.
  assert (Hinv' : size_inv t') by now apply erase_size_inv.
  assert (Ht' : inorder t' = firstn m (inorder t) ++ skipn (S m) (inorder t))
    by now apply erase_inorder.
  assert (Hm : m < length (inorder t)) by (rewrite inorder_length; lia).
  destruct (list_erase_positions T (inorder t) m Hm) as (Hl & Hb & Ha).
  split; [exact Ht'|]. split; [|split; [exact Hinv'|]].
  - rewrite (size_count T t' Hinv'), <- inorder_length, Ht', Hl.
    rewrite inorder_length. lia.
  - rewrite Ht'. split; [exact Hb|exact Ha].
Qed.

Lemma implicit_erase_at_index_witness :
  inorder (implicit_treap.erase 1 sample_tree) = [1%Z; 5%Z; 8%Z]
  /\ size (implicit_treap.erase 1 sample_tree) = 3%N.
Proof.
  destruct (implicit_erase_at_index Z sample_tree 1 sample_tree_size_inv)
    as (H1 & H2 & _); [reflexivity|].
  split; [exact H1|exact H2].
Defined.

(** X7: the two ends of the implicit treap.  [push_back] appends and
    [push_front] prepends the value; [pop_back] drops the last and
    [pop_front] the first element, and both leave an empty container empty;
    a pop undoes the push at the same end. *)
Theorem implicit_push_pop_ends (T : Type) (t : treap_node T)
    (value : T) (priority : N) :
  size_inv t -> (size t + 1 < implicit_treap.size_type_modulus)%N ->
  inorder (snd (implicit_treap.push_back value priority t))
  = inorder t ++ [value]
  /\ inorder (snd (implicit_treap.push_front value priority t))
     = value :: inorder t
  /\ inorder (implicit_treap.pop_back t) = removelast (inorder t)
  /\ inorder (implicit_treap.pop_front t) = tl (inorder t)
  /\ inorder (implicit_treap.pop_back
                (snd (implicit_treap.push_back value priority t)))
     = inorder t
  /\ inorder (implicit_treap.pop_front
                (snd (implicit_treap.push_front value priority t)))
     = inorder t.
Proof.
  intros Hinv Hfit.
  split; [now apply push_back_inorder|].
  split; [now apply push_front_inorder|].
  split; [apply pop_back_inorder; [assumption|lia]|].
  split; [now apply pop_front_inorder|]. split.
  - rewrite pop_back_inorder.
    + rewrite push_back_inorder by assumption. apply removelast_last.
    + apply emplace_size_inv, Hinv.
    + unfold implicit_treap.push_back, implicit_treap.emplace_back.
      rewrite emplace_size by assumption. exact Hfit.
  - rewrite pop_front_inorder by (apply emplace_size_inv, Hinv).
    now rewrite push_front_inorder.
Qed.

Lemma implicit_push_pop_ends_witness :
  inorder (snd (implicit_treap.push_back 9%Z 5 sample_tree))
  = [1%Z; 3%Z; 5%Z; 8%Z; 9%Z]
  /\ inorder (implicit_treap.pop_back sample_tree) = [1%Z; 3%Z; 5%Z]
  /\ inorder (implicit_treap.pop_front sample_tree) = [3%Z; 5%Z; 8%Z].
Proof.
  destruct (implicit_push_pop_ends Z sample_tree 9%Z 5 sample_tree_size_inv)
    as (H1 & _ & H3 & H4 & _); [reflexivity|].
  split; [exact H1|]. split; [exact H3|exact H4].
Defined.

(** X8: erasing the position an [insert(value, index)] put its element at
    gives back the sequence the container held before. *)
Theorem implicit_insert_then_erase (T : Type) (t : treap_node T)
    (value : T) (index priority : N) :
  size_inv t ->
  inorder (implicit_treap.erase (N.min index (size t))
             (snd (implicit_treap.insert value index priority t)))
  = inorder t.
Proof.
  intros Hinv. pose proof (size_count T t Hinv) as Hsz.
  unfold implicit_treap.insert.
  rewrite erase_inorder.
  - rewrite emplace_inorder by assumption. unfold clamp.
    set (m := N.to_nat (N.min index (size t))).
    assert (Hm : m <= length (inorder t))
      by (subst m; rewrite inorder_length; lia).
    assert (Hlen : length (firstn m (inorder t)) = m)
      by now apply firstn_length_le.
    rewrite firstn_app, skipn_app, Hlen.
    rewrite firstn_all2 by lia.
    rewrite (@skipn_all2 _ (S m) (firstn m (inorder t))) by lia.
    replace (m - m) with 0 by lia. replace (S m - m) with 1 by lia.
    cbn [firstn skipn app]. rewrite app_nil_r. apply firstn_skipn.
  - now apply emplace_size_inv.
  - rewrite emplace_size by assumption. lia.
Qed.

Lemma implicit_insert_then_erase_witness :
  inorder (implicit_treap.erase 2
             (snd (implicit_treap.insert 4%Z 2 6 sample_tree)))
  = [1%Z; 3%Z; 5%Z; 8%Z].
Proof.
  exact (implicit_insert_then_erase Z sample_tree 4%Z 2 6 sample_tree_size_inv).
Defined.

(** X9: [split(node, index)] of the implicit treap cuts the sequence after
    its first [index] elements (nothing on the left for [index = 0],
    everything for [index >= size]), and [merge] of the two halves is the
    tree that was split, node for node, when priorities obey the heap order
    with the tie rule of [merge]. *)
Theorem implicit_split_then_merge (T : Type) (t : treap_node T) (index : N) :
  size_inv t -> tie_heap t ->
  let halves := implicit_treap.split t index in
  inorder (fst halves) = firstn (N.to_nat index) (inorder t)
  /\ inorder (snd halves) = skipn (N.to_nat index) (inorder t)
  /\ size (fst halves) = N.min index (size t)
  /\ size_inv (fst halves) /\ size_inv (snd halves)
  /\ implicit_treap.merge (fst halves) (snd halves) = t.
Proof.
  intros Hinv Ht halves. subst halves.
  destruct (isplit_inorder T t index Hinv) as (Hf & Hk).
  destruct (isplit_size_inv T t index Hinv) as (Hsf & Hsk).
  split; [exact Hf|]. split; [exact Hk|]. split; [|split; [exact Hsf|split]].
  - rewrite (size_count T _ Hsf), <- inorder_length, Hf, length_firstn.
    rewrite inorder_length. pose proof (size_count T t Hinv). lia.
  - exact Hsk.
  - now apply isplit_merge_id.
Qed.

Lemma sample_tree_tie_heap : tie_heap sample_tree.
Proof. cbn. repeat split; lia. Qed.

Lemma implicit_split_then_merge_witness :
  inorder (fst (implicit_treap.split sample_tree 3)) = [1%Z; 3%Z; 5%Z]
  /\ inorder (snd (implicit_treap.split sample_tree 3)) = [8%Z]
  /\ implicit_treap.merge (fst (implicit_treap.split sample_tree 3))
       (snd (implicit_treap.split sample_tree 3)) = sample_tree.
Proof.
  destruct (implicit_split_then_merge Z sample_tree 3 sample_tree_size_inv
              sample_tree_tie_heap) as (H1 & H2 & _ & _ & _ & H3).
  split; [exact H1|]. split; [exact H2|exact H3].
Defined.

(** ** The key-ordered treap as a sorted list (treap.hpp) *)

Section FilterFacts.

Variable A : Type.
Implicit Types f g : A -> bool.

Lemma filter_all_true f (l : list A) :
  (forall x, In x l -> f x = true) -> filter f l = l.
Proof.
  induction l as [|a l IH]; intros H; [reflexivity|].
  cbn [filter]. rewrite (H a) by now left.
  f_equal. apply IH. intros x Hx. apply H. now right.
Qed.

Lemma filter_all_false f (l : list A) :
  (forall x, In x l -> f x = false) -> filter f l = [].
Proof.
  induction l as [|a l IH]; intros H; [reflexivity|].
  cbn [filter]. rewrite (H a) by now left.
  apply IH. intros x Hx. apply H. now right.
Qed.

Lemma partition_filter f (l1 l2 : list A) :
  (forall x, In x l1 -> f x = true) -> (forall y, In y l2 -> f y = false) ->
  filter f (l1 ++ l2) = l1 /\ filter (fun x => negb (f x)) (l1 ++ l2) = l2.
Proof.
  intros H1 H2. rewrite !filter_app. split.
  - rewrite (filter_all_true f l1 H1), (filter_all_false f l2 H2).
    apply app_nil_r.
  - rewrite (filter_all_false (fun x => negb (f x)) l1),
      (filter_all_true (fun x => negb (f x)) l2); [reflexivity| |].
    + intros y Hy. now rewrite (H2 y Hy).
    + intros x Hx. now rewrite (H1 x Hx).
Qed.

Lemma find_filter f g (l : list A) :
  find f (filter g l) = find (fun x => g x && f x) l.
Proof.
  induction l as [|a l IH]; [reflexivity|].
  cbn [filter find]. destruct (g a); cbn [andb find]; [|exact IH].
  now destruct (f a).
Qed.

Lemma find_agree f g (l : list A) :
  (forall x, In x l -> f x = g x) -> find f l = find g l.
Proof.
  induction l as [|a l IH]; intros H; [reflexivity|].
  cbn [find]. rewrite (H a) by now left.
  destruct (g a); [reflexivity|]. apply IH. intros x Hx. apply H. now right.
Qed.

(** A test that implies the filter's test finds the same element in the
    filtered list. *)
Lemma find_filter_implied f g (l : list A) :
  (forall x, In x l -> f x = true -> g x = true) ->
  find f (filter g l) = find f l.
Proof.
  intros H. rewrite find_filter. apply find_agree.
  intros x Hx. destruct (f x) eqn:Hf.
  - now rewrite (H x Hx Hf).
  - apply andb_false_r.
Qed.

End FilterFacts.

Section KeyedQueries.

Variable V : Type.
Variable K : Type.
Variable get_key : V -> K.
Variable cmp : K -> K -> bool.

Hypothesis cmp_irrefl : forall x, cmp x x = false.
Hypothesis cmp_trans :
  forall x y z, cmp x y = true -> cmp y z = true -> cmp x z = true.

Implicit Types t a b n : treap_node V.

Lemma ksplit_filter (KeyIncluded : bool) (key : K) t :
  bst get_key cmp t ->
  inorder (fst (treap.split get_key cmp KeyIncluded t key))
  = filter (treap.split_compare get_key cmp KeyIncluded key) (inorder t)
  /\ inorder (snd (treap.split get_key cmp KeyIncluded t key))
     = filter (fun v => negb (treap.split_compare get_key cmp KeyIncluded key v))
         (inorder t).
Proof.
  intros Hb. rewrite ksplit_rec.
  destruct (split_rec_partition V K get_key cmp cmp_trans KeyIncluded key t Hb)
    as (H1 & H2).
  rewrite <- (split_rec_inorder V K get_key cmp KeyIncluded key t).
  destruct (partition_filter V _ _ _ H1 H2) as (E1 & E2).
  split; symmetry; assumption.
Qed.

Lemma kmerge_reversed a b :
  precedes get_key cmp a b ->
  treap.merge get_key cmp b a = implicit_treap.merge a b.
Proof.
  intros Hab. destruct b as [|p1 l1 r1 s1 v1].
  - rewrite rmerge_null_r.
    rewrite (kmerge_ordered V K get_key cmp cmp_irrefl cmp_trans nullptr a).
    + apply rmerge_null_l.
    + intros x y [].
  - destruct a as [|p2 l2 r2 s2 v2].
    + rewrite rmerge_null_l.
      rewrite (kmerge_ordered V K get_key cmp cmp_irrefl cmp_trans _ nullptr).
      * apply rmerge_null_r.
      * intros x y _ [].
    + rewrite kmerge_finish, merge_descend_node, rmerge_node.
      assert (Hc : cmp (get_key v2) (get_key v1) = true).
      { apply (Hab v2 v1); cbn [inorder]; apply in_elt. }
      rewrite Hc. destruct (p1 <? p2)%N.
      * rewrite (merge_descend_ordered V K get_key cmp cmp_irrefl cmp_trans);
          [reflexivity|].
        intros x y Hx Hy. apply Hab; [|exact Hy].
        cbn [inorder]. apply in_or_app. right. now right.
      * rewrite (merge_descend_ordered V K get_key cmp cmp_irrefl cmp_trans);
          [reflexivity|].
        intros x y Hx Hy. apply Hab; [exact Hx|].
        cbn [inorder]. apply in_or_app. now left.
Qed.

Lemma upper_bound_loop_find (key : K) n :
  forall res, bst get_key cmp n ->
    treap.make_iterator (treap.upper_bound_loop get_key cmp key n res)
    = match find (fun v => cmp key (get_key v)) (inorder n) with
      | Some w => Some w
      | None => treap.make_iterator res
      end.
Proof.
  induction n as [|p l IHl r IHr s v]; intros res Hb; [reflexivity|].
  apply (bst_node V K get_key cmp cmp_trans) in Hb as (Hl & Hr & Hlv & Hvr).
  cbn [treap.upper_bound_loop inorder]. rewrite find_app_split. cbn [find].
  destruct (cmp key (get_key v)) eqn:Hc.
  - rewrite (IHl _ Hl).
    now destruct (find (fun v0 => cmp key (get_key v0)) (inorder l)).
  - rewrite (find_all_false V (fun v0 => cmp key (get_key v0)) (inorder l)).
    + now apply IHr.
    + intros x Hx. destruct (cmp key (get_key x)) eqn:Hkx; [|reflexivity].
      rewrite <- Hc. symmetry.
      apply cmp_trans with (get_key x); [exact Hkx|now apply Hlv].
Qed.

Lemma lower_bound_first (key : K) t :
  bst get_key cmp t ->
  treap.lower_bound get_key cmp key t
  = find (not_below get_key cmp key) (inorder t).
Proof.
  intros Hb. unfold treap.lower_bound, treap.lower_bound_node.
  rewrite (lower_bound_loop_find V K get_key cmp cmp_trans) by assumption.
  now destruct (find (not_below get_key cmp key) (inorder t)).
Qed.

Lemma upper_bound_first (key : K) t :
  bst get_key cmp t ->
  treap.upper_bound get_key cmp key t
  = find (fun v => cmp key (get_key v)) (inorder t).
Proof.
  intros Hb. unfold treap.upper_bound, treap.upper_bound_node.
  rewrite upper_bound_loop_find by assumption.
  now destruct (find (fun v => cmp key (get_key v)) (inorder t)).
Qed.

Lemma node_of_key_spec (key : K) t :
  bst get_key cmp t ->
  match treap.node_of_key get_key cmp key t with
  | nullptr =>
      forall x, In x (inorder t) -> ~ equiv_key cmp (get_key x) key
  | Node _ _ _ _ w =>
      In w (inorder t) /\ equiv_key cmp (get_key w) key
  end.
Proof.
  induction t as [|p l IHl r IHr s v]; intros Hb; [intros x []|].
  apply (bst_node V K get_key cmp cmp_trans) in Hb as (Hl & Hr & Hlv & Hvr).
  cbn [treap.node_of_key].
  destruct (cmp key (get_key v)) eqn:Hkv.
  - specialize (IHl Hl).
    destruct (treap.node_of_key get_key cmp key l) as [|p' l' r' s' w].
    + intros x. cbn [inorder]. rewrite in_app_iff. cbn [In].
      intros [Hx|[<-|Hx]] (Hxk & Hkx).
      * apply (IHl x Hx). split; assumption.
      * congruence.
      * assert (cmp key (get_key x) = true); [|congruence].
        apply cmp_trans with (get_key v); [exact Hkv|now apply Hvr].
    + destruct IHl as (Hin & He). split; [|exact He].
      cbn [inorder]. apply in_or_app. now left.
  - destruct (cmp (get_key v) key) eqn:Hvk.
    + specialize (IHr Hr).
      destruct (treap.node_of_key get_key cmp key r) as [|p' l' r' s' w].
      * intros x. cbn [inorder]. rewrite in_app_iff. cbn [In].
        intros [Hx|[<-|Hx]] (Hxk & Hkx).
        -- assert (cmp (get_key x) key = true); [|congruence].
           apply cmp_trans with (get_key v); [now apply Hlv|exact Hvk].
        -- congruence.
        -- apply (IHr x Hx). split; assumption.
      * destruct IHr as (Hin & He). split; [|exact He].
        cbn [inorder]. apply in_or_app. right. now right.
    + split; [cbn [inorder]; apply in_elt|]. split; assumption.
Qed.


Lemma detach_inorder (EndIncluded : bool) (begin_key end_key : K) t :
  bst get_key cmp t ->
  inorder (fst (treap.detach_node_key_interval get_key cmp EndIncluded
                  begin_key end_key t))
  = filter (fun v => cmp (get_key v) begin_key
                     || negb (treap.split_compare get_key cmp EndIncluded
                                end_key v))
      (inorder t).
Proof.
  intros Hb.
  rewrite (detach_node_key_interval_rec V K get_key cmp cmp_irrefl cmp_trans
             EndIncluded begin_key end_key t Hb).
  cbn [fst]. rewrite rmerge_inorder.
  pose proof (split_rec_inorder V K get_key cmp false begin_key t) as Hi.
  destruct (split_rec_partition V K get_key cmp cmp_trans false begin_key t Hb)
    as (Hlt & Hge).
  destruct (split_rec get_key cmp false begin_key t) as [left rest].
  cbn [fst snd] in *. unfold treap.split_compare in Hlt, Hge.
  assert (Hbr : bst get_key cmp rest).
  { assert (Hsorted : StronglySorted (ltk get_key cmp)
                        (inorder left ++ inorder rest))
      by (rewrite Hi; exact Hb).
    now apply sorted_app in Hsorted as (_ & Hsorted & _). }
  pose proof (split_rec_inorder V K get_key cmp EndIncluded end_key rest) as Hi2.
  destruct (split_rec_partition V K get_key cmp cmp_trans EndIncluded end_key
              rest Hbr) as (Hin & Hout).
  destruct (split_rec get_key cmp EndIncluded end_key rest)
    as [interval right].
  cbn [fst snd] in *.
  rewrite <- Hi, <- Hi2, !filter_app.
  rewrite filter_all_true, filter_all_false, filter_all_true; [reflexivity| | |].
  - intros y Hy. rewrite (Hout y Hy). apply orb_true_r.
  - intros x Hx. rewrite (Hin x Hx), Hge; [reflexivity|].
    rewrite <- Hi2. apply in_or_app. now left.
  - intros x Hx. now rewrite (Hlt x Hx).
Qed.

End KeyedQueries.

(** X10: [split<KeyIncluded>(node, key)] of treap.hpp on an ordered tree
    puts on the left exactly the elements whose key is below [key] (not above
    [key] when [KeyIncluded]) and on the right the others, each side in its
    old order, ordered and with correct sizes; [merge] of the two sides is
    the tree that was split when priorities obey the heap order with the tie
    rule of [merge]. *)
Theorem keyed_split_partition (V K : Type) (get_key : V -> K)
    (cmp : K -> K -> bool) (KeyIncluded : bool) (key : K) (t : treap_node V) :
  (forall x, cmp x x = false) ->
  (forall x y z, cmp x y = true -> cmp y z = true -> cmp x z = true) ->
  bst get_key cmp t -> size_inv t -> tie_heap t ->
  let halves := treap.split get_key cmp KeyIncluded t key in
  let goes_left := fun v =>
    if KeyIncluded then negb (cmp key (get_key v)) else cmp (get_key v) key in
  inorder (fst halves) = filter goes_left (inorder t)
  /\ inorder (snd halves) = filter (fun v => negb (goes_left v)) (inorder t)
  /\ bst get_key cmp (fst halves) /\ bst get_key cmp (snd halves)
  /\ size_inv (fst halves) /\ size_inv (snd halves)
  /\ treap.merge get_key cmp (fst halves) (snd halves) = t.
Proof.
  intros Hirr Htr Hb Hs Hh halves goes_left. subst halves goes_left.
  destruct (ksplit_filter V K get_key cmp Htr KeyIncluded key t Hb)
    as (E1 & E2).
  rewrite ksplit_rec in *.
  pose proof (split_rec_inorder V K get_key cmp KeyIncluded key t) as Hi.
  destruct (split_rec_size_inv V K get_key cmp KeyIncluded key t Hs)
    as (Hs1 & Hs2).
  pose proof (split_rec_merge_id V K get_key cmp KeyIncluded key t Hh Hs) as Hid.
  destruct (split_rec get_key cmp KeyIncluded key t) as [first second].
  cbn [fst snd] in *.
  assert (Hsorted : StronglySorted (ltk get_key cmp)
                      (inorder first ++ inorder second))
    by (rewrite Hi; exact Hb).
  apply sorted_app in Hsorted as (Hb1 & Hb2 & Hprec).
  split; [exact E1|]. split; [exact E2|].
  split; [exact Hb1|]. split; [exact Hb2|].
  split; [exact Hs1|]. split; [exact Hs2|].
  rewrite (kmerge_ordered V K get_key cmp Hirr Htr first second Hprec).
  exact Hid.
Qed.

Lemma keyed_split_partition_witness :
  inorder (fst (treap.split zkey Z.ltb false sample_tree 5%Z)) = [1%Z; 3%Z]
  /\ inorder (snd (treap.split zkey Z.ltb false sample_tree 5%Z)) = [5%Z; 8%Z]
  /\ inorder (fst (treap.split zkey Z.ltb true sample_tree 5%Z))
     = [1%Z; 3%Z; 5%Z]
  /\ treap.merge zkey Z.ltb (fst (treap.split zkey Z.ltb true sample_tree 5%Z))
       (snd (treap.split zkey Z.ltb true sample_tree 5%Z)) = sample_tree.
Proof.
  destruct (keyed_split_partition Z Z zkey Z.ltb false 5%Z sample_tree
              Zltb_irrefl Zltb_trans sample_tree_bst sample_tree_size_inv
              sample_tree_tie_heap) as (H1 & H2 & _).
  destruct (keyed_split_partition Z Z zkey Z.ltb true 5%Z sample_tree
              Zltb_irrefl Zltb_trans sample_tree_bst sample_tree_size_inv
              sample_tree_tie_heap) as (H3 & _ & _ & _ & _ & _ & H4).
  split; [exact H1|]. split; [exact H2|]. split; [exact H3|exact H4].
Defined.

(** X11: [merge] of treap.hpp and [TreapNode::merge] of treap.h compare the
    keys of the two roots first and swap the arguments when the second root
    is the smaller, so on two trees one of which precedes the other the
    result does not depend on the order of the arguments: it is the tree
    holding the smaller keys followed by the other. *)
Theorem merge_either_argument_order (V K : Type) (get_key : V -> K)
    (cmp : K -> K -> bool) (a b : treap_node V) (az bz : Treap.TreapNode) :
  (forall x, cmp x x = false) ->
  (forall x y z, cmp x y = true -> cmp y z = true -> cmp x z = true) ->
  precedes get_key cmp a b -> precedes zkey Z.ltb az bz ->
  treap.merge get_key cmp b a = treap.merge get_key cmp a b
  /\ inorder (treap.merge get_key cmp b a) = inorder a ++ inorder b
  /\ Treap.merge bz az = Treap.merge az bz
  /\ inorder (Treap.merge bz az) = inorder az ++ inorder bz.
Proof.
  intros Hirr Htr Hab Habz.
  rewrite (kmerge_reversed V K get_key cmp Hirr Htr a b Hab).
  rewrite (kmerge_ordered V K get_key cmp Hirr Htr a b Hab).
  rewrite (legacy_merge_reversed bz az Habz).
  rewrite (legacy_merge_ordered az bz Habz).
  split; [reflexivity|]. split; [apply rmerge_inorder|].
  split; [reflexivity|apply rmerge_inorder].
Qed.

Lemma merge_either_argument_order_witness :
  treap.merge zkey Z.ltb sample_tree sample_front
  = treap.merge zkey Z.ltb sample_front sample_tree
  /\ inorder (Treap.merge sample_tree sample_front)
     = [0%Z; 1%Z; 3%Z; 5%Z; 8%Z].
Proof.
  destruct (merge_either_argument_order Z Z zkey Z.ltb sample_front sample_tree
              sample_front sample_tree Zltb_irrefl Zltb_trans
              sample_front_precedes sample_front_precedes)
    as (H1 & _ & _ & H4).
  split; [exact H1|exact H4].
Defined.

(** X12: on an ordered tree [lower_bound(key)] is the first element in
    in-order whose key is not below [key] and [upper_bound(key)] the first
    whose key is above [key]; each is [end()] when there is no such element;
    when [find(key)] succeeds it returns the element of [lower_bound(key)]. *)
Theorem keyed_bounds_first_element (V K : Type) (get_key : V -> K)
    (cmp : K -> K -> bool) (key : K) (t : treap_node V) :
  (forall x y z, cmp x y = true -> cmp y z = true -> cmp x z = true) ->
  bst get_key cmp t ->
  treap.lower_bound get_key cmp key t
  = find (fun v => negb (cmp (get_key v) key)) (inorder t)
  /\ treap.upper_bound get_key cmp key t
     = find (fun v => cmp key (get_key v)) (inorder t)
  /\ (forall w, treap.find get_key cmp key t = Some w ->
        treap.lower_bound get_key cmp key t = Some w).
Proof.
  intros Htr Hb.
  split; [exact (lower_bound_first V K get_key cmp Htr key t Hb)|].
  split; [exact (upper_bound_first V K get_key cmp Htr key t Hb)|].
  intros w. unfold treap.find, treap.lower_bound.
  destruct (treap.lower_bound_node get_key cmp key t) as [|p l r s v];
    [discriminate|].
  destruct (negb (cmp key (get_key v))); [auto|discriminate].
Qed.

Lemma keyed_bounds_first_element_witness :
  treap.lower_bound zkey Z.ltb 5%Z sample_tree = Some 5%Z
  /\ treap.upper_bound zkey Z.ltb 5%Z sample_tree = Some 8%Z
  /\ treap.upper_bound zkey Z.ltb 8%Z sample_tree = None.
Proof.
  destruct (keyed_bounds_first_element Z Z zkey Z.ltb 5%Z sample_tree
              Zltb_trans sample_tree_bst) as (H1 & H2 & _).
  destruct (keyed_bounds_first_element Z Z zkey Z.ltb 8%Z sample_tree
              Zltb_trans sample_tree_bst) as (_ & H3 & _).
  split; [exact H1|]. split; [exact H2|exact H3].
Defined.

(** X13: on an ordered tree [find(key)] returns an element of the tree
    equivalent to [key] when there is one and [end()] otherwise, and
    [contains(key)] tells whether there is one. *)
Theorem keyed_find_contains (V K : Type) (get_key : V -> K)
    (cmp : K -> K -> bool) (key : K) (t : treap_node V) :
  (forall x y z, cmp x y = true -> cmp y z = true -> cmp x z = true) ->
  bst get_key cmp t ->
  (forall w, treap.find get_key cmp key t = Some w ->
     In w (inorder t) /\ equiv_key cmp key (get_key w))
  /\ ((exists x, In x (inorder t) /\ equiv_key cmp (get_key x) key) <->
      (exists w, treap.find get_key cmp key t = Some w))
  /\ ((exists x, In x (inorder t) /\ equiv_key cmp (get_key x) key) <->
      treap.contains get_key cmp key t = true).
Proof.
  intros Htr Hb.
  split; [intros w; apply (find_some_sound V K get_key cmp Htr key t w Hb)|].
  split.
  - split.
    + intros (x & Hx & He).
      destruct (find_present V K get_key cmp Htr key t x Hb Hx He)
        as (w & Hw & _).
      now exists w.
    + intros (w & Hw).
      destruct (find_some_sound V K get_key cmp Htr key t w Hb Hw)
        as (Hin & H1 & H2).
      exists w. split; [exact Hin|]. split; assumption.
  - pose proof (node_of_key_spec V K get_key cmp Htr key t Hb) as Hn.
    unfold treap.contains.
    destruct (treap.node_of_key get_key cmp key t) as [|p l r s w].
    + split; [|discriminate]. intros (x & Hx & He). now destruct (Hn x Hx).
    + split; [reflexivity|]. intros _. now exists w.
Qed.

Lemma keyed_find_contains_witness :
  treap.contains zkey Z.ltb 5%Z sample_tree = true
  /\ exists w, treap.find zkey Z.ltb 5%Z sample_tree = Some w.
Proof.
  destruct (keyed_find_contains Z Z zkey Z.ltb 5%Z sample_tree
              Zltb_trans sample_tree_bst) as (_ & H2 & H3).
  assert (Hex : exists x, In x (inorder sample_tree)
                          /\ equiv_key Z.ltb (zkey x) 5%Z).
  { exists 5%Z. split; [simpl; auto|split; reflexivity]. }
  split; [now apply H3|now apply H2].
Defined.

Section KeyedUpdates.

Variable V : Type.
Variable K : Type.
Variable get_key : V -> K.
Variable cmp : K -> K -> bool.

Hypothesis cmp_irrefl : forall x, cmp x x = false.
Hypothesis cmp_trans :
  forall x y z, cmp x y = true -> cmp y z = true -> cmp x z = true.

Implicit Types t : treap_node V.

Lemma keyed_insert_inorder (value : V) (priority : N) t :
  bst get_key cmp t -> treap.find get_key cmp (get_key value) t = None ->
  inorder (snd (treap.insert get_key cmp value priority t))
  = inorder (fst (split_rec get_key cmp false (get_key value) t))
    ++ value :: inorder (snd (split_rec get_key cmp false (get_key value) t)).
Proof.
  intros Hb Hf. unfold treap.insert, treap.emplace_with_key.
  rewrite Hf. cbn [snd].
  rewrite (insert_node_rec V K get_key cmp cmp_irrefl cmp_trans
             priority value t Hb Hf).
  rewrite !rmerge_inorder, <- app_assoc. reflexivity.
Qed.

(** The elements after [insert(value)]. *)
Lemma keyed_insert_elements (value : V) (priority : N) t :
  bst get_key cmp t ->
  forall x,
    In x (inorder (snd (treap.insert get_key cmp value priority t))) <->
    In x (inorder t)
    \/ (x = value /\ treap.find get_key cmp (get_key value) t = None).
Proof.
  intros Hb x.
  destruct (treap.find get_key cmp (get_key value) t) as [w|] eqn:Hf.
  - unfold treap.insert, treap.emplace_with_key. rewrite Hf. cbn [snd].
    split; [auto|]. intros [H|(_ & H)]; [exact H|discriminate].
  - rewrite keyed_insert_inorder by assumption.
    assert (Hin : In x (inorder t) <->
                  In x (inorder (fst (split_rec get_key cmp false
                                        (get_key value) t)))
                  \/ In x (inorder (snd (split_rec get_key cmp false
                                           (get_key value) t)))).
    { rewrite <- (split_rec_inorder V K get_key cmp false (get_key value) t)
        at 1.
      apply in_app_iff. }
    rewrite Hin, in_app_iff. cbn [In]. split.
    + intros [H|[H|H]]; auto.
    + intros [[H|H]|(H & _)]; auto.
Qed.

Lemma insert_range_elements (values : list V) :
  forall (priorities : list N) t,
    bst get_key cmp t -> size_inv t -> length values <= length priorities ->
    let t' := treap.insert_range get_key cmp values priorities t in
    bst get_key cmp t' /\ size_inv t'
    /\ (forall x, In x (inorder t) -> In x (inorder t'))
    /\ (forall v, In v values ->
          exists w, In w (inorder t')
                    /\ equiv_key cmp (get_key v) (get_key w))
    /\ (forall w, In w (inorder t') -> In w (inorder t) \/ In w values).
Proof.
  induction values as [|v values IH]; intros priorities t Hb Hs Hlen.
  - destruct priorities; cbn; repeat split; auto; intros ? [].
  - destruct priorities as [|p priorities]; [cbn in Hlen; lia|].
    cbn [treap.insert_range]. rewrite emplace_insert.
    set (t1 := snd (treap.insert get_key cmp v p t)).
    assert (Hb1 : bst get_key cmp t1)
      by now apply (keyed_insert_bst V K get_key cmp cmp_irrefl cmp_trans).
    assert (Hs1 : size_inv t1) by now apply keyed_insert_size_inv.
    assert (Hlen1 : length values <= length priorities)
      by (cbn in Hlen; lia).
    pose proof (keyed_insert_elements v p t Hb) as He. fold t1 in He.
    destruct (IH priorities t1 Hb1 Hs1 Hlen1) as (Hb' & Hs' & Hk & Hv & Ho).
    cbn zeta. split; [exact Hb'|]. split; [exact Hs'|]. split; [|split].
    + intros x Hx. apply Hk. apply He. now left.
    + intros v' [<-|Hv']; [|now apply Hv].
      destruct (treap.find get_key cmp (get_key v) t) as [w|] eqn:Hf.
      * destruct (find_some_sound V K get_key cmp cmp_trans _ t w Hb Hf)
          as (Hin & Heq).
        exists w. split; [|exact Heq]. apply Hk. apply He. now left.
      * exists v. split; [|split; apply cmp_irrefl].
        apply Hk. apply He. right. now split.
    + intros w Hw. destruct (Ho w Hw) as [H|H]; [|right; now right].
      apply He in H as [H|(-> & _)]; [now left|right; now left].
Qed.

End KeyedUpdates.

Lemma keyed_contains_iff (V K : Type) (get_key : V -> K)
    (cmp : K -> K -> bool) (key : K) (t : treap_node V) :
  (forall x y z, cmp x y = true -> cmp y z = true -> cmp x z = true) ->
  bst get_key cmp t ->
  (exists x, In x (inorder t) /\ equiv_key cmp (get_key x) key) <->
  treap.contains get_key cmp key t = true.
Proof.
  intros Htr Hb.
  pose proof (node_of_key_spec V K get_key cmp Htr key t Hb) as Hn.
  unfold treap.contains.
  destruct (treap.node_of_key get_key cmp key t) as [|p l r s w].
  - split; [|discriminate]. intros (x & Hx & He). now destruct (Hn x Hx).
  - split; [reflexivity|]. intros _. now exists w.
Qed.

(** X14: [insert(value)] of treap.hpp on an ordered tree with no element
    equivalent to the key of [value] returns (iterator to the new element,
    true); the new element stands between the elements with a smaller key
    and the others, which keep their order; the size grows by one;
    [find] and [contains] then succeed on that key; [emplace] does the
    same. *)
Theorem keyed_insert_new_key (V K : Type) (get_key : V -> K)
    (cmp : K -> K -> bool) (value : V) (priority : N) (t : treap_node V) :
  (forall x, cmp x x = false) ->
  (forall x y z, cmp x y = true -> cmp y z = true -> cmp x z = true) ->
  bst get_key cmp t -> size_inv t ->
  treap.find get_key cmp (get_key value) t = None ->
  let r := treap.insert get_key cmp value priority t in
  fst r = (Some value, true)
  /\ inorder (snd r)
     = filter (fun v => cmp (get_key v) (get_key value)) (inorder t)
       ++ value
          :: filter (fun v => negb (cmp (get_key v) (get_key value)))
               (inorder t)
  /\ size (snd r) = (size t + 1)%N
  /\ treap.find get_key cmp (get_key value) (snd r) = Some value
  /\ treap.contains get_key cmp (get_key value) (snd r) = true
  /\ treap.emplace get_key cmp priority value t = r.
Proof.
  intros Hirr Htr Hb Hs Hf r. subst r.
  pose proof (keyed_insert_inorder V K get_key cmp Hirr Htr value priority t
                Hb Hf) as Hio.
  pose proof (keyed_insert_bst V K get_key cmp Hirr Htr value priority t Hb)
    as Hb'.
  pose proof (keyed_insert_size_inv V K get_key cmp value priority t Hs)
    as Hs'.
  destruct (ksplit_filter V K get_key cmp Htr false (get_key value) t Hb)
    as (E1 & E2).
  rewrite ksplit_rec in E1, E2.
  pose proof (split_rec_inorder V K get_key cmp false (get_key value) t) as Hi.
  destruct (split_rec_partition V K get_key cmp Htr false (get_key value) t Hb)
    as (Hlt & _).
  set (t' := snd (treap.insert get_key cmp value priority t)) in *.
  assert (Hfind : treap.find get_key cmp (get_key value) t' = Some value).
  { rewrite (find_first_not_below V K get_key cmp Htr _ t' Hb'), Hio.
    rewrite find_app_split, find_all_false.
    - cbn [find]. unfold not_below. rewrite Hirr. cbn [negb].
      now rewrite Hirr.
    - intros x Hx. unfold not_below. apply negb_false_iff. exact (Hlt x Hx). }
  split.
  { unfold treap.insert, treap.emplace_with_key. now rewrite Hf. }
  split; [rewrite Hio, E1, E2; reflexivity|]. split; [|split; [exact Hfind|split]].
  - rewrite (size_count V t' Hs'), (size_count V t Hs), <- !inorder_length.
    rewrite Hio, <- Hi, !length_app. cbn [length]. lia.
  - apply (keyed_contains_iff V K get_key cmp (get_key value) t' Htr Hb').
    exists value.
    destruct (find_some_sound V K get_key cmp Htr _ t' value Hb' Hfind)
      as (Hin & H1 & H2).
    split; [exact Hin|split; assumption].
  - apply emplace_insert.
Qed.

Lemma keyed_insert_new_key_witness :
  fst (treap.insert zkey Z.ltb 4%Z 6 sample_tree) = (Some 4%Z, true)
  /\ inorder (snd (treap.insert zkey Z.ltb 4%Z 6 sample_tree))
     = [1%Z; 3%Z; 4%Z; 5%Z; 8%Z]
  /\ size (snd (treap.insert zkey Z.ltb 4%Z 6 sample_tree)) = 5%N.
Proof.
  destruct (keyed_insert_new_key Z Z zkey Z.ltb 4%Z 6 sample_tree
              Zltb_irrefl Zltb_trans sample_tree_bst sample_tree_size_inv)
    as (H1 & H2 & H3 & _); [reflexivity|].
  split; [exact H1|]. split; [exact H2|exact H3].
Defined.

(** X15: [erase_key(key)] of treap.hpp on an ordered tree removes the
    elements equivalent to [key] and keeps the others in their order; it
    returns the first element above [key], which is [upper_bound(key)] of the
    tree after the erase too; afterwards [find(key)] is [end()], and the
    order and size invariants hold. *)
Theorem keyed_erase_key_removes (V K : Type) (get_key : V -> K)
    (cmp : K -> K -> bool) (key : K) (t : treap_node V) :
  (forall x, cmp x x = false) ->
  (forall x y z, cmp x y = true -> cmp y z = true -> cmp x z = true) ->
  bst get_key cmp t -> size_inv t ->
  let r := treap.erase_key get_key cmp key t in
  inorder (snd r)
  = filter (fun v => cmp (get_key v) key || cmp key (get_key v)) (inorder t)
  /\ fst r = find (fun v => cmp key (get_key v)) (inorder t)
  /\ fst r = treap.upper_bound get_key cmp key (snd r)
  /\ treap.find get_key cmp key (snd r) = None
  /\ bst get_key cmp (snd r) /\ size_inv (snd r).
Proof.
  intros Hirr Htr Hb Hs r. subst r.
  unfold treap.erase_key, treap.detach_node_with_key. cbn [fst snd].
  set (t' := fst (treap.detach_node_key_interval get_key cmp true key key t)).
  assert (Hb' : bst get_key cmp t')
    by now apply (keyed_detach_bst V K get_key cmp Hirr Htr).
  assert (Hs' : size_inv t') by now apply keyed_detach_size_inv.
  assert (Hio : inorder t'
                = filter (fun v => cmp (get_key v) key || cmp key (get_key v))
                    (inorder t)).
  { subst t'. rewrite (detach_inorder V K get_key cmp Hirr Htr true key key t Hb).
    apply filter_ext. intros v. unfold treap.split_compare.
    now rewrite negb_involutive. }
  pose proof (upper_bound_first V K get_key cmp Htr key t Hb) as Hu.
  pose proof (upper_bound_first V K get_key cmp Htr key t' Hb') as Hu'.
  split; [exact Hio|]. split; [exact Hu|]. split; [|split; [|split]].
  - rewrite Hu, Hu', Hio. symmetry. apply find_filter_implied.
    intros x _ Hx. rewrite Hx. apply orb_true_r.
  - rewrite (find_first_not_below V K get_key cmp Htr key t' Hb').
    destruct (find (not_below get_key cmp key) (inorder t')) as [v|] eqn:Hv;
      [|reflexivity].
    apply find_some in Hv as (Hin & Hnb).
    rewrite Hio in Hin. apply filter_In in Hin as (_ & Hg).
    unfold not_below in Hnb. apply negb_true_iff in Hnb.
    rewrite Hnb in Hg. cbn [orb] in Hg. now rewrite Hg.
  - exact Hb'.
  - exact Hs'.
Qed.

Lemma keyed_erase_key_removes_witness :
  inorder (snd (treap.erase_key zkey Z.ltb 3%Z sample_tree))
  = [1%Z; 5%Z; 8%Z]
  /\ fst (treap.erase_key zkey Z.ltb 3%Z sample_tree) = Some 5%Z.
Proof.
  destruct (keyed_erase_key_removes Z Z zkey Z.ltb 3%Z sample_tree
              Zltb_irrefl Zltb_trans sample_tree_bst sample_tree_size_inv)
    as (H1 & H2 & _).
  split; [exact H1|exact H2].
Defined.

(** X16: [erase_key_interval(begin_key, end_key)] of treap.hpp on an ordered
    tree removes the elements whose key is not below [begin_key] and below
    [end_key], and [erase_key_interval_with_end] those whose key is not below
    [begin_key] and not above [end_key]; the other elements keep their order.
    The first returns [lower_bound(end_key)] and the second
    [upper_bound(end_key)], taken before the erase, and that element is the
    same bound in the tree after the erase. *)
Theorem keyed_erase_interval_removes (V K : Type) (get_key : V -> K)
    (cmp : K -> K -> bool) (begin_key end_key : K) (t : treap_node V) :
  (forall x, cmp x x = false) ->
  (forall x y z, cmp x y = true -> cmp y z = true -> cmp x z = true) ->
  bst get_key cmp t ->
  let r := treap.erase_key_interval get_key cmp begin_key end_key t in
  let r' := treap.erase_key_interval_with_end get_key cmp begin_key end_key t in
  inorder (snd r)
  = filter (fun v => cmp (get_key v) begin_key
                     || negb (cmp (get_key v) end_key)) (inorder t)
  /\ fst r = find (fun v => negb (cmp (get_key v) end_key)) (inorder t)
  /\ fst r = treap.lower_bound get_key cmp end_key (snd r)
  /\ inorder (snd r')
     = filter (fun v => cmp (get_key v) begin_key
                        || cmp end_key (get_key v)) (inorder t)
  /\ fst r' = find (fun v => cmp end_key (get_key v)) (inorder t)
  /\ fst r' = treap.upper_bound get_key cmp end_key (snd r').
Proof.
  intros Hirr Htr Hb r r'. subst r r'.
  unfold treap.erase_key_interval, treap.erase_key_interval_with_end.
  cbn [fst snd].
  set (t1 := fst (treap.detach_node_key_interval get_key cmp false
                    begin_key end_key t)).
  set (t2 := fst (treap.detach_node_key_interval get_key cmp true
                    begin_key end_key t)).
  assert (Hb1 : bst get_key cmp t1)
    by now apply (keyed_detach_bst V K get_key cmp Hirr Htr).
  assert (Hb2 : bst get_key cmp t2)
    by now apply (keyed_detach_bst V K get_key cmp Hirr Htr).
  assert (Hio1 : inorder t1
                 = filter (fun v => cmp (get_key v) begin_key
                                    || negb (cmp (get_key v) end_key))
                     (inorder t)).
  { subst t1.
    now rewrite (detach_inorder V K get_key cmp Hirr Htr false
                   begin_key end_key t Hb). }
  assert (Hio2 : inorder t2
                 = filter (fun v => cmp (get_key v) begin_key
                                    || cmp end_key (get_key v)) (inorder t)).
  { subst t2.
    rewrite (detach_inorder V K get_key cmp Hirr Htr true
               begin_key end_key t Hb).
    apply filter_ext. intros v. unfold treap.split_compare.
    now rewrite negb_involutive. }
  pose proof (lower_bound_first V K get_key cmp Htr end_key t Hb) as Hl.
  pose proof (lower_bound_first V K get_key cmp Htr end_key t1 Hb1) as Hl1.
  pose proof (upper_bound_first V K get_key cmp Htr end_key t Hb) as Hu.
  pose proof (upper_bound_first V K get_key cmp Htr end_key t2 Hb2) as Hu2.
  unfold not_below in Hl, Hl1.
  split; [exact Hio1|]. split; [exact Hl|]. split; [|split; [exact Hio2|split]].
  - rewrite Hl, Hl1, Hio1. symmetry. apply find_filter_implied.
    intros x _ Hx. rewrite Hx. apply orb_true_r.
  - exact Hu.
  - rewrite Hu, Hu2, Hio2. symmetry. apply find_filter_implied.
    intros x _ Hx. rewrite Hx. apply orb_true_r.
Qed.

Lemma keyed_erase_interval_removes_witness :
  inorder (snd (treap.erase_key_interval zkey Z.ltb 3%Z 8%Z sample_tree))
  = [1%Z; 8%Z]
  /\ fst (treap.erase_key_interval zkey Z.ltb 3%Z 8%Z sample_tree) = Some 8%Z
  /\ inorder (snd (treap.erase_key_interval_with_end zkey Z.ltb 3%Z 8%Z
                     sample_tree)) = [1%Z]
  /\ fst (treap.erase_key_interval_with_end zkey Z.ltb 3%Z 8%Z sample_tree)
     = None.
Proof.
  destruct (keyed_erase_interval_removes Z Z zkey Z.ltb 3%Z 8%Z sample_tree
              Zltb_irrefl Zltb_trans sample_tree_bst)
    as (H1 & H2 & _ & H4 & H5 & _).
  split; [exact H1|]. split; [exact H2|]. split; [exact H4|exact H5].
Defined.

(** X17: the range [insert] of treap.hpp, one [emplace] per element of the
    range, keeps the order and size invariants and every element the tree
    held; afterwards every key of the range has an equivalent element in the
    tree, and the tree holds nothing but old elements and elements of the
    range. *)
Theorem keyed_insert_range (V K : Type) (get_key : V -> K)
    (cmp : K -> K -> bool) (values : list V) (priorities : list N)
    (t : treap_node V) :
  (forall x, cmp x x = false) ->
  (forall x y z, cmp x y = true -> cmp y z = true -> cmp x z = true) ->
  bst get_key cmp t -> size_inv t -> length values <= length priorities ->
  let t' := treap.insert_range get_key cmp values priorities t in
  bst get_key cmp t' /\ size_inv t'
  /\ (forall x, In x (inorder t) -> In x (inorder t'))
  /\ (forall v, In v values ->
        exists w, In w (inorder t') /\ equiv_key cmp (get_key v) (get_key w))
  /\ (forall w, In w (inorder t') -> In w (inorder t) \/ In w values).
Proof.
  intros Hirr Htr Hb Hs Hlen.
  exact (insert_range_elements V K get_key cmp Hirr Htr values priorities t
           Hb Hs Hlen).
Qed.

Lemma keyed_insert_range_witness :
  let t' := treap.insert_range zkey Z.ltb [4%Z; 3%Z; 9%Z; 4%Z] [6; 2; 8; 1]%N
              sample_tree in
  bst zkey Z.ltb t' /\ size_inv t'
  /\ inorder t' = [1%Z; 3%Z; 4%Z; 5%Z; 8%Z; 9%Z].
Proof.
  destruct (keyed_insert_range Z Z zkey Z.ltb [4%Z; 3%Z; 9%Z; 4%Z]
              [6; 2; 8; 1]%N sample_tree Zltb_irrefl Zltb_trans
              sample_tree_bst sample_tree_size_inv) as (H1 & H2 & _);
    [simpl; lia|].
  split; [exact H1|]. split; [exact H2|]. vm_compute. reflexivity.
Defined.

(** ** treap.h: insertion, removal and lookup as list operations *)

Section LegacyUpdates.

Implicit Types t : Treap.TreapNode.

Lemma legacy_split_filter t (value : Z) :
  bst zkey Z.ltb t ->
  inorder (fst (Treap.split t value))
  = filter (fun k => (k <? value)%Z) (inorder t)
  /\ inorder (snd (Treap.split t value))
     = filter (fun k => negb (k <? value)%Z) (inorder t).
Proof.
  intros Hb. rewrite legacy_split_rec, <- ksplit_rec.
  exact (ksplit_filter Z Z zkey Z.ltb Zltb_trans false value t Hb).
Qed.

Lemma legacy_contains_absent (value : Z) t :
  ~ In value (inorder t) -> Treap.contains value t = false.
Proof.
  intros Habs. unfold Treap.contains.
  now rewrite (nodeOfKey_absent value t Habs).
Qed.

Lemma legacy_insert_rec (value : Z) (priority : N) t :
  bst zkey Z.ltb t -> ~ In value (inorder t) ->
  Treap.insert value priority t
  = implicit_treap.merge
      (implicit_treap.merge (fst (Treap.split t value))
         (Node priority nullptr nullptr 1 value))
      (snd (Treap.split t value)).
Proof.
  intros Hb Habs. unfold Treap.insert.
  rewrite (legacy_contains_absent value t Habs).
  destruct t as [|p l r s k]; [reflexivity|].
  remember (Node p l r s k) as t eqn:Et. clear Et.
  destruct (legacy_split_ordered t value Hb) as (Hi & Hlt & Hge).
  destruct (Treap.split t value) as [left right]. cbn [fst snd] in *.
  assert (Hsorted : StronglySorted (ltk zkey Z.ltb)
                      (inorder left ++ inorder right)).
  { rewrite Hi. exact Hb. }
  apply sorted_app in Hsorted as (Hsl & Hsr & Hlr).
  change (Treap.new_TreapNode value priority)
    with (Node priority nullptr nullptr 1 value).
  assert (H1 : precedes zkey Z.ltb left (Node priority nullptr nullptr 1 value)).
  { apply precedes_singleton_r. intros x Hx. apply Z.ltb_lt. now apply Hlt. }
  rewrite (legacy_merge_ordered left _ H1).
  assert (H2 : precedes zkey Z.ltb
                 (implicit_treap.merge left
                    (Node priority nullptr nullptr 1 value)) right).
  { intros x y. rewrite rmerge_inorder, in_app_iff. cbn [inorder app In].
    intros [Hx|[<-|[]]] Hy; [now apply Hlr|].
    apply Z.ltb_lt. pose proof (Hge y Hy).
    assert (y <> value); [|unfold zkey; lia].
    intros ->. apply Habs. rewrite <- Hi. apply in_or_app. now right. }
  exact (legacy_merge_reversed right _ H2).
Qed.

(** The part below [value] precedes the part the second split leaves on
    the right. *)
Lemma legacy_remove_parts (value pivot : Z) t :
  bst zkey Z.ltb t ->
  let first := fst (Treap.split t value) in
  let right := snd (Treap.split (snd (Treap.split t value)) pivot) in
  Treap.merge first right = implicit_treap.merge first right
  /\ inorder (fst (Treap.split (snd (Treap.split t value)) pivot))
     = filter (fun k => (k <? pivot)%Z)
         (filter (fun k => negb (k <? value)%Z) (inorder t))
  /\ inorder right
     = filter (fun k => negb (k <? pivot)%Z)
         (filter (fun k => negb (k <? value)%Z) (inorder t)).
Proof.
  intros Hb. cbn zeta.
  destruct (legacy_split_ordered t value Hb) as (Hi & _ & _).
  destruct (legacy_split_filter t value Hb) as (_ & E2).
  destruct (Treap.split t value) as [first rest]. cbn [fst snd] in *.
  assert (Hsorted : StronglySorted (ltk zkey Z.ltb)
                      (inorder first ++ inorder rest)).
  { rewrite Hi. exact Hb. }
  apply sorted_app in Hsorted as (_ & Hsr & Hfr).
  destruct (legacy_split_ordered rest pivot Hsr) as (Hi2 & _ & _).
  destruct (legacy_split_filter rest pivot Hsr) as (E3 & E4).
  destruct (Treap.split rest pivot) as [found right]. cbn [fst snd] in *.
  split; [|split; [now rewrite E3, E2|now rewrite E4, E2]].
  apply legacy_merge_ordered.
  intros x y Hx Hy. apply Hfr; [exact Hx|].
  rewrite <- Hi2. apply in_or_app. now right.
Qed.





Lemma legacy_split_tie_heap t (value : Z) :
  tie_heap t ->
  tie_heap (fst (Treap.split t value)) /\ tie_heap (snd (Treap.split t value)).
Proof.
  intros Ht. rewrite legacy_split_rec.
  destruct (split_rec_tie_heap Z Z zkey Z.ltb false value t Ht)
    as (H1 & H2 & _).
  now split.
Qed.

Lemma legacy_insert_tie_heap (value : Z) (priority : N) t :
  bst zkey Z.ltb t -> tie_heap t -> tie_heap (Treap.insert value priority t).
Proof.
  intros Hb Ht.
  destruct (Treap.contains value t) eqn:Hc.
  - unfold Treap.insert. now rewrite Hc.
  - rewrite legacy_insert_rec
      by (assumption || now apply contains_false_absent).
    destruct (legacy_split_tie_heap t value Ht) as (H1 & H2).
    apply rmerge_tie_heap; [|exact H2].
    apply rmerge_tie_heap; [exact H1|]. cbn. auto.
Qed.

Lemma legacy_remove_tie_heap (value : Z) t
    (r : Treap.TreapNode * option exn) :
  bst zkey Z.ltb t -> tie_heap t -> Treap.remove value t = Ok r ->
  tie_heap (fst r).
Proof.
  intros Hb Ht Hr.
  destruct (legacy_split_tie_heap t value Ht) as (H1 & H2).
  destruct (legacy_split_tie_heap (snd (Treap.split t value))
              (Treap.key_succ value) H2) as (H3 & H4).
  destruct (legacy_remove_parts value (Treap.key_succ value) t Hb)
    as (Hm & _).
  cbn zeta in Hm.
  destruct (legacy_remove_state value t r Hr) as [-> | [-> | [-> | ->]]];
    [exact I|assumption|assumption|].
  rewrite Hm. now apply rmerge_tie_heap.
Qed.

Lemma legacy_apply_tie_heap (op : legacy_op) t (t' : Treap.TreapNode) :
  bst zkey Z.ltb t -> tie_heap t -> legacy_apply op t = Ok t' -> tie_heap t'.
Proof.
  intros Hb Ht. destruct op; cbn [legacy_apply].
  - intros [= <-]. now apply legacy_insert_tie_heap.
  - destruct (Treap.remove value t) as [r| |] eqn:Hr; cbn [result_bind];
      [|discriminate|discriminate].
    intros [= <-]. now apply (legacy_remove_tie_heap value t r).
Qed.

Lemma legacy_run_tie_heap (ops : list legacy_op) (t' : Treap.TreapNode) :
  legacy_run ops = Ok t' -> tie_heap t'.
Proof.
  intros Hrun.
  refine (proj2 (run_invariant legacy_op Treap.TreapNode legacy_apply
                   (fun t => bst zkey Z.ltb t /\ tie_heap t) _
                   ops nullptr t' _ Hrun)).
  - intros s a s' (Hb & Ht) Hs. split.
    + now apply (legacy_apply_bst a s).
    + now apply (legacy_apply_tie_heap a s).
  - split; [constructor|exact I].
Qed.

End LegacyUpdates.

(** X18: in every state reached from the empty container by the mutating
    operations of treap.hpp and implicit_treap.hpp, and by the mutating
    operations of treap.h as long as their behaviour is defined, with any
    drawn priorities, no node has a priority above its parent's, and a right
    child has a priority strictly below its parent's (the rule by which
    [merge] breaks ties). *)
Theorem heap_property_in_reachable_states (V K : Type) (get_key : V -> K)
    (cmp : K -> K -> bool) (T : Type) :
  (forall x, cmp x x = false) ->
  (forall x y z, cmp x y = true -> cmp y z = true -> cmp x z = true) ->
  (forall kops,
     heap_inv (keyed_run get_key cmp kops)
     /\ tie_heap (keyed_run get_key cmp kops))
  /\ (forall iops : list (implicit_op T),
        heap_inv (implicit_run iops) /\ tie_heap (implicit_run iops))
  /\ (forall lops tz,
        legacy_run lops = Ok tz -> heap_inv tz /\ tie_heap tz).
Proof.
  intros Hirr Htr. split; [|split].
  - intros kops.
    pose proof (keyed_run_tie_heap V K get_key cmp Hirr Htr kops) as H.
    split; [now apply tie_heap_heap_inv|exact H].
  - intros iops. pose proof (implicit_run_tie_heap T iops) as H.
    split; [now apply tie_heap_heap_inv|exact H].
  - intros lops tz Hrun. pose proof (legacy_run_tie_heap lops tz Hrun) as H.
    split; [now apply tie_heap_heap_inv|exact H].
Qed.

Lemma heap_property_in_reachable_states_witness :
  heap_inv (keyed_run zkey Z.ltb sample_ops)
  /\ heap_inv (implicit_run [iop_push_back 10%Z 4; iop_push_front 7%Z 4;
                             iop_insert 15%Z 1 9; iop_pop_back])
  /\ (exists tz, legacy_run (sample_legacy_ops ++ [lop_remove 8%Z]) = Ok tz
                 /\ inorder tz = [1%Z; 3%Z; 5%Z] /\ heap_inv tz).
Proof.
  destruct (heap_property_in_reachable_states Z Z zkey Z.ltb Z
              Zltb_irrefl Zltb_trans) as (H1 & H2 & H3).
  split; [apply H1|]. split; [apply H2|].
  eexists. split; [reflexivity|]. split; [reflexivity|].
  refine (proj1 (H3 (sample_legacy_ops ++ [lop_remove 8%Z]) _ _)).
  reflexivity.
Defined.

(** X19: [Treap::insert(value)] of treap.h on an ordered tree that does not
    hold [value] puts [value] between the smaller and the larger keys, which
    keep their order; the size grows by one, [contains(value)] becomes true
    and the order and size invariants hold. *)
Theorem legacy_insert_new_key (tz : Treap.TreapNode) (value : Z)
    (priority : N) :
  bst zkey Z.ltb tz -> size_inv tz -> ~ In value (inorder tz) ->
  let t' := Treap.insert value priority tz in
  inorder t'
  = filter (fun k => (k <? value)%Z) (inorder tz)
    ++ value :: filter (fun k => (value <? k)%Z) (inorder tz)
  /\ size t' = (size tz + 1)%N
  /\ Treap.contains value t' = true
  /\ bst zkey Z.ltb t' /\ size_inv t'.
Proof.
  intros Hb Hs Habs t'.
  assert (Hb' : bst zkey Z.ltb t') by now apply legacy_insert_bst.
  assert (Hs' : size_inv t') by now apply legacy_insert_size_inv.
  assert (Hraw : inorder t'
                 = inorder (fst (Treap.split tz value))
                   ++ value :: inorder (snd (Treap.split tz value))).
  { subst t'. rewrite (legacy_insert_rec value priority tz Hb Habs).
    rewrite !rmerge_inorder, <- app_assoc. reflexivity. }
  destruct (legacy_split_ordered tz value Hb) as (Hi & _ & _).
  destruct (legacy_split_filter tz value Hb) as (E1 & E2).
  split; [|split; [|split; [|split; assumption]]].
  - rewrite Hraw, E1, E2. do 2 f_equal. apply filter_ext_in.
    intros k Hk. assert (k <> value) by (intros ->; contradiction).
    destruct (Z.ltb_spec k value), (Z.ltb_spec value k); cbn [negb];
      reflexivity || lia.
  - rewrite (size_count _ t' Hs'), (size_count _ tz Hs), <- !inorder_length.
    rewrite Hraw, <- Hi, !length_app. cbn [length]. lia.
  - apply (contains_present value t' Hb').
    rewrite Hraw. apply in_elt.
Qed.

Lemma legacy_insert_new_key_witness :
  inorder (Treap.insert 4%Z 6 sample_tree) = [1%Z; 3%Z; 4%Z; 5%Z; 8%Z]
  /\ size (Treap.insert 4%Z 6 sample_tree) = 5%N.
Proof.
  destruct (legacy_insert_new_key sample_tree 4%Z 6 sample_tree_bst
              sample_tree_size_inv sample_tree_lacks_4) as (H1 & H2 & _).
  split; [exact H1|exact H2].
Defined.



Section LegacyQueries.

Implicit Types t : Treap.TreapNode.

Lemma nodeOfKey_sound (value : Z) t p l r s k :
  Treap.nodeOfKey value t = Node p l r s k ->
  k = value /\ In value (inorder t).
Proof.
  induction t as [|p' l' IHl r' IHr s' k']; [discriminate|].
  cbn [Treap.nodeOfKey inorder].
  destruct (Z.eqb_spec value k') as [->|Hne]; cbn [negb].
  - intros [= -> -> -> -> ->]. split; [reflexivity|apply in_elt].
  - destruct (value <? k')%Z; intros H.
    + destruct (IHl H) as (Hk & Hin). split; [exact Hk|].
      apply in_or_app. now left.
    + destruct (IHr H) as (Hk & Hin). split; [exact Hk|].
      apply in_or_app. right. now right.
Qed.

Lemma legacy_copy_nodes t : nodes (Treap.copy t) = nodes t.
Proof.
  induction t as [|p l IHl r IHr s k]; [reflexivity|].
  cbn [Treap.copy]. unfold Treap.new_TreapNode.
  destruct l as [|pl ll rl sl kl], r as [|pr lr rr sr kr];
    unfold Treap.setLeft, Treap.setRight, update;
    cbn [left_size right_size get_left get_right size].
  - reflexivity.
  - rewrite nodes_set_right, IHr. reflexivity.
  - rewrite nodes_set_left, IHl. reflexivity.
  - unfold set_left at 1. unfold update.
    rewrite nodes_set_right, IHr, IHl. reflexivity.
Qed.

Lemma legacy_copy_size_inv t : size_inv (Treap.copy t).
Proof.
  induction t as [|p l IHl r IHr s k]; [exact I|].
  cbn [Treap.copy]. unfold Treap.new_TreapNode.
  destruct l as [|pl ll rl sl kl], r as [|pr lr rr sr kr];
    unfold Treap.setLeft, Treap.setRight, update;
    cbn [left_size right_size get_left get_right size].
  - cbn. auto.
  - apply size_inv_set_right; [exact I|exact IHr].
  - apply size_inv_set_left; [exact IHl|exact I].
  - unfold set_left at 1. unfold update.
    apply size_inv_set_right; [exact IHl|exact IHr].
Qed.

Lemma int_wrap_small (z : Z) :
  (- 2 ^ 31 <= z < 2 ^ 31)%Z -> Treap.int_wrap z = z.
Proof.
  intros Hz. unfold Treap.int_wrap. rewrite Z.mod_small; lia.
Qed.

Lemma maxDepth_bounds t :
  (Z.of_nat (count t) < 2 ^ 31)%Z ->
  (0 <= Treap.maxDepth t <= Z.of_nat (count t))%Z
  /\ (Z.of_nat (count t) < 2 ^ Treap.maxDepth t)%Z.
Proof.
  induction t as [|p l IHl r IHr s k]; intros Hfit.
  - cbn. lia.
  - cbn [count] in Hfit.
    destruct IHl as ((Hl0 & Hl1) & Hl2); [lia|].
    destruct IHr as ((Hr0 & Hr1) & Hr2); [lia|].
    cbn [Treap.maxDepth count].
    rewrite int_wrap_small by lia.
    split; [lia|].
    set (m := Z.max (Treap.maxDepth r) (Treap.maxDepth l)).
    assert (Hpl : (2 ^ Treap.maxDepth l <= 2 ^ m)%Z)
      by (apply Z.pow_le_mono_r; lia).
    assert (Hpr : (2 ^ Treap.maxDepth r <= 2 ^ m)%Z)
      by (apply Z.pow_le_mono_r; lia).
    rewrite Z.pow_add_r by lia. lia.
Qed.

End LegacyQueries.

(** X21: on an ordered tree [Treap::contains(value)] of treap.h is true
    exactly when [value] is one of the keys, and the node [nodeOfKey] finds
    holds [value]; an answer [true] is right on every tree. *)
Theorem legacy_contains_membership (tz : Treap.TreapNode) (value : Z) :
  bst zkey Z.ltb tz ->
  (Treap.contains value tz = true <-> In value (inorder tz))
  /\ (forall t', Treap.contains value t' = true -> In value (inorder t'))
  /\ (forall p l r s k,
        Treap.nodeOfKey value tz = Node p l r s k -> k = value).
Proof.
  intros Hb.
  assert (Hsound : forall t', Treap.contains value t' = true ->
                              In value (inorder t')).
  { intros t'. unfold Treap.contains.
    destruct (Treap.nodeOfKey value t') as [|p l r s k] eqn:Hn;
      [discriminate|].
    intros _. now destruct (nodeOfKey_sound value t' p l r s k Hn). }
  split; [|split; [exact Hsound|]].
  - split; [apply Hsound|]. now apply contains_present.
  - intros p l r s k Hn. now destruct (nodeOfKey_sound value tz p l r s k Hn).
Qed.

Lemma legacy_contains_membership_witness :
  Treap.contains 8%Z sample_tree = true
  /\ Treap.contains 4%Z sample_tree = false.
Proof.
  destruct (legacy_contains_membership sample_tree 8%Z sample_tree_bst)
    as (H1 & _).
  destruct (legacy_contains_membership sample_tree 4%Z sample_tree_bst)
    as (H2 & _).
  split.
  - apply H1. simpl. auto.
  - destruct (Treap.contains 4%Z sample_tree) eqn:Hc; [|reflexivity].
    exfalso. apply sample_tree_lacks_4. now apply H2.
Defined.

(** X22: copy-constructing a [Treap] of treap.h from a container that is not
    empty builds, with [TreapNode::copy], a tree of new nodes with the same
    keys and priorities in the same in-order positions, whose sizes are
    right whatever the source's cached sizes were; it has the shape of the
    source, so it equals the source when that satisfies the size
    invariant. *)
Theorem legacy_copy_of_nonempty_tree (tz : Treap.TreapNode) :
  tz <> nullptr ->
  exists c,
    Treap.copy_construct tz = Ok c
    /\ nodes c = nodes tz
    /\ inorder c = inorder tz
    /\ size_inv c
    /\ (size_inv tz -> c = tz).
Proof.
  intros Hne. exists (Treap.copy tz). split; [now destruct tz|].
  split; [apply legacy_copy_nodes|]. split; [|split].
  - rewrite <- !inorder_nodes. f_equal. apply legacy_copy_nodes.
  - apply legacy_copy_size_inv.
  - apply legacy_copy_identity.
Qed.

Lemma legacy_copy_of_nonempty_tree_witness :
  exists c, Treap.copy_construct sample_tree = Ok c
            /\ inorder c = [1%Z; 3%Z; 5%Z; 8%Z] /\ size_inv c.
Proof.
  destruct (legacy_copy_of_nonempty_tree sample_tree)
    as (c & H1 & _ & H3 & H4 & _); [discriminate|].
  exists c. split; [exact H1|]. split; [exact H3|exact H4].
Defined.

(** X23: [Treap::keyOfOrder(index)] of treap.h returns the key at in-order
    position [index] when [index < size]; at [index = size] it reads the key
    through the null pointer [nodeOfOrder] returns, which is undefined;
    beyond [size] it throws [std::out_of_range]. *)
Theorem legacy_key_of_order (tz : Treap.TreapNode) (index : N) :
  size_inv tz ->
  ((index < size tz)%N ->
     exists k, nth_error (inorder tz) (N.to_nat index) = Some k
               /\ Treap.keyOfOrder tz index = Ok k)
  /\ (index = size tz -> Treap.keyOfOrder tz index = Undefined)
  /\ ((size tz < index)%N -> Treap.keyOfOrder tz index = Throw out_of_range).
Proof.
  intros Hinv. pose proof (size_count _ tz Hinv) as Hsz. split; [|split].
  - intros Hlt.
    destruct (nth_error (inorder tz) (N.to_nat index)) as [k|] eqn:Hk.
    + exists k. split; [reflexivity|].
      rewrite <- (N2Nat.id index). now apply keyOfOrder_nth.
    + apply nth_error_None in Hk. rewrite inorder_length in Hk. lia.
  - intros ->. unfold Treap.keyOfOrder, Treap.nodeOfOrder.
    now rewrite N.eqb_refl.
  - intros Hgt. unfold Treap.keyOfOrder, Treap.nodeOfOrder.
    destruct (N.eqb_spec index (size tz)) as [?|_]; [lia|].
    destruct (N.ltb_spec (size tz) index) as [_|?]; [reflexivity|lia].
Qed.

Lemma legacy_key_of_order_witness :
  Treap.keyOfOrder sample_tree 4 = Undefined
  /\ Treap.keyOfOrder sample_tree 5 = Throw out_of_range
  /\ exists k, nth_error (inorder sample_tree) (N.to_nat 2) = Some k
               /\ Treap.keyOfOrder sample_tree 2 = Ok k.
Proof.
  destruct (legacy_key_of_order sample_tree 4 sample_tree_size_inv)
    as (_ & H1 & _).
  destruct (legacy_key_of_order sample_tree 5 sample_tree_size_inv)
    as (_ & _ & H2).
  destruct (legacy_key_of_order sample_tree 2 sample_tree_size_inv)
    as (H3 & _).
  split; [now apply H1|]. split; [now apply H2|now apply H3].
Defined.

(** X24: on a tree with fewer than 2^31 nodes the [int] arithmetic of
    [Treap::maxDepth] of treap.h does not overflow: the depth of a node is
    one more than the larger depth of its children, it is 0 only for the
    empty tree, it is at most the number of nodes, and a tree of depth [d]
    has fewer than [2^d] nodes. *)
Theorem legacy_max_depth (tz : Treap.TreapNode) :
  (Z.of_nat (count tz) < 2 ^ 31)%Z ->
  (0 <= Treap.maxDepth tz <= Z.of_nat (count tz))%Z
  /\ (Z.of_nat (count tz) < 2 ^ Treap.maxDepth tz)%Z
  /\ (Treap.maxDepth tz = 0%Z <-> tz = nullptr)
  /\ (forall p l r s k, tz = Node p l r s k ->
        Treap.maxDepth tz
        = (Z.max (Treap.maxDepth r) (Treap.maxDepth l) + 1)%Z).
Proof.
  intros Hfit. destruct (maxDepth_bounds tz Hfit) as (Hb & Hp).
  split; [exact Hb|]. split; [exact Hp|]. split.
  - split; [|now intros ->].
    intros H0. rewrite H0 in Hp. change (2 ^ 0)%Z with 1%Z in Hp.
    destruct tz; [reflexivity|cbn [count] in Hp; lia].
  - intros p l r s k ->. cbn [count] in Hfit.
    destruct (maxDepth_bounds l) as ((Hl0 & Hl1) & _); [lia|].
    destruct (maxDepth_bounds r) as ((Hr0 & Hr1) & _); [lia|].
    cbn [Treap.maxDepth]. apply int_wrap_small. lia.
Qed.

Lemma legacy_max_depth_witness :
  Treap.maxDepth sample_tree = 3%Z
  /\ (Z.of_nat (count sample_tree) < 2 ^ Treap.maxDepth sample_tree)%Z.
Proof.
  destruct (legacy_max_depth sample_tree) as (_ & H2 & _); [simpl; lia|].
  split; [reflexivity|exact H2].
Defined.

(** ** The copy constructor of the implicit treap *)

Lemma emplace_back_all_tie_heap (T : Type) (values : list T) :
  forall (priorities : list N) (t : treap_node T),
    tie_heap t ->
    tie_heap (implicit_treap.emplace_back_all values priorities t).
Proof.
  induction values as [|v values IH]; intros priorities t Ht.
  - now destruct priorities.
  - destruct priorities as [|p priorities]; [exact Ht|].
    cbn [implicit_treap.emplace_back_all]. apply IH.
    unfold implicit_treap.emplace_back. now apply emplace_tie_heap.
Qed.

(** X25: the copy constructor of the implicit treap, the loop from
    [other.begin()] to [other.end()] feeding [emplace_back], ends without
    throwing and builds a container with the same sequence and size as
    [other], the empty one included, that satisfies the size invariant and
    the heap property whatever priorities are drawn. *)
Theorem implicit_copy_constructor (T : Type) (other : treap_node T)
    (priorities : list N) (fuel : nat) :
  size_inv other -> (size other < size_type_bound)%N ->
  count other <= fuel -> count other <= length priorities ->
  exists c,
    implicit_treap.copy_constructor fuel other priorities = Some (Ok c)
    /\ inorder c = inorder other
    /\ size c = size other
    /\ size_inv c /\ heap_inv c
    /\ (other = nullptr -> c = nullptr).
Proof.
  intros Hinv Hfit Hfuel Hlen.
  unfold implicit_treap.copy_constructor.
  assert (Hloop : for_each fuel other = Some (Ok (inorder other))).
  { unfold for_each. rewrite (cbegin_at T other Hinv).
    rewrite (for_each_from_at T other fuel Hinv Hfit 0) by lia.
    reflexivity. }
  rewrite Hloop.
  destruct (emplace_back_all_inorder T (inorder other) priorities nullptr I)
    as (Hi & Hs); [now rewrite inorder_length|].
  cbn [inorder app] in Hi.
  exists (implicit_treap.emplace_back_all (inorder other) priorities nullptr).
  split; [reflexivity|]. split; [exact Hi|]. split; [|split; [exact Hs|split]].
  - rewrite (size_count T _ Hs), (size_count T other Hinv).
    now rewrite <- !inorder_length, Hi.
  - apply tie_heap_heap_inv, emplace_back_all_tie_heap. exact I.
  - intros ->. reflexivity.
Qed.

Lemma implicit_copy_constructor_witness :
  exists c,
    implicit_treap.copy_constructor 4 sample_tree [5; 5; 2; 9]%N = Some (Ok c)
    /\ inorder c = [1%Z; 3%Z; 5%Z; 8%Z] /\ size c = 4%N.
Proof.
  destruct (implicit_copy_constructor Z sample_tree [5; 5; 2; 9]%N 4
              sample_tree_size_inv) as (c & H1 & H2 & H3 & _);
    [reflexivity|simpl; lia|simpl; lia|].
  exists c. split; [exact H1|]. split; [exact H2|exact H3].
Defined.

(** ** The implicit treap refines the sequence operations *)

Section ImplicitRefinement.

Variable T : Type.
Implicit Types t : treap_node T.

Lemma implicit_apply_sequence (op : implicit_op T) t :
  size_inv t -> (size t < implicit_treap.size_type_modulus)%N ->
  inorder (implicit_apply op t) = sequence_apply op (inorder t).
Proof.
  intros Hinv Hfit. pose proof (size_count T t Hinv) as Hsz.
  pose proof (inorder_length T t) as Hlen.
  destruct op; cbn [implicit_apply sequence_apply].
  - unfold implicit_treap.insert. rewrite emplace_inorder by assumption.
    unfold clamp. rewrite N2Nat.inj_min, Hsz, Nat2N.id, Hlen. reflexivity.
  - now apply push_back_inorder.
  - now apply (push_back_inorder T t value priority).
  - now apply push_front_inorder.
  - now apply (push_front_inorder T t value priority).
  - destruct (N.leb_spec (size t) index) as [Hge|Hlt].
    + rewrite erase_out_of_range by assumption.
      rewrite firstn_all2, skipn_all2 by lia. now rewrite app_nil_r.
    + now apply erase_inorder.
  - now apply pop_back_inorder.
  - now apply pop_front_inorder.
Qed.

Lemma sequence_apply_length (op : implicit_op T) (l : list T) :
  length (sequence_apply op l) <= length l + 1.
Proof.
  destruct op; cbn [sequence_apply];
    rewrite ?length_app, ?length_firstn, ?length_skipn; cbn [length];
    rewrite ?length_skipn; try lia.
  - destruct l as [|a l] using rev_ind; [cbn; lia|].
    rewrite removelast_last, length_app. cbn [length]. lia.
  - destruct l; cbn; lia.
Qed.

Lemma implicit_fold_sequence (ops : list (implicit_op T)) :
  forall t,
    size_inv t ->
    (N.of_nat (count t + length ops) < implicit_treap.size_type_modulus)%N ->
    inorder (fold_left (fun t op => implicit_apply op t) ops t)
    = fold_left (fun l op => sequence_apply op l) ops (inorder t).
Proof.
  induction ops as [|op ops IH]; intros t Hinv Hfit; [reflexivity|].
  cbn [fold_left length] in *.
  pose proof (size_count T t Hinv) as Hsz.
  assert (Hstep : inorder (implicit_apply op t) = sequence_apply op (inorder t)).
  { apply implicit_apply_sequence; [assumption|lia]. }
  rewrite <- Hstep. apply IH.
  - now apply implicit_apply_size_inv.
  - pose proof (sequence_apply_length op (inorder t)) as Hl.
    rewrite <- Hstep, !inorder_length in Hl. lia.
Qed.

End ImplicitRefinement.

(** X26: every run of mutating operations of the implicit treap from the
    empty container, with any drawn priorities, holds the sequence that the
    same operations produce on a list: [insert] at the clamped position,
    [push_back] / [push_front] at the ends, [erase] of the position (nothing
    when it is out of range), [pop_back] / [pop_front] of an end (nothing on
    the empty sequence); [size()] is the length of that sequence. *)
Theorem implicit_run_refines_sequence (T : Type) (ops : list (implicit_op T)) :
  (N.of_nat (length ops) < implicit_treap.size_type_modulus)%N ->
  inorder (implicit_run ops) = sequence_run ops
  /\ size (implicit_run ops) = N.of_nat (length (sequence_run ops)).
Proof.
  intros Hfit.
  assert (Hio : inorder (implicit_run ops) = sequence_run ops).
  { unfold implicit_run, sequence_run.
    now rewrite (implicit_fold_sequence T ops nullptr I). }
  split; [exact Hio|].
  rewrite (size_count T _ (implicit_run_size_inv T ops)).
  now rewrite <- Hio, inorder_length.
Qed.

Lemma implicit_run_refines_sequence_witness :
  inorder (implicit_run [iop_push_back 10%Z 4; iop_push_back 20%Z 4;
                         iop_insert 15%Z 1 9; iop_erase 0; iop_pop_back;
                         iop_pop_back; iop_pop_back])
  = [].
Proof.
  refine (proj1 (implicit_run_refines_sequence Z _ _)). reflexivity.
Defined.

(** X27: [Treap::remove(value)] of treap.h on an ordered tree that does not
    hold [value] throws "Element not found" after the two splits, without
    merging the parts back: the container keeps only the keys on the side of
    [value] where the old root's key is, the keys on the other side are no
    longer in it. *)
Theorem legacy_remove_absent_keeps_one_side (tz : Treap.TreapNode)
    (value : Z) :
  bst zkey Z.ltb tz -> ~ In value (inorder tz) ->
  exists kept,
    Treap.remove value tz
    = Ok (kept, Some (runtime_error "Element not found"%string))
    /\ inorder kept
       = match tz with
         | nullptr => []
         | Node _ _ _ _ k =>
             if (k <? value)%Z
             then filter (fun x => (x <? value)%Z) (inorder tz)
             else filter (fun x => (value <? x)%Z) (inorder tz)
         end.
Proof.
  intros Hb Habs. eexists.
  split; [exact (legacy_remove_absent tz value Hb Habs)|].
  destruct tz as [|p l r s k]; [reflexivity|].
  destruct (legacy_split_filter (Node p l r s k) value Hb) as (E1 & _).
  destruct (legacy_remove_parts value (Treap.key_succ value)
              (Node p l r s k) Hb) as (_ & _ & E4).
  cbn zeta in E4.
  destruct (k <? value)%Z; [exact E1|].
  rewrite E4. set (l0 := inorder (Node p l r s k)) in *.
  assert (Hl0 : forall x, In x l0 -> x <> value)
    by (intros x Hx ->; contradiction).
  pose proof (key_succ_le value) as Hle.
  clearbody l0. clear - Hl0 Hle.
  induction l0 as [|a l0 IH]; [reflexivity|].
  assert (a <> value) by (apply Hl0; now left).
  assert (IH' : forall x, In x l0 -> x <> value)
    by (intros x Hx; apply Hl0; now right).
  specialize (IH IH'). cbn [filter].
  destruct (Z.ltb_spec a value); cbn [negb filter].
  - destruct (Z.ltb_spec value a); [lia|exact IH].
  - destruct (Z.ltb_spec a (Treap.key_succ value)); [lia|].
    destruct (Z.ltb_spec value a); [|lia].
    cbn [negb]. now rewrite IH.
Qed.

Lemma legacy_remove_absent_keeps_one_side_witness :
  exists kept,
    Treap.remove 4%Z sample_tree
    = Ok (kept, Some (runtime_error "Element not found"%string))
    /\ inorder kept = [1%Z; 3%Z].
Proof.
  exact (legacy_remove_absent_keeps_one_side sample_tree 4%Z
           sample_tree_bst sample_tree_lacks_4).
Defined.

(** X28: [it + n] moves an iterator from rank [i] to rank [i + n] when that
    is at most [size], and [it - n] (as [it + (-n)]) moves it back. *)
Theorem iterator_advance_retreat (V : Type) (t : treap_node V) (i n : nat) :
  size_inv t -> (size t < size_type_bound)%N -> i + n <= count t ->
  advance t (iterator_at t i) (Z.of_nat n) = Ok (iterator_at t (i + n))
  /\ retreat t (iterator_at t (i + n)) (Z.of_nat n) = Ok (iterator_at t i)
  /\ advance t (iterator_at t (i + n)) (- Z.of_nat n) = Ok (iterator_at t i).
Proof.
  intros Hinv Hfit Hle. pose proof (size_count V t Hinv) as Hsz.
  unfold advance, retreat.
  change (_index (iterator_at t i)) with (N.of_nat i).
  change (_index (iterator_at t (i + n))) with (N.of_nat (i + n)).
  unfold size_type_bound in *.
  replace (Z.of_N (N.of_nat i) + Z.of_nat n)%Z with (Z.of_nat (i + n)) by lia.
  replace (Z.of_N (N.of_nat (i + n)) - Z.of_nat n)%Z with (Z.of_nat i) by lia.
  replace (Z.of_N (N.of_nat (i + n)) + - Z.of_nat n)%Z with (Z.of_nat i)
    by lia.
  rewrite !Z.mod_small by lia.
  replace (Z.to_N (Z.of_nat (i + n))) with (N.of_nat (i + n)) by lia.
  replace (Z.to_N (Z.of_nat i)) with (N.of_nat i) by lia.
  split; [|split]; apply reposition_at; (assumption || lia).
Qed.

Lemma iterator_advance_retreat_witness :
  advance sample_tree (iterator_at sample_tree 1) 2
  = Ok (iterator_at sample_tree 3)
  /\ retreat sample_tree (iterator_at sample_tree 3) 2
     = Ok (iterator_at sample_tree 1).
Proof.
  destruct (iterator_advance_retreat Z sample_tree 1 2 sample_tree_size_inv)
    as (H1 & H2 & _); [reflexivity|simpl; lia|].
  split; [exact H1|exact H2].
Defined.

(** ** The key-ordered treap refines the sorted-sequence operations *)

Section KeyedRefinement.

Variable V : Type.
Variable K : Type.
Variable get_key : V -> K.
Variable cmp : K -> K -> bool.

Hypothesis cmp_irrefl : forall x, cmp x x = false.
Hypothesis cmp_trans :
  forall x y z, cmp x y = true -> cmp y z = true -> cmp x z = true.

Implicit Types t : treap_node V.

Lemma find_has_equiv (key : K) t :
  bst get_key cmp t ->
  has_equiv get_key cmp key (inorder t)
  = match treap.find get_key cmp key t with
    | Some _ => true
    | None => false
    end.
Proof.
  intros Hb. unfold has_equiv.
  destruct (treap.find get_key cmp key t) as [w|] eqn:Hf.
  - destruct (find_some_sound V K get_key cmp cmp_trans key t w Hb Hf)
      as (Hin & H1 & H2).
    apply existsb_exists. exists w. split; [exact Hin|].
    now rewrite H1, H2.
  - destruct (existsb _ (inorder t)) eqn:He; [|reflexivity].
    apply existsb_exists in He as (x & Hx & Hc).
    apply andb_true_iff in Hc as (H1 & H2).
    apply negb_true_iff in H1, H2.
    destruct (find_present V K get_key cmp cmp_trans key t x Hb Hx)
      as (w & Hw & _); [split; assumption|congruence].
Qed.

Lemma keyed_insert_sorted (value : V) (priority : N) t :
  bst get_key cmp t ->
  inorder (snd (treap.insert get_key cmp value priority t))
  = sorted_insert get_key cmp value (inorder t).
Proof.
  intros Hb. unfold sorted_insert. rewrite find_has_equiv by assumption.
  destruct (treap.find get_key cmp (get_key value) t) as [w|] eqn:Hf.
  - unfold treap.insert, treap.emplace_with_key. now rewrite Hf.
  - rewrite (keyed_insert_inorder V K get_key cmp cmp_irrefl cmp_trans
               value priority t Hb Hf).
    destruct (ksplit_filter V K get_key cmp cmp_trans false (get_key value) t Hb)
      as (E1 & E2).
    rewrite ksplit_rec in E1, E2. now rewrite E1, E2.
Qed.

Lemma keyed_apply_sorted (op : keyed_op V K) t :
  bst get_key cmp t ->
  inorder (keyed_apply get_key cmp op t)
  = sorted_apply get_key cmp op (inorder t).
Proof.
  intros Hb. destruct op; cbn [keyed_apply sorted_apply].
  - now apply keyed_insert_sorted.
  - rewrite emplace_insert. now apply keyed_insert_sorted.
  - unfold treap.erase_key, treap.detach_node_with_key. cbn [snd].
    rewrite (detach_inorder V K get_key cmp cmp_irrefl cmp_trans true key key
               t Hb).
    apply filter_ext. intros v. unfold treap.split_compare.
    now rewrite negb_involutive.
  - unfold treap.erase_key_interval. cbn [snd].
    now rewrite (detach_inorder V K get_key cmp cmp_irrefl cmp_trans false
                   begin_key end_key t Hb).
  - unfold treap.erase_key_interval_with_end. cbn [snd].
    rewrite (detach_inorder V K get_key cmp cmp_irrefl cmp_trans true
               begin_key end_key t Hb).
    apply filter_ext. intros v. unfold treap.split_compare.
    now rewrite negb_involutive.
Qed.

Lemma keyed_fold_sorted (ops : list (keyed_op V K)) :
  forall t,
    bst get_key cmp t ->
    inorder (fold_left (fun t op => keyed_apply get_key cmp op t) ops t)
    = fold_left (fun l op => sorted_apply get_key cmp op l) ops (inorder t).
Proof.
  induction ops as [|op ops IH]; intros t Hb; [reflexivity|].
  cbn [fold_left]. rewrite <- (keyed_apply_sorted op t Hb). apply IH.
  now apply (keyed_apply_bst V K get_key cmp cmp_irrefl cmp_trans).
Qed.

End KeyedRefinement.

(** X29: every run of mutating operations of treap.hpp from the empty
    container, with any drawn priorities, holds the strictly increasing
    sequence that the same operations produce on a sorted list: an insertion
    does nothing when an element with an equivalent key is there and
    otherwise puts the value after the elements with a smaller key, an
    erasure removes the elements of the key or of the interval; [size()] is
    the length of that sequence. *)
Theorem keyed_run_refines_sorted_sequence (V K : Type) (get_key : V -> K)
    (cmp : K -> K -> bool) (ops : list (keyed_op V K)) :
  (forall x, cmp x x = false) ->
  (forall x y z, cmp x y = true -> cmp y z = true -> cmp x z = true) ->
  inorder (keyed_run get_key cmp ops) = sorted_run get_key cmp ops
  /\ size (keyed_run get_key cmp ops)
     = N.of_nat (length (sorted_run get_key cmp ops))
  /\ StronglySorted (ltk get_key cmp) (sorted_run get_key cmp ops).
Proof.
  intros Hirr Htr.
  assert (Hio : inorder (keyed_run get_key cmp ops)
                = sorted_run get_key cmp ops).
  { unfold keyed_run, sorted_run.
    rewrite (keyed_fold_sorted V K get_key cmp Hirr Htr ops nullptr);
      [reflexivity|constructor]. }
  split; [exact Hio|]. split.
  - rewrite (size_count V _ (keyed_run_size_inv V K get_key cmp ops)).
    now rewrite <- Hio, inorder_length.
  - rewrite <- Hio. exact (keyed_run_bst V K get_key cmp Hirr Htr ops).
Qed.

Lemma keyed_run_refines_sorted_sequence_witness :
  inorder (keyed_run zkey Z.ltb sample_ops) = [1%Z; 8%Z]
  /\ size (keyed_run zkey Z.ltb sample_ops) = 2%N.
Proof.
  destruct (keyed_run_refines_sorted_sequence Z Z zkey Z.ltb sample_ops
              Zltb_irrefl Zltb_trans) as (H1 & H2 & _).
  split; [exact H1|exact H2].
Defined.

(** ** Order statistics of the key-ordered treaps *)

Section KeyedRank.

Variable V : Type.
Variable K : Type.
Variable get_key : V -> K.
Variable cmp : K -> K -> bool.

Hypothesis cmp_irrefl : forall x, cmp x x = false.
Hypothesis cmp_trans :
  forall x y z, cmp x y = true -> cmp y z = true -> cmp x z = true.

Implicit Types t : treap_node V.





End KeyedRank.



